(** * LAGraph: batched betweenness centrality and vector printing

    A shallow embedding of
      - [Source/Algorithm/LAGraph_bc_batch.c] (batched Brandes algorithm on
        top of the GraphBLAS C API), and
      - [src/utility/LAGraph_Vector_print.c] (pretty printer for vectors),
    together with the properties of these two programs.

    Conventions of the embedding.
      - GraphBLAS is an external library: the operations the code calls are
        given their meaning from the GraphBLAS C API (mask, accumulator,
        replace, typecasts, dimension checks and error statuses).
      - [GrB_INT64] values are integers [Z] kept in the signed 64 bit range
        by [wrap64] after every addition and multiplication.
      - [GrB_FP64] values are IEEE 754 binary64 numbers, and the C type
        float is binary32: the values and the operations with their
        rounding to nearest even are those of [SpecFloat], the
        specification of floating point arithmetic of the standard library.
        The sums of a matrix product and of a reduction are taken in the
        order of the indices.
      - A matrix is a dense table of optional entries: [None] is an entry
        that is structurally absent, [Some v] a stored entry. *)

From Stdlib Require Import List ZArith QArith Qcanon Lia Bool Arith PeanoNat.
From Stdlib Require Import SpecFloat.
From Stdlib Require String.
Import ListNotations.

Set Implicit Arguments.
Local Open Scope nat_scope.

(* ================================================================== *)
(** ** Return statuses of GraphBLAS and LAGraph *)
(* ================================================================== *)

Inductive GrB_Info : Type :=
  | GrB_SUCCESS
  | GrB_NO_VALUE
  | GrB_UNINITIALIZED_OBJECT
  | GrB_NULL_POINTER
  | GrB_INVALID_VALUE
  | GrB_INVALID_INDEX
  | GrB_DOMAIN_MISMATCH
  | GrB_DIMENSION_MISMATCH
  | GrB_OUTPUT_NOT_EMPTY
  | GrB_NOT_IMPLEMENTED
  | GrB_OUT_OF_MEMORY
  | GrB_INDEX_OUT_OF_BOUNDS.

(* ================================================================== *)
(** ** Sparse matrices and vectors *)
(* ================================================================== *)

Record Matrix (V : Type) : Type := mkMatrix {
  nrows : nat;
  ncols : nat;
  cells : list (list (option V))
}.

Arguments mkMatrix {V} _ _ _.

(** Entry (i,j) of a matrix; anything outside the table is absent. *)
Definition get {V} (M : Matrix V) (i j : nat) : option V :=
  nth j (nth i (cells M) []) None.

(** The matrix with [n] rows and [m] columns whose entry (i,j) is [f i j]. *)
Definition tabulate {V} (n m : nat) (f : nat -> nat -> option V) : Matrix V :=
  mkMatrix n m (map (fun i => map (f i) (seq 0 m)) (seq 0 n)).

(** A matrix with no stored entry, as [GrB_Matrix_new] makes it. *)
Definition empty_matrix {V} (n m : nat) : Matrix V :=
  tabulate n m (fun _ _ => None).

Definition is_some {V} (o : option V) : bool :=
  match o with Some _ => true | None => false end.

(** Number of stored entries in the table. *)
Definition count_entries {V} (M : Matrix V) : nat :=
  length (filter is_some (concat (cells M))).

Definition same_shape {V W} (M : Matrix V) (N : Matrix W) : bool :=
  (nrows M =? nrows N) && (ncols M =? ncols N).

(** Vectors are tables with one optional entry per index. *)
Record Vector (V : Type) : Type := mkVector {
  vsize : nat;
  vcells : list (option V)
}.

Arguments mkVector {V} _ _.

Definition vget {V} (v : Vector V) (i : nat) : option V :=
  nth i (vcells v) None.

Definition vtabulate {V} (n : nat) (f : nat -> option V) : Vector V :=
  mkVector n (map f (seq 0 n)).

(* ================================================================== *)
(** ** The scalar domains *)
(* ================================================================== *)

(** Two's complement wrap-around of a signed 64 bit integer. *)
Definition wrap64 (z : Z) : Z := ((z + 2 ^ 63) mod 2 ^ 64 - 2 ^ 63)%Z.

(** [GrB_PLUS_INT64] and [GrB_TIMES_INT64]. *)
Definition plus_int64 (a b : Z) : Z := wrap64 (a + b).
Definition times_int64 (a b : Z) : Z := wrap64 (a * b).

(** Typecast of an integer to [GrB_BOOL]: nonzero is true. *)
Definition int64_to_bool (z : Z) : bool := negb (z =? 0)%Z.

(** [GrB_FP64] is the C type double, IEEE 754 binary64: 53 bits of
    precision, infinities at the exponent 1024.  The C type float is
    binary32: 24 bits, infinities at the exponent 128. *)
Definition FP64 : Type := spec_float.
Definition FP32 : Type := spec_float.

(** The double nearest to an integer (ties to even). *)
Definition fp64_of_Z (z : Z) : FP64 := binary_normalize 53 1024 z 0 false.

(** Typecast of an integer to [GrB_FP64]. *)
Definition int64_to_fp64 (z : Z) : FP64 := fp64_of_Z z.

(** [GrB_PLUS_FP64], [GrB_TIMES_FP64] and [GrB_MINV_FP64], which is 1 / x. *)
Definition plus_fp64 (a b : FP64) : FP64 := SFadd 53 1024 a b.
Definition times_fp64 (a b : FP64) : FP64 := SFmul 53 1024 a b.
Definition minv_fp64 (a : FP64) : FP64 := SFdiv 53 1024 (fp64_of_Z 1) a.

(** The conversion of an [int32_t] to float, and of a float to double,
    which is exact. *)
Definition int32_to_fp32 (z : Z) : FP32 := binary_normalize 24 128 z 0 false.

Definition fp32_to_fp64 (x : FP32) : FP64 :=
  match x with
  | S754_finite s m e => binary_normalize 53 1024 (cond_Zopp s (Zpos m)) e false
  | _ => x
  end.

(* ================================================================== *)
(** ** Meaning of the GraphBLAS operations *)
(* ================================================================== *)

(** Descriptors: [GrB_INP0 = GrB_TRAN], [GrB_OUTP = GrB_REPLACE] and
    [GrB_MASK = GrB_SCMP]. *)
Record Descriptor : Type := mkDescriptor {
  inp0_tran : bool;
  outp_replace : bool;
  mask_scmp : bool
}.

Inductive Desc_Field : Type := GrB_INP0 | GrB_OUTP | GrB_MASK.
Inductive Desc_Value : Type := GrB_TRAN | GrB_REPLACE | GrB_SCMP.

(** [GrB_NULL] as a descriptor: every field has its default. *)
Definition desc_default : Descriptor := mkDescriptor false false false.

Definition descriptor_set (d : Descriptor) (f : Desc_Field) (v : Desc_Value)
  : option Descriptor :=
  match f, v with
  | GrB_INP0, GrB_TRAN => Some (mkDescriptor true (outp_replace d) (mask_scmp d))
  | GrB_OUTP, GrB_REPLACE => Some (mkDescriptor (inp0_tran d) true (mask_scmp d))
  | GrB_MASK, GrB_SCMP => Some (mkDescriptor (inp0_tran d) (outp_replace d) true)
  | _, _ => None
  end.

(** A mask is a matrix together with the typecast of its domain to bool:
    position (i,j) belongs to the mask when the entry is stored and its
    value is true.  [GrB_SCMP] takes the complement. *)
Definition mask_value {Mt} (M : Matrix Mt) (tobool : Mt -> bool) (i j : nat) : bool :=
  match get M i j with
  | Some v => tobool v
  | None => false
  end.

Definition mask_at (mask : option (nat -> nat -> bool)) (d : Descriptor)
  (i j : nat) : bool :=
  match mask with
  | None => negb (mask_scmp d)
  | Some m => xorb (mask_scmp d) (m i j)
  end.

(** The accumulation step: Z = C (+) T on the union of the patterns. *)
Definition accumulate {V} (accum : option (V -> V -> V)) (c t : option V)
  : option V :=
  match accum with
  | None => t
  | Some f =>
      match c, t with
      | Some x, Some y => Some (f x y)
      | Some x, None => Some x
      | None, _ => t
      end
  end.

(** The write step shared by all operations: C<mask> = accum (C, T), the
    positions outside the mask being deleted under [GrB_REPLACE] and kept
    otherwise. *)
Definition write_result {V} (C : Matrix V) (mask : option (nat -> nat -> bool))
  (accum : option (V -> V -> V)) (d : Descriptor) (T : nat -> nat -> option V)
  : Matrix V :=
  tabulate (nrows C) (ncols C) (fun i j =>
    if mask_at mask d i j then accumulate accum (get C i j) (T i j)
    else if outp_replace d then None else get C i j).

(** Matrix product over a semiring: entry (i,j) combines the products
    A(i,k) * B(k,j) over the [k] where both factors are stored; it is absent
    when there is no such [k]. *)
Definition dot {X Y V} (add : V -> V -> V) (mul : X -> Y -> V)
  (a : nat -> option X) (b : nat -> option Y) (inner : nat) : option V :=
  fold_left (fun acc k =>
    match a k, b k with
    | Some x, Some y =>
        Some (match acc with Some s => add s (mul x y) | None => mul x y end)
    | _, _ => acc
    end) (seq 0 inner) None.

Definition transpose_get {V} (tran : bool) (M : Matrix V) (i j : nat) : option V :=
  if tran then get M j i else get M i j.

Definition in_rows {V} (tran : bool) (M : Matrix V) : nat :=
  if tran then ncols M else nrows M.
Definition in_cols {V} (tran : bool) (M : Matrix V) : nat :=
  if tran then nrows M else ncols M.

Definition mxm_result {X Y V} (add : V -> V -> V) (mul : X -> Y -> V)
  (tran : bool) (A : Matrix X) (B : Matrix Y) (i j : nat) : option V :=
  dot add mul (fun k => transpose_get tran A i k) (fun k => get B k j)
      (in_cols tran A).

(** Elementwise combination on the intersection and on the union of the
    patterns. *)
Definition emult_result {X Y V} (mul : X -> Y -> V) (A : Matrix X) (B : Matrix Y)
  (i j : nat) : option V :=
  match get A i j, get B i j with
  | Some x, Some y => Some (mul x y)
  | _, _ => None
  end.

Definition eadd_result {V} (add : V -> V -> V) (A B : Matrix V) (i j : nat)
  : option V :=
  match get A i j, get B i j with
  | Some x, Some y => Some (add x y)
  | Some x, None => Some x
  | None, o => o
  end.

(** Reduction of every row to a scalar; an empty row gives no entry. *)
Definition reduce_row {V} (add : V -> V -> V) (A : Matrix V) (i : nat) : option V :=
  fold_left (fun acc j =>
    match get A i j with
    | Some x => Some (match acc with Some s => add s x | None => x end)
    | None => acc
    end) (seq 0 (ncols A)) None.

(* ================================================================== *)
(** ** Calls, resources and the monad of the C functions *)
(* ================================================================== *)

(** The objects the function allocates, named after its variables. *)
Inductive Res : Type :=
  | R_centrality | R_desc_tsr | R_i_nsver | R_ones | R_paths | R_s_all
  | R_frontier | R_S_array | R_S (d : nat) | R_inv_paths | R_bc_update
  | R_replace | R_temp.

Definition Res_eq_dec (a b : Res) : {a = b} + {a <> b}.
Proof. decide equality. apply Nat.eq_dec. Defined.

(** The GraphBLAS methods the function calls. *)
Inductive Call : Type :=
  | Call_Matrix_nrows | Call_Vector_new | Call_Descriptor_new
  | Call_Descriptor_set | Call_Matrix_new | Call_Matrix_build
  | Call_extract | Call_apply | Call_eWiseAdd | Call_mxm | Call_Matrix_nvals
  | Call_assign | Call_eWiseMult | Call_reduce.

(** What a run leaves behind: the GraphBLAS calls issued, oldest first, and
    the objects that are allocated and not yet freed. *)
Record World : Type := mkWorld {
  calls : list Call;
  live : list Res
}.

Definition world0 : World := mkWorld [] [].

(** A C function returns a value, returns early with an error status, or
    leaves the defined behaviour of C (an access outside an array, the use
    of a handle that was never assigned). *)
Inductive Outcome (A : Type) : Type :=
  | Ret (a : A)
  | Err (info : GrB_Info)
  | Fault.

Arguments Ret {A} _.
Arguments Err {A} _.
Arguments Fault {A}.

Definition M (A : Type) : Type := World -> World * Outcome A.

Definition ret {A} (a : A) : M A := fun w => (w, Ret a).

Definition bind {A B} (m : M A) (f : A -> M B) : M B :=
  fun w =>
    match m w with
    | (w', Ret a) => f a w'
    | (w', Err e) => (w', Err e)
    | (w', Fault) => (w', Fault)
    end.

Notation "x <- m ;; k" := (bind m (fun x => k))
  (at level 61, m at next level, right associativity).
Notation "m ;;; k" := (bind m (fun _ => k))
  (at level 61, right associativity).

Definition raise {A} (e : GrB_Info) : M A := fun w => (w, Err e).
Definition fault {A} : M A := fun w => (w, Fault).

Definition log (c : Call) : M unit :=
  fun w => (mkWorld (calls w ++ [c]) (live w), Ret tt).

Definition alloc (r : Res) : M unit :=
  fun w => (mkWorld (calls w) (live w ++ [r]), Ret tt).

Definition release (rs : list Res) (w : World) : World :=
  mkWorld (calls w)
    (filter (fun r => negb (existsb (fun x => if Res_eq_dec x r then true else false) rs))
            (live w)).

Definition free (rs : list Res) : M unit := fun w => (release rs w, Ret tt).

(** A method call: the call is recorded, then the checks of the method
    decide between an error status and the value. *)
Definition method {A} (c : Call) (res : GrB_Info + A) : M A :=
  log c ;;;
  match res with
  | inl e => raise e
  | inr a => ret a
  end.

Definition require (b : bool) (e : GrB_Info) : GrB_Info + unit :=
  if b then inr tt else inl e.

Definition check {A} (b : bool) (e : GrB_Info) (k : GrB_Info + A) : GrB_Info + A :=
  if b then k else inl e.

(** Handles: a pointer argument is either null or points to an object. *)
Inductive Ptr : Type := NULL | Valid.

(** A list of indices, or the constant [GrB_ALL]. *)
Inductive Indices : Type :=
  | GrB_ALL
  | Index_list (l : list nat).

(* ------------------------------------------------------------------ *)
(** *** The methods *)
(* ------------------------------------------------------------------ *)

Definition GrB_Matrix_nrows {V} (A : option (Matrix V)) : M nat :=
  method Call_Matrix_nrows
    match A with
    | None => inl GrB_UNINITIALIZED_OBJECT
    | Some a => inr (nrows a)
    end.

Definition GrB_Vector_new (v : Ptr) (r : Res) (V : Type) (n : Z) : M (Vector V) :=
  method Call_Vector_new
    match v with
    | NULL => inl GrB_NULL_POINTER
    | Valid => check (0 <? n)%Z GrB_INVALID_VALUE (inr tt)
    end ;;;
  alloc r ;;;
  ret (vtabulate (Z.to_nat n) (fun _ => None)).

Definition GrB_Descriptor_new (r : Res) : M Descriptor :=
  method Call_Descriptor_new (inr desc_default) ;;;
  alloc r ;;;
  ret desc_default.

Definition GrB_Descriptor_set (d : Descriptor) (f : Desc_Field) (v : Desc_Value)
  : M Descriptor :=
  method Call_Descriptor_set
    match descriptor_set d f v with
    | Some d' => inr d'
    | None => inl GrB_INVALID_VALUE
    end.

Definition GrB_Matrix_new (r : Res) (V : Type) (n m : Z) : M (Matrix V) :=
  method Call_Matrix_new
    (check ((0 <? n)%Z && (0 <? m)%Z) GrB_INVALID_VALUE (inr tt)) ;;;
  alloc r ;;;
  ret (empty_matrix (Z.to_nat n) (Z.to_nat m)).

Definition malloc (r : Res) : M unit := alloc r.

(** Masks as the operations receive them: a shape and a membership test. *)
Record Mask : Type := mkMask {
  mask_rows : nat;
  mask_cols : nat;
  mask_in : nat -> nat -> bool
}.

Definition value_mask {Mt} (M : Matrix Mt) (tobool : Mt -> bool) : Mask :=
  mkMask (nrows M) (ncols M) (mask_value M tobool).

(** The output, the mask and the computed result must agree in shape. *)
Definition shapes_ok {V} (C : Matrix V) (mask : option Mask) (r c : nat) : bool :=
  (nrows C =? r) && (ncols C =? c) &&
  match mask with
  | None => true
  | Some m => (mask_rows m =? r) && (mask_cols m =? c)
  end.

Definition with_handle {V A} (h : option (Matrix V)) (k : Matrix V -> GrB_Info + A)
  : GrB_Info + A :=
  match h with
  | None => inl GrB_UNINITIALIZED_OBJECT
  | Some a => k a
  end.

(** The first [k] elements of a C array; [None] when the array is shorter. *)
Definition read_array {A} (l : list A) (k : nat) : option (list A) :=
  if k <=? length l then Some (firstn k l) else None.

(** [GrB_Matrix_build]: the tuples (rows[k], cols[k], vals[k]), k < nvals,
    duplicates combined with [dup], into a matrix that has no entries. *)
Definition build_entry {V} (dup : V -> V -> V) (tuples : list (nat * nat * V))
  (i j : nat) : option V :=
  fold_left (fun acc t =>
    match t with
    | (r, c, v) =>
        if (r =? i) && (c =? j)
        then Some (match acc with Some a => dup a v | None => v end)
        else acc
    end) tuples None.

Definition GrB_Matrix_build {V} (C : Matrix V) (rows cols : list nat)
  (vals : list V) (nvals : nat) (dup : V -> V -> V) : M (Matrix V) :=
  match read_array rows nvals, read_array cols nvals, read_array vals nvals with
  | Some rs, Some cs, Some vs =>
      method Call_Matrix_build
        (check (count_entries C =? 0) GrB_OUTPUT_NOT_EMPTY
        (check (forallb (fun r => r <? nrows C) rs && forallb (fun c => c <? ncols C) cs)
               GrB_INDEX_OUT_OF_BOUNDS
        (inr (tabulate (nrows C) (ncols C)
                (build_entry dup (combine (combine rs cs) vs))))))
  | _, _, _ => log Call_Matrix_build ;;; fault
  end.

(** The index list an [Indices] argument stands for. *)
Definition index_list (ix : Indices) (count all : nat) : option (list nat) :=
  match ix with
  | GrB_ALL => Some (seq 0 all)
  | Index_list l => read_array l count
  end.

(** [GrB_extract]: C<mask> = accum (C, A(rows, cols)), the input being
    transposed first under [GrB_INP0 = GrB_TRAN] and typecast to the domain
    of the output. *)
Definition GrB_extract {X V} (C : Matrix V) (mask : option Mask)
  (accum : option (V -> V -> V)) (A : option (Matrix X)) (cast : X -> V)
  (row_indices : Indices) (nrows_arg : nat)
  (col_indices : Indices) (ncols_arg : nat) (d : Descriptor) : M (Matrix V) :=
  match A with
  | None => method Call_extract (inl GrB_UNINITIALIZED_OBJECT)
  | Some a =>
      match index_list row_indices nrows_arg (in_rows (inp0_tran d) a),
            index_list col_indices ncols_arg (in_cols (inp0_tran d) a) with
      | Some rl, Some cl =>
          method Call_extract
            (check (shapes_ok C mask (length rl) (length cl)) GrB_DIMENSION_MISMATCH
            (check (forallb (fun r => r <? in_rows (inp0_tran d) a) rl &&
                    forallb (fun c => c <? in_cols (inp0_tran d) a) cl)
                   GrB_INDEX_OUT_OF_BOUNDS
            (inr (write_result C (option_map mask_in mask) accum d
                    (fun i j => option_map cast
                       (transpose_get (inp0_tran d) a (nth i rl 0) (nth j cl 0)))))))
      | _, _ => log Call_extract ;;; fault
      end
  end.

(** [GrB_apply]: C<mask> = accum (C, op (A)). *)
Definition GrB_apply {X V} (C : Matrix V) (mask : option Mask)
  (accum : option (V -> V -> V)) (op : X -> V) (A : Matrix X) (d : Descriptor)
  : M (Matrix V) :=
  method Call_apply
    (check (shapes_ok C mask (in_rows (inp0_tran d) A) (in_cols (inp0_tran d) A))
           GrB_DIMENSION_MISMATCH
    (inr (write_result C (option_map mask_in mask) accum d
            (fun i j => option_map op (transpose_get (inp0_tran d) A i j))))).

(** [GrB_eWiseAdd]: C<mask> = accum (C, A (+) B) on the union of patterns. *)
Definition GrB_eWiseAdd {V} (C : Matrix V) (mask : option Mask)
  (accum : option (V -> V -> V)) (add : V -> V -> V) (A B : Matrix V)
  (d : Descriptor) : M (Matrix V) :=
  method Call_eWiseAdd
    (check (shapes_ok C mask (nrows A) (ncols A) && same_shape A B)
           GrB_DIMENSION_MISMATCH
    (inr (write_result C (option_map mask_in mask) accum d (eadd_result add A B)))).

(** [GrB_eWiseMult]: C<mask> = accum (C, A (x) B) on the common pattern. *)
Definition GrB_eWiseMult {X Y V} (C : Matrix V) (mask : option Mask)
  (accum : option (V -> V -> V)) (mul : X -> Y -> V) (A : Matrix X) (B : Matrix Y)
  (d : Descriptor) : M (Matrix V) :=
  method Call_eWiseMult
    (check (shapes_ok C mask (nrows A) (ncols A) && same_shape A B)
           GrB_DIMENSION_MISMATCH
    (inr (write_result C (option_map mask_in mask) accum d (emult_result mul A B)))).

(** [GrB_mxm]: C<mask> = accum (C, A +.* B), the first input transposed under
    [GrB_INP0 = GrB_TRAN]. *)
Definition GrB_mxm {X Y V} (C : Matrix V) (mask : option Mask)
  (accum : option (V -> V -> V)) (add : V -> V -> V) (mul : X -> Y -> V)
  (A : option (Matrix X)) (B : Matrix Y) (d : Descriptor) : M (Matrix V) :=
  method Call_mxm
    (with_handle A (fun a =>
     check (shapes_ok C mask (in_rows (inp0_tran d) a) (ncols B) &&
            (in_cols (inp0_tran d) a =? nrows B))
           GrB_DIMENSION_MISMATCH
     (inr (write_result C (option_map mask_in mask) accum d
             (mxm_result add mul (inp0_tran d) a B))))).

Definition GrB_Matrix_nvals {V} (A : Matrix V) : M nat :=
  method Call_Matrix_nvals (inr (count_entries A)).

(** [GrB_assign] of a scalar to all rows and all columns. *)
Definition GrB_Matrix_assign_scalar {V} (C : Matrix V) (x : V) : M (Matrix V) :=
  method Call_assign
    (inr (write_result C None None desc_default (fun _ _ => Some x))).

Definition GrB_Vector_assign_scalar {V} (w : Vector V) (x : V) : M (Vector V) :=
  method Call_assign (inr (vtabulate (vsize w) (fun _ => Some x))).

(** [GrB_reduce] of the rows of a matrix into a vector:
    w = accum (w, [sum_j A(i,j)]). *)
Definition GrB_reduce {V} (w : Vector V) (accum : option (V -> V -> V))
  (add : V -> V -> V) (A : Matrix V) : M (Vector V) :=
  method Call_reduce
    (check (vsize w =? nrows A) GrB_DIMENSION_MISMATCH
    (inr (vtabulate (vsize w)
            (fun i => accumulate accum (vget w i) (reduce_row add A i))))).

(* ================================================================== *)
(** ** LAGraph_bc_batch *)
(* ================================================================== *)

(** The adjacency matrix is taken to have an integer domain (a boolean
    matrix stores 1 for true): the semirings of the function typecast its
    entries to [GrB_INT64] and to [GrB_FP64]. *)
Definition adj_to_int64 (a : Z) : Z := wrap64 a.
Definition adj_to_fp64 (a : Z) : FP64 := int64_to_fp64 a.

(** The constant [1.0f], of type float.  It and [-(float) num_sources] are
    typecast to the domain [GrB_FP64] of the objects they are assigned
    to. *)
Definition one_fp32 : FP32 := int32_to_fp32 1.
Definition fp64_one : FP64 := fp32_to_fp64 one_fp32.

(** The handles and the array of the function are declared without an
    initial value.  Each is assigned when its object is created and is not
    freed before [LAGRAPH_FREE_ALL], so a handle has been assigned when its
    object is live. *)
Definition assigned (r : Res) (w : World) : bool :=
  existsb (fun x => if Res_eq_dec x r then true else false) (live w).

(** [GrB_free (&h)] and [free (p)], one handle after the other.  A handle
    that was never assigned holds an indeterminate value: freeing it is
    outside the defined behaviour of C. *)
Fixpoint free_handles (rs : list Res) : M unit :=
  match rs with
  | [] => ret tt
  | r :: rest =>
      fun w => if assigned r w then free_handles rest (release [r] w) else (w, Fault)
  end.

(** [LAGRAPH_FREE_ALL], with the value [depth] has where it is expanded. *)
Definition LAGRAPH_FREE_ALL (depth : nat) : M unit :=
  free_handles ([R_frontier; R_paths; R_inv_paths; R_bc_update; R_desc_tsr;
                 R_replace; R_temp] ++ map R_S (seq 0 depth) ++ [R_S_array]).

(** Modelled from the spec: the macro [LAGRAPH_OK] of LAGraph_internal.h,
    which is not part of the sources at hand.  Every intermediate status is
    checked; at the first failure [LAGRAPH_FREE_ALL] is run and the status
    of the failed call is returned. *)
Definition LAGRAPH_OK {A} (depth : nat) (m : M A) : M A :=
  fun w =>
    match m w with
    | (w', Err e) => (LAGRAPH_FREE_ALL depth ;;; raise e) w'
    | r => r
    end.

(** The state of the breadth-first search loop. *)
Record BFS : Type := mkBFS {
  bfs_depth : nat;
  bfs_S_array : list (Matrix bool);
  bfs_paths : Matrix Z;
  bfs_frontier : Matrix Z
}.

(** The body of the [do ... while (sum)] loop: the next state and [sum]. *)
Definition bfs_body (n : nat) (num_sources : Z) (A_matrix : option (Matrix Z))
  (desc_tsr : Descriptor) (st : BFS) : M (BFS * nat) :=
  let depth := bfs_depth st in
  S_d <- LAGRAPH_OK depth
           (GrB_Matrix_new (R_S depth) bool (Z.of_nat n) num_sources) ;;
  S_d <- LAGRAPH_OK depth
           (GrB_apply S_d None None int64_to_bool (bfs_frontier st) desc_default) ;;
  paths <- LAGRAPH_OK depth
           (GrB_eWiseAdd (bfs_paths st) None None plus_int64
              (bfs_paths st) (bfs_frontier st) desc_default) ;;
  frontier <- LAGRAPH_OK depth
           (GrB_mxm (bfs_frontier st) (Some (value_mask paths int64_to_bool)) None
              plus_int64 (fun a f => times_int64 (adj_to_int64 a) f)
              A_matrix (bfs_frontier st) desc_tsr) ;;
  sum <- LAGRAPH_OK depth (GrB_Matrix_nvals frontier) ;;
  ret (mkBFS (depth + 1) (bfs_S_array st ++ [S_d]) paths frontier, sum).

(** The [do ... while (sum)] loop.  [S_array] has [n] slots, and iteration
    [depth] fills slot [depth]: [slots] counts the slots that are left, and
    an iteration with none left writes past the end of the array. *)
Fixpoint bfs_loop (slots : nat) (n : nat) (num_sources : Z)
  (A_matrix : option (Matrix Z)) (desc_tsr : Descriptor) (st : BFS) : M BFS :=
  match slots with
  | O => fault
  | S slots' =>
      r <- bfs_body n num_sources A_matrix desc_tsr st ;;
      if snd r =? 0 then ret (fst r)
      else bfs_loop slots' n num_sources A_matrix desc_tsr (fst r)
  end.

Definition S_at (S_array : list (Matrix bool)) (i : nat) : Matrix bool :=
  nth i S_array (empty_matrix 0 0).

(** One pass of the body of the backward loop, at depth index [i]. *)
Definition backward_step (depth : nat) (A_matrix : option (Matrix Z))
  (S_array : list (Matrix bool)) (paths : Matrix Z) (inv_paths : Matrix FP64)
  (replace : Descriptor) (i : nat) (bt : Matrix FP64 * Matrix FP64)
  : M (Matrix FP64 * Matrix FP64) :=
  let bc_update := fst bt in
  let temp := snd bt in
  temp <- LAGRAPH_OK depth
            (GrB_eWiseMult temp (Some (value_mask (S_at S_array i) (fun b => b))) None
               times_fp64 bc_update inv_paths replace) ;;
  temp <- LAGRAPH_OK depth
            (GrB_mxm temp (Some (value_mask (S_at S_array (i - 1)) (fun b => b))) None
               plus_fp64 (fun a t => times_fp64 (adj_to_fp64 a) t)
               A_matrix temp replace) ;;
  bc_update <- LAGRAPH_OK depth
            (GrB_eWiseMult bc_update None (Some plus_fp64)
               (fun t p => times_fp64 t (int64_to_fp64 p)) temp paths desc_default) ;;
  ret (bc_update, temp).

(** [for (int i = depth - 1; i > 0; i--)]: the argument [i] is the loop
    variable. *)
Fixpoint backward_loop (i : nat) (depth : nat) (A_matrix : option (Matrix Z))
  (S_array : list (Matrix bool)) (paths : Matrix Z) (inv_paths : Matrix FP64)
  (replace : Descriptor) (bt : Matrix FP64 * Matrix FP64)
  : M (Matrix FP64 * Matrix FP64) :=
  match i with
  | O => ret bt
  | S i' =>
      bt' <- backward_step depth A_matrix S_array paths inv_paths replace i bt ;;
      backward_loop i' depth A_matrix S_array paths inv_paths replace bt'
  end.

(** The set-up of the function, up to the initial frontier. *)
Definition bc_setup (centrality : Ptr) (A_matrix : option (Matrix Z))
  (sources : Indices) (num_sources : Z)
  : M (nat * Vector FP64 * Descriptor * BFS) :=
  let depth := 0 in
  n <- LAGRAPH_OK depth (GrB_Matrix_nrows A_matrix) ;;
  c <- LAGRAPH_OK depth (GrB_Vector_new centrality R_centrality FP64 (Z.of_nat n)) ;;
  desc_tsr <- LAGRAPH_OK depth (GrB_Descriptor_new R_desc_tsr) ;;
  desc_tsr <- LAGRAPH_OK depth (GrB_Descriptor_set desc_tsr GrB_INP0 GrB_TRAN) ;;
  desc_tsr <- LAGRAPH_OK depth (GrB_Descriptor_set desc_tsr GrB_OUTP GrB_REPLACE) ;;
  desc_tsr <- LAGRAPH_OK depth (GrB_Descriptor_set desc_tsr GrB_MASK GrB_SCMP) ;;
  malloc R_i_nsver ;;;
  malloc R_ones ;;;
  let i_nsver := seq 0 (Z.to_nat num_sources) in
  let ones := repeat 1%Z (Z.to_nat num_sources) in
  paths <- LAGRAPH_OK depth (GrB_Matrix_new R_paths Z (Z.of_nat n) num_sources) ;;
  paths <-
    match sources with
    | GrB_ALL =>
        malloc R_s_all ;;;
        let s_all := seq 0 n in
        paths <- LAGRAPH_OK depth
                   (GrB_Matrix_build paths s_all i_nsver ones
                      (Z.to_nat num_sources) plus_int64) ;;
        free [R_s_all] ;;;
        ret paths
    | Index_list l =>
        LAGRAPH_OK depth
          (GrB_Matrix_build paths l i_nsver ones (Z.to_nat num_sources) plus_int64)
    end ;;
  free [R_i_nsver] ;;;
  free [R_ones] ;;;
  frontier <- LAGRAPH_OK depth (GrB_Matrix_new R_frontier Z (Z.of_nat n) num_sources) ;;
  frontier <- LAGRAPH_OK depth
                (GrB_extract frontier (Some (value_mask paths int64_to_bool)) None
                   A_matrix adj_to_int64 GrB_ALL n sources (Z.to_nat num_sources)
                   desc_tsr) ;;
  malloc R_S_array ;;;
  ret (n, c, desc_tsr, mkBFS 0 [] paths frontier).

(** The betweenness centrality phase, after the search. *)
Definition bc_backward (n : nat) (num_sources : Z) (A_matrix : option (Matrix Z))
  (st : BFS) : M (Matrix FP64) :=
  let depth := bfs_depth st in
  inv_paths <- LAGRAPH_OK depth
                 (GrB_Matrix_new R_inv_paths FP64 (Z.of_nat n) num_sources) ;;
  inv_paths <- LAGRAPH_OK depth
                 (GrB_apply inv_paths None None
                    (fun p => minv_fp64 (int64_to_fp64 p)) (bfs_paths st) desc_default) ;;
  bc_update <- LAGRAPH_OK depth
                 (GrB_Matrix_new R_bc_update FP64 (Z.of_nat n) num_sources) ;;
  bc_update <- LAGRAPH_OK depth (GrB_Matrix_assign_scalar bc_update fp64_one) ;;
  replace <- LAGRAPH_OK depth (GrB_Descriptor_new R_replace) ;;
  replace <- LAGRAPH_OK depth (GrB_Descriptor_set replace GrB_OUTP GrB_REPLACE) ;;
  temp <- LAGRAPH_OK depth (GrB_Matrix_new R_temp FP64 (Z.of_nat n) num_sources) ;;
  bt <- backward_loop (depth - 1) depth A_matrix (bfs_S_array st) (bfs_paths st)
          inv_paths replace (bc_update, temp) ;;
  ret (fst bt).

(** The reduction of the update matrix into the centrality vector. *)
Definition bc_reduce (depth : nat) (num_sources : Z) (centrality : Vector FP64)
  (bc_update : Matrix FP64) : M (Vector FP64) :=
  c <- LAGRAPH_OK depth
         (GrB_Vector_assign_scalar centrality
            (fp32_to_fp64 (SFopp (int32_to_fp32 num_sources)))) ;;
  LAGRAPH_OK depth (GrB_reduce c (Some plus_fp64) plus_fp64 bc_update).

(** The forward phase: the set-up followed by the search. *)
Definition bc_forward (centrality : Ptr) (A_matrix : option (Matrix Z))
  (sources : Indices) (num_sources : Z) : M (nat * Vector FP64 * BFS) :=
  s <- bc_setup centrality A_matrix sources num_sources ;;
  match s with
  | (n, c, desc_tsr, st0) =>
      st <- bfs_loop n n num_sources A_matrix desc_tsr st0 ;;
      ret (n, c, st)
  end.

(** The whole function.  A run that reaches the end returns [GrB_SUCCESS]
    and leaves the centrality vector behind: that is [Ret]. *)
Definition LAGraph_bc_batch (centrality : Ptr) (A_matrix : option (Matrix Z))
  (sources : Indices) (num_sources : Z) : M (Vector FP64) :=
  s <- bc_forward centrality A_matrix sources num_sources ;;
  match s with
  | (n, c, st) =>
      bc_update <- bc_backward n num_sources A_matrix st ;;
      c <- bc_reduce (bfs_depth st) num_sources c bc_update ;;
      LAGRAPH_FREE_ALL (bfs_depth st) ;;;
      ret c
  end.

(* ================================================================== *)
(** ** LAGraph_Vector_print *)
(* ================================================================== *)

Module VectorPrint.

Import String.

(** The types a vector can have: the eleven built-in real types, the two
    complex types of SuiteSparse:GraphBLAS and user-defined types. *)
Inductive GrB_Type : Type :=
  | GrB_BOOL | GrB_INT8 | GrB_INT16 | GrB_INT32 | GrB_INT64
  | GrB_UINT8 | GrB_UINT16 | GrB_UINT32 | GrB_UINT64
  | GrB_FP32 | GrB_FP64
  | GxB_FC32 | GxB_FC64
  | User_defined.

Definition GrB_Type_eqb (a b : GrB_Type) : bool :=
  match a, b with
  | GrB_BOOL, GrB_BOOL | GrB_INT8, GrB_INT8 | GrB_INT16, GrB_INT16
  | GrB_INT32, GrB_INT32 | GrB_INT64, GrB_INT64 | GrB_UINT8, GrB_UINT8
  | GrB_UINT16, GrB_UINT16 | GrB_UINT32, GrB_UINT32 | GrB_UINT64, GrB_UINT64
  | GrB_FP32, GrB_FP32 | GrB_FP64, GrB_FP64 | GxB_FC32, GxB_FC32
  | GxB_FC64, GxB_FC64 | User_defined, User_defined => true
  | _, _ => false
  end.

(** A vector as the printer sees it: its type, its size and its tuples in
    the order [GrB_Vector_extractTuples] returns them. *)
Record GrB_Vector : Type := mkGrB_Vector {
  v_type : GrB_Type;
  v_size : nat;
  v_tuples : list (nat * Q)
}.

(** What is written to the file, one item per [FPRINTF]. *)
Inductive Out : Type :=
  | Out_header (gtype : GrB_Type) (n nvals : nat)
  | Out_index (i : nat)
  | Out_value (format : string) (ctype : GrB_Type) (x : Q)
  | Out_newline
  | Out_ellipsis.

(** The status returned and the items written to [f]. *)
Definition Printed : Type := (GrB_Info * list Out)%type.

(** The macros [LG_ASSERT], [LG_ASSERT_MSG], [GrB_TRY], [FPRINTF] and
    [LG_CLEAR_MSG] come from LG_internal.h, which is not part of the
    sources at hand.  [LG_ASSERT (c, s)] returns the status [s] from the
    function when [c] is false; it writes to the message buffer only, as
    [LG_CLEAR_MSG] does.  [FPRINTF] writes to the file; a file that refuses
    the write and a failed allocation are not modelled. *)
Definition LG_ASSERT (c : bool) (s : GrB_Info) (out : list Out) (k : Printed)
  : Printed :=
  if c then k else (s, out).

Definition is_user_defined (t : GrB_Type) : bool :=
  match t with User_defined => true | _ => false end.

(** The tuples printed by the loop: all of them, or under [summary] the
    first 30 followed by an ellipsis. *)
Fixpoint print_tuples (format : string) (ctype : GrB_Type) (summary : bool)
  (k : nat) (tuples : list (nat * Q)) : list Out :=
  match tuples with
  | [] => []
  | (i, x) :: rest =>
      [Out_index i; Out_value format ctype x; Out_newline] ++
      (if summary && (29 <=? k) then [Out_ellipsis]
       else print_tuples format ctype summary (S k) rest)
  end.

(** [LG_VECTOR_PRINT (suffix, ctype, gtype, fmt1, fmt2)]: the function
    [LG_Vector_print_suffix] the macro defines. *)
Definition LG_VECTOR_PRINT (gtype : GrB_Type) (fmt1 fmt2 : string)
  (v : option GrB_Vector) (pr : Z) (f : Ptr) : Printed :=
  match v with
  | None => (GrB_NULL_POINTER, [])
  | Some vec =>
      LG_ASSERT (match f with Valid => true | NULL => false end)
        GrB_NULL_POINTER []
        (if (pr <? 0)%Z then (GrB_SUCCESS, [])
         else
           let n := v_size vec in
           let nvals := List.length (v_tuples vec) in
           let header := [Out_header gtype n nvals] in
           if (pr <=? 1)%Z then (GrB_SUCCESS, header)
           else
             LG_ASSERT (negb (is_user_defined (v_type vec)))
               GrB_NOT_IMPLEMENTED header
               (let format := if (pr <=? 3)%Z then fmt1 else fmt2 in
                let summary := ((pr =? 2)%Z || (pr =? 4)%Z) && (30 <? nvals) in
                (GrB_SUCCESS,
                 header ++ print_tuples format gtype summary 0 (v_tuples vec))))
  end.

Definition LG_Vector_print_BOOL := LG_VECTOR_PRINT GrB_BOOL "%d"%string "%d"%string.
Definition LG_Vector_print_INT8 := LG_VECTOR_PRINT GrB_INT8 "%d"%string "%d"%string.
Definition LG_Vector_print_INT16 := LG_VECTOR_PRINT GrB_INT16 "%d"%string "%d"%string.
Definition LG_Vector_print_INT32 := LG_VECTOR_PRINT GrB_INT32 "%d"%string "%d"%string.
Definition LG_Vector_print_INT64 := LG_VECTOR_PRINT GrB_INT64 "%ld"%string "%ld"%string.
Definition LG_Vector_print_UINT8 := LG_VECTOR_PRINT GrB_UINT8 "%d"%string "%d"%string.
Definition LG_Vector_print_UINT16 := LG_VECTOR_PRINT GrB_UINT16 "%d"%string "%d"%string.
Definition LG_Vector_print_UINT32 := LG_VECTOR_PRINT GrB_UINT32 "%u"%string "%u"%string.
Definition LG_Vector_print_UINT64 := LG_VECTOR_PRINT GrB_UINT64 "%lu"%string "%lu"%string.
Definition LG_Vector_print_FP32 := LG_VECTOR_PRINT GrB_FP32 "%g"%string "%0.7g"%string.
Definition LG_Vector_print_FP64 := LG_VECTOR_PRINT GrB_FP64 "%g"%string "%0.15g"%string.

Definition LAGraph_Vector_print_type (v : option GrB_Vector) (type : GrB_Type)
  (pr : Z) (f : Ptr) : Printed :=
  match type with
  | GrB_BOOL => LG_Vector_print_BOOL v pr f
  | GrB_INT8 => LG_Vector_print_INT8 v pr f
  | GrB_INT16 => LG_Vector_print_INT16 v pr f
  | GrB_INT32 => LG_Vector_print_INT32 v pr f
  | GrB_INT64 => LG_Vector_print_INT64 v pr f
  | GrB_UINT8 => LG_Vector_print_UINT8 v pr f
  | GrB_UINT16 => LG_Vector_print_UINT16 v pr f
  | GrB_UINT32 => LG_Vector_print_UINT32 v pr f
  | GrB_UINT64 => LG_Vector_print_UINT64 v pr f
  | GrB_FP32 => LG_Vector_print_FP32 v pr f
  | GrB_FP64 => LG_Vector_print_FP64 v pr f
  | _ => (GrB_NOT_IMPLEMENTED, [])
  end.

(** [LG_SUITESPARSE] is a constant of the build: with SuiteSparse:GraphBLAS
    the type of the vector is queried, without it the vector is printed as
    if it were [GrB_FP64]. *)
Definition LAGraph_Vector_print (LG_SUITESPARSE : bool) (v : option GrB_Vector)
  (pr : Z) (f : Ptr) : Printed :=
  match v with
  | None => (GrB_NULL_POINTER, [])
  | Some vec =>
      LG_ASSERT (match f with Valid => true | NULL => false end)
        GrB_NULL_POINTER []
        (let type := if LG_SUITESPARSE then v_type vec else GrB_FP64 in
         LAGraph_Vector_print_type v type pr f)
  end.

(** The types the printer has a function for. *)
Definition is_printable (t : GrB_Type) : bool :=
  match t with
  | GxB_FC32 | GxB_FC64 | User_defined => false
  | _ => true
  end.

(** A vector of two single-precision complex numbers. *)
Definition complex_vector : GrB_Vector := mkGrB_Vector GxB_FC32 2 [(0, 1%Q); (1, 2%Q)].

(** A vector of three doubles. *)
Definition real_vector : GrB_Vector :=
  mkGrB_Vector GrB_FP64 3 [(0, 1%Q); (1, 2%Q); (2, 3%Q)].

End VectorPrint.

(* ================================================================== *)
(** ** Notions used to state the properties *)
(* ================================================================== *)

(** Finite sums of integers and of rationals over the indices below [n]. *)
Fixpoint zsum (f : nat -> Z) (n : nat) : Z :=
  match n with
  | O => 0%Z
  | S m => (zsum f m + f m)%Z
  end.

Fixpoint qsum (f : nat -> Qc) (n : nat) : Qc :=
  match n with
  | O => 0%Qc
  | S m => (qsum f m + f m)%Qc
  end.

(** A mantissa with all its [prec] digits, at an exponent of the normal
    range of a binary format. *)
Definition normal (prec emax : Z) (M : positive) (t : Z) : Prop :=
  Zpos (Pos.size M) = prec /\ (3 - emax - prec <= t <= emax - prec)%Z.

(** The normal form of a positive integer below 2 ^ prec. *)
Definition normal_mantissa (prec : Z) (z : positive) : positive :=
  match (prec - Zpos (Pos.size z))%Z with
  | Zpos j => Pos.iter xO z j
  | _ => z
  end.

Definition normal_exponent (prec : Z) (z : positive) : Z :=
  (Zpos (Pos.size z) - prec)%Z.

(** The number of a binary format nearest to an integer. *)
Definition float_of_Z (prec emax : Z) (z : Z) : spec_float :=
  binary_normalize prec emax z 0 false.

(** The graph of an adjacency matrix: an edge for each stored entry. *)
Definition edge (A : Matrix Z) (u v : nat) : bool := is_some (get A u v).

(** Every stored entry of the adjacency matrix is 1. *)
Definition unit_valued (A : Matrix Z) : bool :=
  forallb (fun i =>
    forallb (fun j =>
      match get A i j with Some v => (v =? 1)%Z | None => true end)
    (seq 0 (ncols A))) (seq 0 (nrows A)).

(** The source node of column [k]. *)
Definition source_of (sources : Indices) (k : nat) : nat :=
  match sources with
  | GrB_ALL => k
  | Index_list l => nth k l 0
  end.

(** The inputs the function accepts: a square matrix with at least one row,
    at least one source, and source ids that are rows of the matrix; with
    [GrB_ALL] there is one source per node. *)
Definition valid_input (A : Matrix Z) (sources : Indices) (num_sources : Z) : bool :=
  (0 <? nrows A) && (ncols A =? nrows A) && (0 <? num_sources)%Z &&
  match sources with
  | GrB_ALL => Z.to_nat num_sources =? nrows A
  | Index_list l =>
      (Z.to_nat num_sources <=? length l) &&
      forallb (fun s => s <? nrows A) (firstn (Z.to_nat num_sources) l)
  end.

(** Number of walks of length [l] from [s] to every node, and to [t]. *)
Fixpoint walk_row (A : Matrix Z) (l : nat) (s : nat) : list Z :=
  match l with
  | O => map (fun t => if s =? t then 1%Z else 0%Z) (seq 0 (nrows A))
  | S l' =>
      let r := walk_row A l' s in
      map (fun t =>
             zsum (fun u => (nth u r 0 * (if edge A u t then 1 else 0))%Z) (nrows A))
          (seq 0 (nrows A))
  end.

Definition walks (A : Matrix Z) (l s t : nat) : Z := nth t (walk_row A l s) 0%Z.

(** Distance from [s] to [t]: the length of a shortest walk, searched among
    the lengths below the number of nodes.  [sigma] is the number of
    shortest paths. *)
Definition dist (A : Matrix Z) (s t : nat) : option nat :=
  find (fun l => (0 <? walks A l s t)%Z) (seq 0 (nrows A)).

Definition sigma (A : Matrix Z) (s t : nat) : Z :=
  match dist A s t with
  | Some l => walks A l s t
  | None => 0%Z
  end.

(** No shortest-path count from a source reaches 2^63. *)
Definition no_overflow (A : Matrix Z) (sources : Indices) (num_sources : Z) : bool :=
  forallb (fun k =>
    forallb (fun i => (sigma A (source_of sources k) i <? 2 ^ 63)%Z)
            (seq 0 (nrows A)))
    (seq 0 (Z.to_nat num_sources)).

(** A pair (node, source column) is discovered at most once in a depth
    history. *)
Definition single_discovery (S_array : list (Matrix bool)) : Prop :=
  forall i k d1 d2,
    get (S_at S_array d1) i k = Some true ->
    get (S_at S_array d2) i k = Some true ->
    d1 = d2.

(** One iteration of the search loop leads from [st] to [st']. *)
Definition bfs_step (n : nat) (num_sources : Z) (A_matrix : option (Matrix Z))
  (desc_tsr : Descriptor) (st st' : BFS) : Prop :=
  exists w w' sum,
    bfs_body n num_sources A_matrix desc_tsr st w = (w', Ret (st', sum)).

(** The states the search goes through from [st0]. *)
Inductive bfs_reaches (n : nat) (num_sources : Z) (A_matrix : option (Matrix Z))
  (desc_tsr : Descriptor) (st0 : BFS) : BFS -> Prop :=
  | reaches_start : bfs_reaches n num_sources A_matrix desc_tsr st0 st0
  | reaches_step : forall st st',
      bfs_reaches n num_sources A_matrix desc_tsr st0 st ->
      bfs_step n num_sources A_matrix desc_tsr st st' ->
      bfs_reaches n num_sources A_matrix desc_tsr st0 st'.

(** The state after one iteration of the search loop, when the operations
    of the body succeed. *)
Definition next_S (n nsn : nat) (frontier : Matrix Z) : Matrix bool :=
  write_result (empty_matrix n nsn) None None desc_default
    (fun i j => option_map int64_to_bool (transpose_get false frontier i j)).

Definition next_paths (paths frontier : Matrix Z) : Matrix Z :=
  write_result paths None None desc_default (eadd_result plus_int64 paths frontier).

Definition next_frontier (A : Matrix Z) (d : Descriptor) (paths' frontier : Matrix Z)
  : Matrix Z :=
  write_result frontier (Some (mask_value paths' int64_to_bool)) None d
    (mxm_result plus_int64 (fun a f => times_int64 (adj_to_int64 a) f)
       (inp0_tran d) A frontier).

Definition bfs_next (n : nat) (num_sources : Z) (A : Matrix Z) (d : Descriptor)
  (st : BFS) : BFS :=
  let paths' := next_paths (bfs_paths st) (bfs_frontier st) in
  mkBFS (bfs_depth st + 1)
        (bfs_S_array st ++ [next_S n (Z.to_nat num_sources) (bfs_frontier st)])
        paths'
        (next_frontier A d paths' (bfs_frontier st)).

(** [desc_tsr] once its three fields are set. *)
Definition desc_tsr_value : Descriptor := mkDescriptor true true true.

(** [replace] once its field is set. *)
Definition replace_value : Descriptor := mkDescriptor false true false.

(** A matrix has [n] rows and [m] columns. *)
Definition shaped {V} (M : Matrix V) (n m : nat) : Prop :=
  nrows M = n /\ ncols M = m.

(** The path-count matrix and the frontier the set-up leaves, when its
    operations succeed. *)
Definition source_rows (n : nat) (sources : Indices) : list nat :=
  match sources with
  | GrB_ALL => seq 0 n
  | Index_list l => l
  end.

Definition init_paths (n : nat) (sources : Indices) (num_sources : Z) : Matrix Z :=
  let nsn := Z.to_nat num_sources in
  tabulate n nsn
    (build_entry plus_int64
       (combine (combine (firstn nsn (source_rows n sources)) (firstn nsn (seq 0 nsn)))
                (firstn nsn (repeat 1%Z nsn)))).

Definition source_cols (A : Matrix Z) (sources : Indices) (num_sources : Z) : list nat :=
  match sources with
  | GrB_ALL => seq 0 (nrows A)
  | Index_list l => firstn (Z.to_nat num_sources) l
  end.

Definition init_frontier (A : Matrix Z) (sources : Indices) (num_sources : Z) : Matrix Z :=
  let n := nrows A in
  write_result (empty_matrix n (Z.to_nat num_sources))
    (Some (mask_value (init_paths n sources num_sources) int64_to_bool)) None
    desc_tsr_value
    (fun i j => option_map adj_to_int64
       (transpose_get true A (nth i (seq 0 (ncols A)) 0)
                             (nth j (source_cols A sources num_sources) 0))).

Definition init_state (A : Matrix Z) (sources : Indices) (num_sources : Z) : BFS :=
  mkBFS 0 [] (init_paths (nrows A) sources num_sources)
        (init_frontier A sources num_sources).

(** The world the set-up leaves: ten calls issued; the two work arrays
    (and [s_all]) allocated and freed again. *)
Definition setup_world (sources : Indices) (w : World) : World :=
  let w1 := mkWorld (calls w)
              (live w ++ [R_centrality; R_desc_tsr; R_i_nsver; R_ones; R_paths]) in
  let w2 := match sources with
            | GrB_ALL => release [R_s_all] (mkWorld (calls w1) (live w1 ++ [R_s_all]))
            | Index_list _ => w1
            end in
  let w3 := release [R_ones] (release [R_i_nsver] w2) in
  mkWorld (calls w ++ [Call_Matrix_nrows; Call_Vector_new; Call_Descriptor_new;
                       Call_Descriptor_set; Call_Descriptor_set; Call_Descriptor_set;
                       Call_Matrix_new; Call_Matrix_build; Call_Matrix_new;
                       Call_extract])
          (live w3 ++ [R_frontier; R_S_array]).

(** A matrix is a table of [n] rows and [m] columns: it has this shape and
    no entry outside of it. *)
Definition table {V} (M : Matrix V) (n m : nat) : Prop :=
  shaped M n m /\ forall i j, n <= i \/ m <= j -> get M i j = None.

(** A value of the signed 64 bit range. *)
Definition in_int64 (z : Z) : Prop := (- 2 ^ 63 <= z < 2 ^ 63)%Z.

(** What the search keeps true from one iteration to the next, for any
    adjacency matrix: the frontier holds 64 bit values at positions that the
    path counts do not mask, and every pair of the depth history has a
    nonzero path count and was recorded once. *)
Record search_inv (n m : nat) (st : BFS) : Prop := mkSearchInv {
  inv_paths_table : table (bfs_paths st) n m;
  inv_frontier_table : table (bfs_frontier st) n m;
  inv_frontier_range :
    forall i k v, get (bfs_frontier st) i k = Some v -> in_int64 v;
  inv_frontier_new :
    forall i k, get (bfs_frontier st) i k <> None ->
                mask_value (bfs_paths st) int64_to_bool i k = false;
  inv_history_counted :
    forall d i k, get (S_at (bfs_S_array st) d) i k = Some true ->
                  mask_value (bfs_paths st) int64_to_bool i k = true;
  inv_history_once : single_discovery (bfs_S_array st);
  inv_history_length : length (bfs_S_array st) = bfs_depth st;
  inv_history_shaped : forall d, d < bfs_depth st -> shaped (S_at (bfs_S_array st) d) n m
}.

(** The length of a shortest walk from [s] to [t] among the lengths up to
    [d], if there is one. *)
Definition level (A : Matrix Z) (s t d : nat) : option nat :=
  find (fun l => (0 <? walks A l s t)%Z) (seq 0 (S d)).

(** The entry the search stores for a node first reached at length [l]
    when the bound on the lengths is [l] itself. *)
Definition at_level {V} (o : option nat) (l : nat) (v : V) : option V :=
  match o with
  | Some l' => if l' =? l then Some v else None
  | None => None
  end.

(** What the search computes, in terms of walks: after [bfs_depth st]
    iterations the path counts are the numbers of shortest walks of the
    nodes within that distance, the frontier holds the nodes one step
    further, and entry [j] of the depth history marks the nodes at distance
    [j + 1]. *)
Record counts_walks (A : Matrix Z) (sources : Indices) (m : nat) (st : BFS) : Prop :=
  mkCountsWalks {
  cw_paths_table : table (bfs_paths st) (nrows A) m;
  cw_frontier_table : table (bfs_frontier st) (nrows A) m;
  cw_history_length : length (bfs_S_array st) = bfs_depth st;
  cw_paths : forall i k, i < nrows A -> k < m ->
    get (bfs_paths st) i k =
    option_map (fun l => walks A l (source_of sources k) i)
               (level A (source_of sources k) i (bfs_depth st));
  cw_frontier : forall i k, i < nrows A -> k < m ->
    get (bfs_frontier st) i k =
    at_level (level A (source_of sources k) i (S (bfs_depth st))) (S (bfs_depth st))
             (walks A (S (bfs_depth st)) (source_of sources k) i);
  cw_history : forall j i k, j < bfs_depth st -> i < nrows A -> k < m ->
    get (S_at (bfs_S_array st) j) i k =
    at_level (level A (source_of sources k) i (S j)) (S j) true
}.

(* ------------------------------------------------------------------ *)
(** *** The backward phase *)
(* ------------------------------------------------------------------ *)

(** The matrices after one pass of the body of the backward loop, when its
    operations succeed. *)
Definition backward_next (A : Matrix Z) (S_array : list (Matrix bool))
  (paths : Matrix Z) (inv_paths : Matrix FP64) (i : nat)
  (bt : Matrix FP64 * Matrix FP64) : Matrix FP64 * Matrix FP64 :=
  let temp1 :=
    write_result (snd bt) (Some (mask_value (S_at S_array i) (fun b => b))) None
      replace_value (emult_result times_fp64 (fst bt) inv_paths) in
  let temp2 :=
    write_result temp1 (Some (mask_value (S_at S_array (i - 1)) (fun b => b))) None
      replace_value
      (mxm_result plus_fp64 (fun a t => times_fp64 (adj_to_fp64 a) t) false A temp1) in
  (write_result (fst bt) None (Some plus_fp64) desc_default
     (emult_result (fun t p => times_fp64 t (int64_to_fp64 p)) temp2 paths),
   temp2).

Fixpoint backward_iter (i : nat) (A : Matrix Z) (S_array : list (Matrix bool))
  (paths : Matrix Z) (inv_paths : Matrix FP64) (bt : Matrix FP64 * Matrix FP64)
  : Matrix FP64 * Matrix FP64 :=
  match i with
  | O => bt
  | S i' =>
      backward_iter i' A S_array paths inv_paths
        (backward_next A S_array paths inv_paths i bt)
  end.

(** The inverse-path matrix and the initial update matrix. *)
Definition inv_paths_of (n m : nat) (paths : Matrix Z) : Matrix FP64 :=
  write_result (empty_matrix n m) None None desc_default
    (fun i j => option_map (fun p => minv_fp64 (int64_to_fp64 p))
                  (transpose_get false paths i j)).

Definition ones_matrix (n m : nat) : Matrix FP64 :=
  write_result (empty_matrix n m) None None desc_default (fun _ _ => Some fp64_one).

(** The update matrix the backward phase returns. *)
Definition bc_update_of (A : Matrix Z) (num_sources : Z) (st : BFS) : Matrix FP64 :=
  let n := nrows A in
  let m := Z.to_nat num_sources in
  fst (backward_iter (bfs_depth st - 1) A (bfs_S_array st) (bfs_paths st)
         (inv_paths_of n m (bfs_paths st)) (ones_matrix n m, empty_matrix n m)).

(** The calls of the backward phase: seven to set up its matrices, then
    three per pass of the loop. *)
Definition backward_calls (passes : nat) : list Call :=
  [Call_Matrix_new; Call_apply; Call_Matrix_new; Call_assign; Call_Descriptor_new;
   Call_Descriptor_set; Call_Matrix_new] ++
  concat (repeat [Call_eWiseMult; Call_mxm; Call_eWiseMult] passes).

(** The backward phase in the words of its description.  Matrices are read
    as their entries. *)
Definition Entries : Type := nat -> nat -> option FP64.

(** A position is recorded at a depth when the depth matrix stores true. *)
Definition recorded (S_d : Matrix bool) (v k : nat) : bool :=
  match get S_d v k with
  | Some true => true
  | _ => false
  end.

(** Step 1: the dependency times the inverse path count, at the positions
    recorded at depth [i]; all other positions are absent. *)
Definition credit_share (S_i : Matrix bool) (dependency inverse : Entries) : Entries :=
  fun v k =>
    if recorded S_i v k then
      match dependency v k, inverse v k with
      | Some x, Some y => Some (times_fp64 x y)
      | _, _ => None
      end
    else None.

(** The sum of the stored terms among the first [n], added one after the
    other in the order of the indices; absent when none is stored. *)
Definition sum_stored (f : nat -> option FP64) (n : nat) : option FP64 :=
  fold_left (fun acc w =>
    match f w with
    | Some x => Some (match acc with Some s => plus_fp64 s x | None => x end)
    | None => acc
    end) (seq 0 n) None.

(** Step 2: the adjacency structure multiplied with the credit share, at
    the positions recorded at depth [i - 1]. *)
Definition propagate (A : Matrix Z) (S_prev : Matrix bool) (credit : Entries)
  : Entries :=
  fun v k =>
    if recorded S_prev v k then
      sum_stored (fun w =>
        match get A v w, credit w k with
        | Some a, Some c => Some (times_fp64 (adj_to_fp64 a) c)
        | _, _ => None
        end) (nrows A)
    else None.

(** Step 3: the propagated credit times the path count, added into the
    dependency. *)
Definition fold_credit (paths : Matrix Z) (dependency propagated : Entries)
  : Entries :=
  fun v k =>
    match propagated v k, get paths v k with
    | Some t, Some p =>
        match dependency v k with
        | Some x => Some (plus_fp64 x (times_fp64 t (int64_to_fp64 p)))
        | None => Some (times_fp64 t (int64_to_fp64 p))
        end
    | _, _ => dependency v k
    end.

Definition inverse_paths (paths : Matrix Z) : Entries :=
  fun v k => option_map (fun p => minv_fp64 (int64_to_fp64 p)) (get paths v k).

Definition backward_pass (A : Matrix Z) (S_array : list (Matrix bool))
  (paths : Matrix Z) (i : nat) (dependency : Entries) : Entries :=
  fold_credit paths dependency
    (propagate A (S_at S_array (i - 1))
       (credit_share (S_at S_array i) dependency (inverse_paths paths))).

(** The depth indices the backward phase goes through: D - 1 down to 1. *)
Definition backward_indices (D : nat) : list nat := rev (seq 1 (D - 1)).

Definition backward_spec (A : Matrix Z) (S_array : list (Matrix bool))
  (paths : Matrix Z) (D : nat) : Entries :=
  fold_left (fun dependency i => backward_pass A S_array paths i dependency)
            (backward_indices D) (fun _ _ => Some fp64_one).

(** The centrality vector the reduction returns. *)
Definition centrality_of (n : nat) (num_sources : Z) (bc_update : Matrix FP64)
  : Vector FP64 :=
  vtabulate n (fun i =>
    accumulate (Some plus_fp64)
      (vget (vtabulate n (fun _ =>
               Some (fp32_to_fp64 (SFopp (int32_to_fp32 num_sources))))) i)
      (reduce_row plus_fp64 bc_update i)).

(** The sum of the stored entries of row [i] over the first [m] columns. *)
Definition row_total (bc_update : Matrix FP64) (i m : nat) : option FP64 :=
  sum_stored (fun j => get bc_update i j) m.

(** The value of a finite double, as a rational. *)
Definition fp64_value (x : FP64) : option Q :=
  match x with
  | S754_zero _ => Some 0%Q
  | S754_finite s m e =>
      Some (inject_Z (cond_Zopp s (Zpos m)) *
            (if (0 <=? e)%Z then inject_Z (2 ^ e) else / inject_Z (2 ^ (- e))))%Q
  | _ => None
  end.

(** The world the whole function leaves after a successful run that
    started in [w1] after the forward phase. *)
Definition final_world (depth : nat) (w1 : World) : World :=
  fst (LAGRAPH_FREE_ALL depth
         (mkWorld (calls w1 ++ backward_calls (depth - 1) ++ [Call_assign; Call_reduce])
                  (live w1 ++ [R_inv_paths; R_bc_update; R_replace; R_temp]))).

(* ------------------------------------------------------------------ *)
(** *** Classical betweenness centrality *)
(* ------------------------------------------------------------------ *)

(** The distance from [s] to [t] is [l]. *)
Definition dist_is (A : Matrix Z) (s t l : nat) : bool :=
  match dist A s t with
  | Some l' => l' =? l
  | None => false
  end.

(** The share sigma(s,t|v) / sigma(s,t) of the shortest paths from [s] to
    [t] that pass through [v]: such paths exist when the distances add up,
    and each is a shortest path from [s] to [v] followed by one from [v] to
    [t]. *)
Definition pair_dependency (A : Matrix Z) (s t v : nat) : Qc :=
  match dist A s t, dist A s v, dist A v t with
  | Some dst, Some dsv, Some dvt =>
      if dsv + dvt =? dst
      then (Q2Qc (inject_Z (sigma A s v * sigma A v t)) /
            Q2Qc (inject_Z (sigma A s t)))%Qc
      else 0%Qc
  | _, _, _ => 0%Qc
  end.

(** The dependency of source [s] on [v], and the betweenness centrality of
    [v]: the sum over the sources s <> v and the targets t <> v. *)
Definition dependency (A : Matrix Z) (s v : nat) : Qc :=
  qsum (fun t => if t =? v then 0%Qc else pair_dependency A s t v) (nrows A).

Definition betweenness (A : Matrix Z) (v : nat) : Qc :=
  qsum (fun s => if s =? v then 0%Qc else dependency A s v) (nrows A).

(** The entries of the result of a run, when the run succeeds. *)
Definition centrality_values (r : World * Outcome (Vector FP64))
  : option (list (option FP64)) :=
  match snd r with
  | Ret c => Some (vcells c)
  | _ => None
  end.

(* ------------------------------------------------------------------ *)
(** *** Graphs used as examples *)
(* ------------------------------------------------------------------ *)

(** The adjacency matrix with the given entries (row, column, value). *)
Definition graph_of_edges (n : nat) (edges : list (nat * nat * Z)) : Matrix Z :=
  tabulate n n (fun i j =>
    option_map snd
      (find (fun e => (fst (fst e) =? i) && (snd (fst e) =? j)) edges)).

(** One node and no edge. *)
Definition single_node : Matrix Z := graph_of_edges 1 [].

(** Two nodes and the edge 1 -> 0: node 0 has no outgoing edge. *)
Definition sink_graph : Matrix Z := graph_of_edges 2 [(1, 0, 1%Z)].

(** The directed path 0 -> 1 -> 2 -> 3 -> 4. *)
Definition path_graph : Matrix Z :=
  graph_of_edges 5 [(0, 1, 1%Z); (1, 2, 1%Z); (2, 3, 1%Z); (3, 4, 1%Z)].

(** The diamond 0 -> 1 -> 3, 0 -> 2 -> 3, the entry of edge 0 -> 1 being [x]. *)
Definition diamond (x : Z) : Matrix Z :=
  graph_of_edges 4 [(0, 1, x); (0, 2, 1%Z); (1, 3, 1%Z); (2, 3, 1%Z)].

(** Three nodes and the edge 0 -> 1: node 2 has no incident edge. *)
Definition isolated_graph : Matrix Z := graph_of_edges 3 [(0, 1, 1%Z)].

(** Two nodes, the edge 0 -> 1 stored with the value 0 and a loop at
    node 1. *)
Definition zero_edge_graph : Matrix Z :=
  graph_of_edges 2 [(0, 1, 0%Z); (1, 1, 1%Z)].

(** A source, 63 layers of two nodes with all the edges from each layer to
    the next, and a sink: 128 nodes, every entry 1, and 2^63 shortest
    paths from node 0 to node 127. *)
Definition doubling_graph : Matrix Z :=
  graph_of_edges 128
    ([(0, 1, 1%Z); (0, 2, 1%Z)] ++
     flat_map (fun j => [(2 * j - 1, 2 * j + 1, 1%Z); (2 * j - 1, 2 * j + 2, 1%Z);
                         (2 * j, 2 * j + 1, 1%Z); (2 * j, 2 * j + 2, 1%Z)])
              (seq 1 62) ++
     [(125, 127, 1%Z); (126, 127, 1%Z)]).

(* ------------------------------------------------------------------ *)
(** *** Printed text *)
(* ------------------------------------------------------------------ *)

Module VectorText.

Import String.

(** The three items the printing loop writes for each tuple of a list. *)
Definition tuple_lines (format : String.string) (ctype : VectorPrint.GrB_Type)
  (tuples : list (nat * Q)) : list VectorPrint.Out :=
  flat_map (fun t => [VectorPrint.Out_index (fst t);
                      VectorPrint.Out_value format ctype (snd t);
                      VectorPrint.Out_newline]) tuples.

(** The two formats of the function that prints with a type. *)
Definition formats_of (t : VectorPrint.GrB_Type) : String.string * String.string :=
  match t with
  | VectorPrint.GrB_INT64 => ("%ld"%string, "%ld"%string)
  | VectorPrint.GrB_UINT32 => ("%u"%string, "%u"%string)
  | VectorPrint.GrB_UINT64 => ("%lu"%string, "%lu"%string)
  | VectorPrint.GrB_FP32 => ("%g"%string, "%0.7g"%string)
  | VectorPrint.GrB_FP64 => ("%g"%string, "%0.15g"%string)
  | _ => ("%d"%string, "%d"%string)
  end.

End VectorText.

(** A vector of 31 doubles and a vector of a user-defined type. *)
Definition long_vector : VectorPrint.GrB_Vector :=
  VectorPrint.mkGrB_Vector VectorPrint.GrB_FP64 40
    (map (fun i => (i, inject_Z (Z.of_nat i))) (seq 0 31)).

Definition user_vector : VectorPrint.GrB_Vector :=
  VectorPrint.mkGrB_Vector VectorPrint.User_defined 2 [(0, 1%Q)].

(* ================================================================== *)
(** ** Tables *)
(* ================================================================== *)

Unset Implicit Arguments.

Lemma nth_map_seq {V} (f : nat -> V) (d : V) (n i : nat) :
  i < n -> nth i (map f (seq 0 n)) d = f i.
Proof.
  intros H.
  rewrite (nth_indep _ d (f 0)) by (rewrite length_map, length_seq; exact H).
  rewrite (map_nth f (seq 0 n) 0 i), seq_nth by exact H.
  reflexivity.
Qed.

Lemma get_tabulate {V} (n m : nat) (f : nat -> nat -> option V) (i j : nat) :
  get (tabulate n m f) i j = if (i <? n) && (j <? m) then f i j else None.
Proof.
  unfold get, tabulate; cbn [cells].
  destruct (Nat.ltb_spec i n) as [Hi | Hi]; cbn [andb].
  - rewrite nth_map_seq by exact Hi.
    destruct (Nat.ltb_spec j m) as [Hj | Hj].
    + apply nth_map_seq; exact Hj.
    + apply nth_overflow. rewrite length_map, length_seq. exact Hj.
  - rewrite (nth_overflow (map _ _)) by (rewrite length_map, length_seq; exact Hi).
    destruct j; reflexivity.
Qed.

Lemma get_tabulate_in {V} (n m : nat) (f : nat -> nat -> option V) (i j : nat) :
  i < n -> j < m -> get (tabulate n m f) i j = f i j.
Proof.
  intros Hi Hj. rewrite get_tabulate.
  apply Nat.ltb_lt in Hi, Hj. rewrite Hi, Hj. reflexivity.
Qed.

Lemma get_tabulate_out {V} (n m : nat) (f : nat -> nat -> option V) (i j : nat) :
  n <= i \/ m <= j -> get (tabulate n m f) i j = None.
Proof.
  intros H. rewrite get_tabulate.
  destruct (Nat.ltb_spec i n), (Nat.ltb_spec j m); cbn; try reflexivity; lia.
Qed.

Lemma filter_nil_iff {V} (p : V -> bool) (l : list V) :
  filter p l = [] <-> forall x, In x l -> p x = false.
Proof.
  induction l as [| a l IH]; cbn.
  - split; [intros _ x [] | reflexivity].
  - destruct (p a) eqn:E.
    + split; [discriminate |].
      intros H. rewrite (H a (or_introl eq_refl)) in E. discriminate.
    + rewrite IH. split.
      * intros H x [<- | Hx]; [exact E | apply H; exact Hx].
      * intros H x Hx. apply H. right; exact Hx.
Qed.

Lemma count_entries_tabulate_0 {V} (n m : nat) (f : nat -> nat -> option V) :
  count_entries (tabulate n m f) = 0 <->
  (forall i j, i < n -> j < m -> f i j = None).
Proof.
  unfold count_entries, tabulate; cbn [cells].
  rewrite length_zero_iff_nil, filter_nil_iff.
  split.
  - intros H i j Hi Hj.
    assert (Hin : In (f i j) (concat (map (fun i => map (f i) (seq 0 m)) (seq 0 n)))).
    { apply in_concat. exists (map (f i) (seq 0 m)). split.
      - apply in_map_iff. exists i. split; [reflexivity | apply in_seq; lia].
      - apply in_map_iff. exists j. split; [reflexivity | apply in_seq; lia]. }
    apply H in Hin. destruct (f i j); [discriminate | reflexivity].
  - intros H x Hx. apply in_concat in Hx. destruct Hx as [row [Hrow Hx]].
    apply in_map_iff in Hrow. destruct Hrow as [i [<- Hi]].
    apply in_map_iff in Hx. destruct Hx as [j [<- Hj]].
    apply in_seq in Hi, Hj. rewrite H by lia. reflexivity.
Qed.

Lemma nrows_tabulate {V} n m (f : nat -> nat -> option V) : nrows (tabulate n m f) = n.
Proof. reflexivity. Qed.

Lemma ncols_tabulate {V} n m (f : nat -> nat -> option V) : ncols (tabulate n m f) = m.
Proof. reflexivity. Qed.

Lemma vget_vtabulate {V} (n : nat) (f : nat -> option V) (i : nat) :
  i < n -> vget (vtabulate n f) i = f i.
Proof. intros H. unfold vget, vtabulate; cbn. apply nth_map_seq; exact H. Qed.

(* ================================================================== *)
(** ** Rounding of binary floating point numbers *)
(* ================================================================== *)

Lemma digits2_pos_size (p : positive) : digits2_pos p = Pos.size p.
Proof. induction p as [p IH | p IH |]; cbn; [rewrite IH | rewrite IH |]; reflexivity. Qed.

Lemma iter_pos_iter {A} (f : A -> A) (p : positive) :
  forall x, iter_pos f p x = Pos.iter f x p.
Proof.
  induction p as [p IH | p IH |]; intros x; cbn [iter_pos Pos.iter].
  - rewrite !IH, Pos.iter_swap, Pos.iter_swap. reflexivity.
  - rewrite !IH. reflexivity.
  - reflexivity.
Qed.

Lemma size_iter_xO (M k : positive) :
  Pos.size (Pos.iter xO M k) = (Pos.size M + k)%positive.
Proof.
  induction k as [| k IH] using Pos.peano_ind.
  - cbn. lia.
  - rewrite Pos.iter_succ. cbn [Pos.size]. rewrite IH. lia.
Qed.

Lemma Zpos_iter_xO (M k : positive) :
  Zpos (Pos.iter xO M k) = (Zpos M * 2 ^ Zpos k)%Z.
Proof.
  induction k as [| k IH] using Pos.peano_ind.
  - cbn. lia.
  - rewrite Pos.iter_succ, Pos2Z.inj_xO, IH, Pos2Z.inj_succ, Z.pow_succ_r by lia. lia.
Qed.

Lemma shr_iter_xO (M k : positive) :
  Pos.iter shr_1 (Build_shr_record (Zpos (Pos.iter xO M k)) false false) k =
  Build_shr_record (Zpos M) false false.
Proof.
  induction k as [| k IH] using Pos.peano_ind.
  - reflexivity.
  - rewrite Pos.iter_succ_r, Pos.iter_succ. cbn [shr_1 orb]. exact IH.
Qed.

Lemma size_bounds (z : positive) :
  (2 ^ (Zpos (Pos.size z) - 1) <= Zpos z < 2 ^ Zpos (Pos.size z))%Z.
Proof.
  pose proof (Pos.size_gt z) as Hgt. pose proof (Pos.size_le z) as Hle.
  assert (E : Zpos (2 ^ Pos.size z) = (2 ^ Zpos (Pos.size z))%Z)
    by (rewrite Pos2Z.inj_pow; reflexivity).
  split.
  - assert (H : (2 ^ Zpos (Pos.size z) <= 2 * Zpos z)%Z).
    { rewrite <- E. change (2 * Zpos z)%Z with (Zpos z~0). apply Pos2Z.pos_le_pos. exact Hle. }
    replace (Zpos (Pos.size z)) with (Z.succ (Zpos (Pos.size z) - 1)) in H by lia.
    rewrite Z.pow_succ_r in H by lia. lia.
  - rewrite <- E. apply Pos2Z.pos_lt_pos. exact Hgt.
Qed.

Section Rounding.

Variables prec emax : Z.
Hypothesis Hprec : (0 < prec)%Z.
Hypothesis Hemax : (prec <= emax)%Z.
Hypothesis Hemax2 : (2 <= emax)%Z.

Lemma fexp_normal (M : positive) (t : Z) :
  normal prec emax M t -> fexp prec emax (Zpos (Pos.size M) + t) = t.
Proof. intros [Hs Ht]. unfold fexp, emin. lia. Qed.

Lemma binary_round_aux_normal (s : bool) (M : positive) (t : Z) :
  normal prec emax M t ->
  binary_round_aux prec emax s (Zpos M) t loc_Exact = S754_finite s M t.
Proof.
  intros Hn. pose proof (fexp_normal M t Hn) as Hf. destruct Hn as [Hs Ht].
  unfold binary_round_aux, shr_fexp. cbn [Zdigits2 shr_record_of_loc].
  rewrite digits2_pos_size, Hf, Z.sub_diag. cbn [shr shr_m loc_of_shr_record round_nearest_even].
  cbn [Zdigits2 shr_record_of_loc].
  rewrite digits2_pos_size, Hf, Z.sub_diag. cbn [shr shr_m].
  rewrite (proj2 (Z.leb_le t (emax - prec))) by lia. reflexivity.
Qed.

Lemma binary_round_aux_shifted (s : bool) (M k : positive) (t : Z) :
  normal prec emax M t ->
  binary_round_aux prec emax s (Zpos (Pos.iter xO M k)) (t - Zpos k) loc_Exact =
  S754_finite s M t.
Proof.
  intros Hn. pose proof (fexp_normal M t Hn) as Hf.
  unfold binary_round_aux at 1, shr_fexp at 1. cbn [Zdigits2 shr_record_of_loc].
  rewrite digits2_pos_size, size_iter_xO.
  replace (Zpos (Pos.size M + k) + (t - Zpos k))%Z with (Zpos (Pos.size M) + t)%Z by lia.
  rewrite Hf. replace (t - (t - Zpos k))%Z with (Zpos k) by lia.
  cbn [shr]. rewrite iter_pos_iter, shr_iter_xO.
  replace (t - Zpos k + Zpos k)%Z with t by lia.
  cbn [shr_m loc_of_shr_record round_nearest_even].
  pose proof (binary_round_aux_normal s M t Hn) as H.
  unfold binary_round_aux, shr_fexp in H. cbn [Zdigits2 shr_record_of_loc] in H.
  rewrite digits2_pos_size, Hf, Z.sub_diag in H.
  cbn [shr shr_m loc_of_shr_record round_nearest_even] in H. exact H.
Qed.

(** A number with the value of a normal one rounds to it, whatever its
    mantissa and exponent. *)
Lemma binary_round_normal (s : bool) (N M : positive) (e t : Z) :
  normal prec emax M t ->
  (e <= t /\ Zpos N = Zpos M * 2 ^ (t - e) \/
   t <= e /\ Zpos M = Zpos N * 2 ^ (e - t))%Z ->
  binary_round prec emax s N e = S754_finite s M t.
Proof.
  intros Hn Hv. pose proof (fexp_normal M t Hn) as Hf.
  unfold binary_round. rewrite digits2_pos_size.
  destruct Hv as [[Hle E] | [Hle E]].
  - (* the mantissa is too long *)
    destruct (Z.eq_dec e t) as [-> | Hne].
    + rewrite Z.sub_diag, Z.pow_0_r, Z.mul_1_r in E. injection E as ->.
      rewrite Hf. unfold shl_align. rewrite Z.sub_diag.
      apply binary_round_aux_normal. exact Hn.
    + destruct (t - e)%Z as [| k | k] eqn:Ek; try lia.
      assert (EN : N = Pos.iter xO M k).
      { apply Pos2Z.inj. rewrite Zpos_iter_xO. exact E. }
      subst N. rewrite size_iter_xO.
      replace (Zpos (Pos.size M + k) + e)%Z with (Zpos (Pos.size M) + t)%Z by lia.
      rewrite Hf. unfold shl_align. rewrite Ek.
      replace e with (t - Zpos k)%Z by lia.
      apply binary_round_aux_shifted. exact Hn.
  - (* the mantissa is too short *)
    destruct (Z.eq_dec e t) as [-> | Hne].
    + rewrite Z.sub_diag, Z.pow_0_r, Z.mul_1_r in E. injection E as ->.
      rewrite Hf. unfold shl_align. rewrite Z.sub_diag.
      apply binary_round_aux_normal. exact Hn.
    + destruct (e - t)%Z as [| k | k] eqn:Ek; try lia.
      assert (EM : M = Pos.iter xO N k).
      { apply Pos2Z.inj. rewrite Zpos_iter_xO. exact E. }
      assert (Es : (Zpos (Pos.size N) + e = Zpos (Pos.size M) + t)%Z).
      { rewrite EM, size_iter_xO. lia. }
      rewrite Es, Hf. unfold shl_align.
      replace (t - e)%Z with (Zneg k) by lia.
      rewrite <- EM. apply binary_round_aux_normal. exact Hn.
Qed.

Lemma normal_mantissa_value (z : positive) :
  (Zpos z < 2 ^ prec)%Z ->
  Zpos (normal_mantissa prec z) = (Zpos z * 2 ^ (- normal_exponent prec z))%Z /\
  (- normal_exponent prec z >= 0)%Z /\
  normal prec emax (normal_mantissa prec z) (normal_exponent prec z).
Proof.
  intros Hz. pose proof (size_bounds z) as [Hlo Hhi].
  assert (Hs : (Zpos (Pos.size z) <= prec)%Z).
  { destruct (Z.le_gt_cases (Zpos (Pos.size z)) prec) as [H | H]; [exact H | exfalso].
    assert (2 ^ prec <= 2 ^ (Zpos (Pos.size z) - 1))%Z by (apply Z.pow_le_mono_r; lia).
    lia. }
  unfold normal_mantissa, normal_exponent, normal.
  destruct (prec - Zpos (Pos.size z))%Z as [| j | j] eqn:Ej; try lia.
  - replace (- (Zpos (Pos.size z) - prec))%Z with 0%Z by lia.
    rewrite Z.pow_0_r, Z.mul_1_r. repeat split; lia.
  - rewrite Zpos_iter_xO, size_iter_xO.
    replace (- (Zpos (Pos.size z) - prec))%Z with (Zpos j) by lia.
    repeat split; lia.
Qed.

Lemma binary_normalize_pos (z : positive) :
  (Zpos z < 2 ^ prec)%Z ->
  binary_normalize prec emax (Zpos z) 0 false =
  S754_finite false (normal_mantissa prec z) (normal_exponent prec z).
Proof.
  intros Hz. destruct (normal_mantissa_value z Hz) as (Hv & Hge & Hn).
  cbn [binary_normalize]. apply binary_round_normal; [exact Hn |].
  right. split; [lia |]. rewrite Hv. reflexivity.
Qed.

Lemma binary_normalize_neg (z : positive) :
  (Zpos z < 2 ^ prec)%Z ->
  binary_normalize prec emax (Zneg z) 0 false =
  S754_finite true (normal_mantissa prec z) (normal_exponent prec z).
Proof.
  intros Hz. destruct (normal_mantissa_value z Hz) as (Hv & Hge & Hn).
  cbn [binary_normalize]. apply binary_round_normal; [exact Hn |].
  right. split; [lia |]. rewrite Hv. reflexivity.
Qed.

Lemma float_of_Z_nonzero (z : Z) :
  z <> 0%Z -> (Z.abs z < 2 ^ prec)%Z ->
  float_of_Z prec emax z =
  S754_finite (z <? 0)%Z (normal_mantissa prec (Z.to_pos (Z.abs z)))
              (normal_exponent prec (Z.to_pos (Z.abs z))).
Proof.
  intros Hz Hb. unfold float_of_Z. destruct z as [| p | p]; [contradiction | |].
  - apply binary_normalize_pos. exact Hb.
  - apply binary_normalize_neg. exact Hb.
Qed.

Lemma shl_align_value (mx : positive) (ex ex' : Z) :
  (ex' <= ex)%Z ->
  Zpos (fst (shl_align mx ex ex')) = (Zpos mx * 2 ^ (ex - ex'))%Z.
Proof.
  intros H. unfold shl_align.
  destruct (ex' - ex)%Z as [| d | d] eqn:E; try lia; cbn [fst].
  - replace (ex - ex')%Z with 0%Z by lia. lia.
  - rewrite Zpos_iter_xO. replace (ex - ex')%Z with (Zpos d) by lia. reflexivity.
Qed.

Lemma cond_Zopp_sign (z x : Z) :
  z <> 0%Z -> (0 <= x)%Z ->
  cond_Zopp (z <? 0)%Z (Z.abs z * x) = (z * x)%Z.
Proof.
  intros Hz Hx. unfold cond_Zopp.
  destruct (Z.ltb_spec z 0); [rewrite Z.abs_neq by lia | rewrite Z.abs_eq by lia]; lia.
Qed.

(** The sum of two integers is computed exactly when the integers and
    their sum are below 2 ^ prec in absolute value. *)
Lemma SFadd_integers (a b : Z) :
  (Z.abs a < 2 ^ prec)%Z -> (Z.abs b < 2 ^ prec)%Z -> (Z.abs (a + b) < 2 ^ prec)%Z ->
  SFadd prec emax (float_of_Z prec emax a) (float_of_Z prec emax b) = float_of_Z prec emax (a + b).
Proof.
  intros Ha Hb Hc.
  destruct (Z.eq_dec a 0) as [-> | Hna].
  { cbn [Z.add]. unfold float_of_Z at 1. cbn [binary_normalize].
    destruct (Z.eq_dec b 0) as [-> | Hnb]; [reflexivity |].
    rewrite (float_of_Z_nonzero b Hnb Hb). reflexivity. }
  destruct (Z.eq_dec b 0) as [-> | Hnb].
  { rewrite Z.add_0_r. unfold float_of_Z at 2. cbn [binary_normalize].
    rewrite (float_of_Z_nonzero a Hna Ha). reflexivity. }
  rewrite (float_of_Z_nonzero a Hna Ha), (float_of_Z_nonzero b Hnb Hb).
  set (pa := Z.to_pos (Z.abs a)). set (pb := Z.to_pos (Z.abs b)).
  assert (Hpa : Zpos pa = Z.abs a) by (unfold pa; rewrite Z2Pos.id; lia).
  assert (Hpb : Zpos pb = Z.abs b) by (unfold pb; rewrite Z2Pos.id; lia).
  destruct (normal_mantissa_value pa ltac:(lia)) as (Hva & Hea & Hnorma).
  destruct (normal_mantissa_value pb ltac:(lia)) as (Hvb & Heb & Hnormb).
  cbn [SFadd].
  set (ta := normal_exponent prec pa) in *. set (tb := normal_exponent prec pb) in *.
  set (ez := Z.min ta tb).
  assert (Hez : (ez <= ta /\ ez <= tb /\ ez <= 0)%Z) by (unfold ez; lia).
  destruct Hez as (Hza & Hzb & Hz0).
  rewrite (shl_align_value _ ta ez Hza), (shl_align_value _ tb ez Hzb), Hva, Hvb, Hpa, Hpb.
  rewrite <- !Z.mul_assoc, <- !Z.pow_add_r by lia.
  replace (- ta + (ta - ez))%Z with (- ez)%Z by lia.
  replace (- tb + (tb - ez))%Z with (- ez)%Z by lia.
  rewrite !cond_Zopp_sign by (try assumption; apply Z.pow_nonneg; lia).
  rewrite <- Z.mul_add_distr_r.
  destruct (Z.eq_dec (a + b) 0) as [E0 | Hnc].
  { rewrite E0. reflexivity. }
  rewrite (float_of_Z_nonzero (a + b) Hnc Hc).
  set (pc := Z.to_pos (Z.abs (a + b))).
  assert (Hpc : Zpos pc = Z.abs (a + b)) by (unfold pc; rewrite Z2Pos.id; lia).
  destruct (normal_mantissa_value pc ltac:(lia)) as (Hvc & Hec & Hnormc).
  set (tc := normal_exponent prec pc) in *.
  assert (Hpow : (0 < 2 ^ (- ez))%Z) by (apply Z.pow_pos_nonneg; lia).
  assert (Hrel : forall N : positive, Zpos N = (Z.abs (a + b) * 2 ^ (- ez))%Z ->
            (ez <= tc /\ Zpos N = Zpos (normal_mantissa prec pc) * 2 ^ (tc - ez) \/
             tc <= ez /\ Zpos (normal_mantissa prec pc) = Zpos N * 2 ^ (ez - tc))%Z).
  { intros N HN. rewrite Hvc, Hpc, HN.
    destruct (Z.le_gt_cases ez tc) as [H | H]; [left | right]; (split; [lia |]).
    - rewrite <- Z.mul_assoc, <- Z.pow_add_r by lia. f_equal. f_equal. lia.
    - rewrite <- Z.mul_assoc, <- Z.pow_add_r by lia. f_equal. f_equal. lia. }
  destruct ((a + b) * 2 ^ (- ez))%Z as [| N | N] eqn:EN.
  - exfalso. nia.
  - assert (Hpos : (0 < a + b)%Z) by nia.
    rewrite (proj2 (Z.ltb_ge (a + b) 0)) by lia.
    cbn [binary_normalize]. apply binary_round_normal; [exact Hnormc |].
    apply Hrel. rewrite Z.abs_eq by lia. symmetry. exact EN.
  - assert (Hneg : (a + b < 0)%Z) by nia.
    rewrite (proj2 (Z.ltb_lt (a + b) 0)) by lia.
    cbn [binary_normalize]. apply binary_round_normal; [exact Hnormc |].
    apply Hrel. rewrite Z.abs_neq by lia.
    assert (Zneg N = - Zpos N)%Z by reflexivity. lia.
Qed.







End Rounding.

(** Doubles and floats that hold integers. *)

Lemma fp64_one_value : fp64_one = fp64_of_Z 1.
Proof. reflexivity. Qed.

Lemma plus_fp64_integers (a b : Z) :
  (Z.abs a < 2 ^ 53)%Z -> (Z.abs b < 2 ^ 53)%Z -> (Z.abs (a + b) < 2 ^ 53)%Z ->
  plus_fp64 (fp64_of_Z a) (fp64_of_Z b) = fp64_of_Z (a + b).
Proof. intros Ha Hb Hab. apply (SFadd_integers 53 1024); lia. Qed.


(** A float that holds an integer below 2^24 is converted to the double
    that holds the same integer. *)
Lemma fp32_to_fp64_integer (z : Z) :
  z <> 0%Z -> (Z.abs z < 2 ^ 24)%Z ->
  fp32_to_fp64 (SFopp (int32_to_fp32 z)) = fp64_of_Z (- z).
Proof.
  intros Hz Hlt.
  unfold int32_to_fp32. fold (float_of_Z 24 128 z).
  rewrite (float_of_Z_nonzero 24 128) by lia.
  unfold fp64_of_Z. fold (float_of_Z 53 1024 (- z)).
  rewrite (float_of_Z_nonzero 53 1024) by lia.
  rewrite Z.abs_opp.
  set (p := Z.to_pos (Z.abs z)).
  assert (Hp : (Zpos p < 2 ^ 24)%Z) by (unfold p; rewrite Z2Pos.id by lia; exact Hlt).
  destruct (normal_mantissa_value 24 128 ltac:(lia) ltac:(lia) ltac:(lia) p Hp)
    as [Hv24 [He24 Hn24]].
  assert (Hp53 : (Zpos p < 2 ^ 53)%Z) by lia.
  destruct (normal_mantissa_value 53 1024 ltac:(lia) ltac:(lia) ltac:(lia) p Hp53)
    as [Hv53 [He53 Hn53]].
  cbn [SFopp fp32_to_fp64].
  assert (Hs : negb (z <? 0)%Z = (- z <? 0)%Z).
  { destruct (Z.ltb_spec z 0), (Z.ltb_spec (- z) 0); cbn; try reflexivity; lia. }
  rewrite Hs.
  assert (Hr : forall s,
            binary_round 53 1024 s (normal_mantissa 24 p) (normal_exponent 24 p) =
            S754_finite s (normal_mantissa 53 p) (normal_exponent 53 p)).
  { intros s. apply (binary_round_normal 53 1024); try lia; [exact Hn53 |].
    right. unfold normal_exponent in *. split; [lia |].
    rewrite Hv53, Hv24, <- Z.mul_assoc, <- Z.pow_add_r by lia.
    f_equal. f_equal. lia. }
  destruct (- z <? 0)%Z; cbn [cond_Zopp Z.opp binary_normalize]; apply Hr.
Qed.

Lemma fp32_to_fp64_two_to_24 :
  fp32_to_fp64 (SFopp (int32_to_fp32 16777216)) = fp64_of_Z (- 16777216).
Proof. reflexivity. Qed.

Lemma offset_exact (m : Z) :
  (0 < m <= 2 ^ 24)%Z ->
  fp32_to_fp64 (SFopp (int32_to_fp32 m)) = fp64_of_Z (- m).
Proof.
  intros Hm. destruct (Z.eq_dec m (2 ^ 24)) as [-> | Hne].
  - exact fp32_to_fp64_two_to_24.
  - apply fp32_to_fp64_integer; lia.
Qed.

(* ================================================================== *)
(** ** Running the methods *)
(* ================================================================== *)

Lemma shaped_tabulate {V} n m (f : nat -> nat -> option V) : shaped (tabulate n m f) n m.
Proof. split; reflexivity. Qed.

Lemma shaped_write_result {V} (C : Matrix V) mask accum d T n m :
  shaped C n m -> shaped (write_result C mask accum d T) n m.
Proof. intros [H1 H2]. unfold write_result. rewrite H1, H2. apply shaped_tabulate. Qed.

Lemma shapes_ok_true {V} (C : Matrix V) (mask : option Mask) n m :
  shaped C n m ->
  match mask with None => True | Some k => mask_rows k = n /\ mask_cols k = m end ->
  shapes_ok C mask n m = true.
Proof.
  intros [H1 H2] Hm. unfold shapes_ok. rewrite H1, H2, !Nat.eqb_refl. cbn.
  destruct mask as [k |]; [| reflexivity].
  destruct Hm as [-> ->]. rewrite !Nat.eqb_refl. reflexivity.
Qed.

Lemma same_shape_true {V W} (A : Matrix V) (B : Matrix W) n m :
  shaped A n m -> shaped B n m -> same_shape A B = true.
Proof.
  intros [H1 H2] [H3 H4]. unfold same_shape.
  rewrite H1, H2, H3, H4, !Nat.eqb_refl. reflexivity.
Qed.

Lemma bind_OK_method {A B} (d : nat) (c : Call) (r : GrB_Info + A) (v : A)
  (f : A -> M B) (w : World) :
  r = inr v ->
  bind (LAGRAPH_OK d (method c r)) f w = f v (mkWorld (calls w ++ [c]) (live w)).
Proof. intros ->. reflexivity. Qed.


Lemma bind_OK_Matrix_new {B} (d : nat) (r : Res) (V : Type) (n m : Z)
  (f : Matrix V -> M B) (w : World) :
  (0 < n)%Z -> (0 < m)%Z ->
  bind (LAGRAPH_OK d (GrB_Matrix_new r V n m)) f w =
  f (empty_matrix (Z.to_nat n) (Z.to_nat m))
    (mkWorld (calls w ++ [Call_Matrix_new]) (live w ++ [r])).
Proof.
  intros Hn Hm. unfold GrB_Matrix_new, bind, LAGRAPH_OK, method, check, log, alloc, ret.
  apply Z.ltb_lt in Hn, Hm. rewrite Hn, Hm. reflexivity.
Qed.


Lemma bind_OK_Vector_new {B} (d : nat) (r : Res) (V : Type) (n : Z)
  (f : Vector V -> M B) (w : World) :
  (0 < n)%Z ->
  bind (LAGRAPH_OK d (GrB_Vector_new Valid r V n)) f w =
  f (vtabulate (Z.to_nat n) (fun _ => None))
    (mkWorld (calls w ++ [Call_Vector_new]) (live w ++ [r])).
Proof.
  intros Hn. unfold GrB_Vector_new, bind, LAGRAPH_OK, method, check, log, alloc, ret.
  apply Z.ltb_lt in Hn. rewrite Hn. reflexivity.
Qed.

Lemma bind_OK_Descriptor_new {B} (d : nat) (r : Res) (f : Descriptor -> M B) (w : World) :
  bind (LAGRAPH_OK d (GrB_Descriptor_new r)) f w =
  f desc_default (mkWorld (calls w ++ [Call_Descriptor_new]) (live w ++ [r])).
Proof. reflexivity. Qed.

Lemma bind_ret {A B} (a : A) (f : A -> M B) (w : World) : bind (ret a) f w = f a w.
Proof. reflexivity. Qed.

Lemma bind_alloc {B} (r : Res) (f : unit -> M B) (w : World) :
  bind (alloc r) f w = f tt (mkWorld (calls w) (live w ++ [r])).
Proof. reflexivity. Qed.

Lemma bind_free {B} (rs : list Res) (f : unit -> M B) (w : World) :
  bind (free rs) f w = f tt (release rs w).
Proof. reflexivity. Qed.

Lemma bind_assoc {A B C} (m : M A) (f : A -> M B) (g : B -> M C) (w : World) :
  bind (bind m f) g w = bind m (fun a => bind (f a) g) w.
Proof. unfold bind. destruct (m w) as [w' [a | e |]]; reflexivity. Qed.

Lemma bfs_body_run (n : nat) (num_sources : Z) (A : Matrix Z) (st : BFS) (w : World) :
  shaped A n n -> 0 < n -> (0 < num_sources)%Z ->
  shaped (bfs_paths st) n (Z.to_nat num_sources) ->
  shaped (bfs_frontier st) n (Z.to_nat num_sources) ->
  bfs_body n num_sources (Some A) desc_tsr_value st w =
  (mkWorld (calls w ++ [Call_Matrix_new; Call_apply; Call_eWiseAdd; Call_mxm;
                        Call_Matrix_nvals])
           (live w ++ [R_S (bfs_depth st)]),
   Ret (bfs_next n num_sources A desc_tsr_value st,
        count_entries (bfs_frontier (bfs_next n num_sources A desc_tsr_value st)))).
Proof.
  intros HA Hn Hns Hp Hf.
  destruct HA as [HA1 HA2], Hf as [Hf1 Hf2], Hp as [Hp1 Hp2].
  unfold bfs_body.
  rewrite bind_OK_Matrix_new by lia. rewrite Nat2Z.id.
  unfold GrB_apply.
  erewrite bind_OK_method.
  2:{ cbn [in_rows in_cols inp0_tran desc_default]. rewrite Hf1, Hf2.
      rewrite shapes_ok_true; [reflexivity | apply shaped_tabulate | exact I]. }
  unfold GrB_eWiseAdd.
  erewrite bind_OK_method.
  2:{ rewrite shapes_ok_true; [| split; reflexivity | exact I].
      rewrite (@same_shape_true _ _ _ _ n (Z.to_nat num_sources)) by (split; assumption).
      reflexivity. }
  unfold GrB_mxm.
  erewrite bind_OK_method.
  2:{ cbn [with_handle in_rows in_cols inp0_tran desc_tsr_value].
      rewrite HA1, HA2, Hf1, Hf2, Nat.eqb_refl.
      rewrite shapes_ok_true; [reflexivity | split; assumption |].
      cbn. rewrite Hp1, Hp2. split; reflexivity. }
  unfold GrB_Matrix_nvals.
  erewrite bind_OK_method by reflexivity.
  unfold ret. cbn [calls live]. rewrite <- !app_assoc. cbn [app].
  reflexivity.
Qed.

Lemma valid_input_spec (A : Matrix Z) (sources : Indices) (num_sources : Z) :
  valid_input A sources num_sources = true ->
  0 < nrows A /\ ncols A = nrows A /\ (0 < num_sources)%Z /\
  match sources with
  | GrB_ALL => Z.to_nat num_sources = nrows A
  | Index_list l =>
      Z.to_nat num_sources <= length l /\
      forall k, k < Z.to_nat num_sources -> nth k l 0 < nrows A
  end.
Proof.
  unfold valid_input. intros H.
  apply andb_prop in H. destruct H as [H Hs].
  apply andb_prop in H. destruct H as [H Hns].
  apply andb_prop in H. destruct H as [Hn Hsq].
  apply Nat.ltb_lt in Hn. apply Nat.eqb_eq in Hsq. apply Z.ltb_lt in Hns.
  repeat split; try assumption.
  destruct sources as [| l].
  - apply Nat.eqb_eq in Hs. exact Hs.
  - apply andb_prop in Hs. destruct Hs as [Hlen Hall].
    apply Nat.leb_le in Hlen. split; [exact Hlen |].
    intros k Hk. rewrite forallb_forall in Hall.
    apply Nat.ltb_lt. apply Hall.
    rewrite <- (firstn_skipn (Z.to_nat num_sources) l) at 1.
    rewrite app_nth1 by (rewrite length_firstn; lia).
    apply nth_In. rewrite length_firstn. lia.
Qed.

Lemma in_firstn {A} (k : nat) (l : list A) (x : A) : In x (firstn k l) -> In x l.
Proof.
  intros H. rewrite <- (firstn_skipn k l). apply in_or_app. left. exact H.
Qed.

Lemma read_array_some {A} (l : list A) (k : nat) :
  k <= length l -> read_array l k = Some (firstn k l).
Proof. intros H. unfold read_array. apply Nat.leb_le in H. rewrite H. reflexivity. Qed.

Lemma source_of_lt (A : Matrix Z) (sources : Indices) (num_sources : Z) (k : nat) :
  valid_input A sources num_sources = true ->
  k < Z.to_nat num_sources -> source_of sources k < nrows A.
Proof.
  intros H Hk. apply valid_input_spec in H.
  destruct H as (_ & _ & _ & Hs). destruct sources as [| l]; cbn.
  - lia.
  - apply Hs. exact Hk.
Qed.

Lemma bc_setup_run (A : Matrix Z) (sources : Indices) (num_sources : Z) (w : World) :
  valid_input A sources num_sources = true ->
  bc_setup Valid (Some A) sources num_sources w =
  (setup_world sources w,
   Ret (nrows A, vtabulate (nrows A) (fun _ => None), desc_tsr_value,
        init_state A sources num_sources)).
Proof.
  intros Hv. pose proof (valid_input_spec _ _ _ Hv) as (Hn & Hsq & Hns & Hs).
  unfold bc_setup.
  unfold GrB_Matrix_nrows. erewrite bind_OK_method by reflexivity.
  rewrite bind_OK_Vector_new by lia. rewrite Nat2Z.id.
  rewrite bind_OK_Descriptor_new.
  unfold GrB_Descriptor_set.
  do 3 (erewrite bind_OK_method by reflexivity).
  cbn [inp0_tran outp_replace mask_scmp desc_default].
  fold desc_tsr_value.
  unfold malloc. rewrite !bind_alloc.
  rewrite bind_OK_Matrix_new by lia. rewrite Nat2Z.id.
  assert (Erows : read_array (source_rows (nrows A) sources) (Z.to_nat num_sources)
                  = Some (firstn (Z.to_nat num_sources) (source_rows (nrows A) sources))).
  { apply read_array_some. destruct sources as [| l]; cbn.
    - rewrite length_seq. lia.
    - apply Hs. }
  assert (Ecols : read_array (seq 0 (Z.to_nat num_sources)) (Z.to_nat num_sources)
                  = Some (firstn (Z.to_nat num_sources) (seq 0 (Z.to_nat num_sources)))).
  { apply read_array_some. rewrite length_seq. lia. }
  assert (Evals : read_array (repeat 1%Z (Z.to_nat num_sources)) (Z.to_nat num_sources)
                  = Some (firstn (Z.to_nat num_sources) (repeat 1%Z (Z.to_nat num_sources)))).
  { apply read_array_some. rewrite repeat_length. lia. }
  assert (Ebuild : forall (B : Type) d (f : Matrix Z -> M B) w0,
    bind (LAGRAPH_OK d (GrB_Matrix_build (empty_matrix (nrows A) (Z.to_nat num_sources))
            (source_rows (nrows A) sources) (seq 0 (Z.to_nat num_sources))
            (repeat 1%Z (Z.to_nat num_sources)) (Z.to_nat num_sources) plus_int64)) f w0
    = f (init_paths (nrows A) sources num_sources)
        (mkWorld (calls w0 ++ [Call_Matrix_build]) (live w0))).
  { intros B d f w0. unfold GrB_Matrix_build. rewrite Erows, Ecols, Evals.
    erewrite bind_OK_method; [reflexivity |].
    assert (E1 : (count_entries (@empty_matrix Z (nrows A) (Z.to_nat num_sources)) =? 0) = true).
    { apply Nat.eqb_eq. apply count_entries_tabulate_0. reflexivity. }
    rewrite E1. cbn [check nrows ncols empty_matrix tabulate].
    assert (E2 : forallb (fun r => r <? nrows A)
                   (firstn (Z.to_nat num_sources) (source_rows (nrows A) sources)) &&
                 forallb (fun c => c <? Z.to_nat num_sources)
                   (firstn (Z.to_nat num_sources) (seq 0 (Z.to_nat num_sources))) = true).
    { apply andb_true_intro. split; apply forallb_forall; intros x Hx; apply Nat.ltb_lt.
      - destruct sources as [| l]; cbn in Hx.
        + apply in_firstn in Hx. apply in_seq in Hx. lia.
        + apply In_nth with (d := 0) in Hx. destruct Hx as [k [Hk <-]].
          rewrite length_firstn in Hk. rewrite nth_firstn.
          assert (Ek : (k <? Z.to_nat num_sources) = true) by (apply Nat.ltb_lt; lia).
          rewrite Ek. apply Hs. lia.
      - apply in_firstn in Hx. apply in_seq in Hx. lia. }
    rewrite E2. reflexivity. }
  assert (Hlen : length (source_cols A sources num_sources) = Z.to_nat num_sources).
  { destruct sources as [| l]; cbn.
    - rewrite length_seq. lia.
    - rewrite length_firstn. destruct Hs. lia. }
  assert (Ecl : index_list sources (Z.to_nat num_sources) (nrows A)
                = Some (source_cols A sources num_sources)).
  { destruct sources as [| l]; cbn; [reflexivity |].
    apply read_array_some. apply Hs. }
  assert (Eext : forall (B : Type) (f : Matrix Z -> M B) w0,
    bind (LAGRAPH_OK 0
            (GrB_extract (empty_matrix (nrows A) (Z.to_nat num_sources))
               (Some (value_mask (init_paths (nrows A) sources num_sources) int64_to_bool))
               None (Some A) adj_to_int64 GrB_ALL (nrows A) sources
               (Z.to_nat num_sources) desc_tsr_value)) f w0
    = f (init_frontier A sources num_sources)
        (mkWorld (calls w0 ++ [Call_extract]) (live w0))).
  { intros B f w0. unfold GrB_extract.
    cbn [index_list inp0_tran desc_tsr_value in_rows in_cols].
    rewrite Ecl.
    erewrite bind_OK_method; [reflexivity |].
    rewrite length_seq, Hlen, Hsq.
    rewrite shapes_ok_true; [| apply shaped_tabulate |].
    2:{ cbn. split; reflexivity. }
    assert (E2 : forallb (fun r => r <? nrows A) (seq 0 (nrows A)) &&
                 forallb (fun c => c <? nrows A) (source_cols A sources num_sources)
                 = true).
    { apply andb_true_intro. split; apply forallb_forall; intros x Hx; apply Nat.ltb_lt.
      - apply in_seq in Hx. lia.
      - apply In_nth with (d := 0) in Hx. destruct Hx as [k [Hk <-]].
        rewrite Hlen in Hk. destruct sources as [| l]; cbn.
        + rewrite seq_nth by lia. lia.
        + rewrite nth_firstn.
          assert (Ek : (k <? Z.to_nat num_sources) = true) by (apply Nat.ltb_lt; lia).
          rewrite Ek. apply Hs. lia. }
    rewrite E2. cbn [check]. unfold init_frontier. rewrite Hsq. reflexivity. }
  destruct sources as [| l].
  - unfold malloc. rewrite bind_assoc, bind_alloc.
    rewrite bind_assoc. rewrite (Ebuild _ 0).
    rewrite bind_assoc, bind_free, bind_ret.
    rewrite !bind_free.
    rewrite bind_OK_Matrix_new by lia. rewrite Nat2Z.id.
    rewrite Eext. rewrite bind_alloc. unfold ret, setup_world, release.
    cbn [calls live]. rewrite <- !app_assoc. reflexivity.
  - rewrite (Ebuild _ 0).
    rewrite !bind_free.
    rewrite bind_OK_Matrix_new by lia. rewrite Nat2Z.id.
    rewrite Eext. rewrite bind_alloc. unfold ret, setup_world, release.
    cbn [calls live]. rewrite <- !app_assoc. reflexivity.
Qed.

(* ================================================================== *)
(** ** Entries of the results of the operations *)
(* ================================================================== *)

Lemma table_tabulate {V} n m (f : nat -> nat -> option V) : table (tabulate n m f) n m.
Proof. split; [apply shaped_tabulate | apply get_tabulate_out]. Qed.

Lemma table_write_result {V} (C : Matrix V) mask accum d T n m :
  shaped C n m -> table (write_result C mask accum d T) n m.
Proof. intros [H1 H2]. unfold write_result. rewrite H1, H2. apply table_tabulate. Qed.

Lemma get_write_result {V} (C : Matrix V) mask accum d T n m i j :
  shaped C n m -> i < n -> j < m ->
  get (write_result C mask accum d T) i j =
  if mask_at mask d i j then accumulate accum (get C i j) (T i j)
  else if outp_replace d then None else get C i j.
Proof.
  intros [H1 H2] Hi Hj. unfold write_result. rewrite H1, H2.
  apply get_tabulate_in; assumption.
Qed.

Lemma get_next_S n m (F : Matrix Z) i k :
  i < n -> k < m -> get (next_S n m F) i k = option_map int64_to_bool (get F i k).
Proof.
  intros Hi Hk. unfold next_S.
  rewrite (@get_write_result _ _ _ _ _ _ n m) by (assumption || apply shaped_tabulate).
  reflexivity.
Qed.

Lemma get_next_paths n m (P F : Matrix Z) i k :
  shaped P n m -> i < n -> k < m ->
  get (next_paths P F) i k = eadd_result plus_int64 P F i k.
Proof.
  intros HP Hi Hk. unfold next_paths.
  rewrite (@get_write_result _ _ _ _ _ _ n m) by assumption.
  reflexivity.
Qed.

Lemma get_next_frontier n m (A P' F : Matrix Z) i k :
  shaped F n m -> i < n -> k < m ->
  get (next_frontier A desc_tsr_value P' F) i k =
  if mask_value P' int64_to_bool i k then None
  else mxm_result plus_int64 (fun a f => times_int64 (adj_to_int64 a) f) true A F i k.
Proof.
  intros HF Hi Hk. unfold next_frontier.
  rewrite (@get_write_result _ _ _ _ _ _ n m) by assumption.
  cbn [mask_at desc_tsr_value mask_scmp outp_replace inp0_tran xorb accumulate].
  destruct (mask_value P' int64_to_bool i k); reflexivity.
Qed.

Lemma get_next_frontier_out n m (A P' F : Matrix Z) d i k :
  shaped F n m -> n <= i \/ m <= k -> get (next_frontier A d P' F) i k = None.
Proof.
  intros HF H. unfold next_frontier.
  apply (proj2 (table_write_result _ _ _ _ _ _ _ HF)). exact H.
Qed.

Lemma get_next_S_out n m (F : Matrix Z) i k :
  n <= i \/ m <= k -> get (next_S n m F) i k = None.
Proof.
  intros H. unfold next_S.
  apply (proj2 (table_write_result _ _ _ _ _ _ _ (shaped_tabulate n m _))). exact H.
Qed.

Lemma dot_S {X Y V} (add : V -> V -> V) (mul : X -> Y -> V) a b (m : nat) :
  dot add mul a b (S m) =
  match a m, b m with
  | Some x, Some y =>
      Some (match dot add mul a b m with Some s => add s (mul x y) | None => mul x y end)
  | _, _ => dot add mul a b m
  end.
Proof.
  unfold dot. rewrite seq_S, fold_left_app. cbn [fold_left Nat.add].
  reflexivity.
Qed.

Lemma dot_none_iff {X Y V} (add : V -> V -> V) (mul : X -> Y -> V) a b (m : nat) :
  dot add mul a b m = None <-> forall k, k < m -> a k = None \/ b k = None.
Proof.
  induction m as [| m IH].
  - split; [intros _ k Hk; lia | reflexivity].
  - rewrite dot_S. destruct (a m) as [x |] eqn:Ea, (b m) as [y |] eqn:Eb.
    + split; [discriminate |]. intros H. destruct (H m (Nat.lt_succ_diag_r m)); congruence.
    + rewrite IH. split; intros H k Hk.
      * destruct (Nat.eq_dec k m) as [-> | Hne]; [right; exact Eb | apply H; lia].
      * apply H. lia.
    + rewrite IH. split; intros H k Hk.
      * destruct (Nat.eq_dec k m) as [-> | Hne]; [left; exact Ea | apply H; lia].
      * apply H. lia.
    + rewrite IH. split; intros H k Hk.
      * destruct (Nat.eq_dec k m) as [-> | Hne]; [left; exact Ea | apply H; lia].
      * apply H. lia.
Qed.

Lemma wrap64_range (z : Z) : in_int64 (wrap64 z).
Proof.
  unfold in_int64, wrap64.
  pose proof (Z.mod_pos_bound (z + 2 ^ 63) (2 ^ 64) ltac:(lia)). lia.
Qed.

Lemma wrap64_id (z : Z) : in_int64 z -> wrap64 z = z.
Proof.
  unfold in_int64, wrap64. intros H.
  rewrite Z.mod_small by lia. lia.
Qed.

Lemma dot_int64_range a b (m : nat) v :
  dot plus_int64 (fun x f => times_int64 (adj_to_int64 x) f) a b m = Some v ->
  in_int64 v.
Proof.
  induction m as [| m IH]; [discriminate |].
  rewrite dot_S. destruct (a m) as [x |], (b m) as [y |]; try exact IH.
  intros H. inversion H; subst.
  destruct (dot _ _ a b m); apply wrap64_range.
Qed.

Lemma mask_value_false_iff {Mt} (M : Matrix Mt) tobool i j :
  mask_value M tobool i j = false <->
  get M i j = None \/ exists v, get M i j = Some v /\ tobool v = false.
Proof.
  unfold mask_value. destruct (get M i j) as [v |].
  - split; [intros H; right; exists v; split; [reflexivity | exact H] |].
    intros [H | [v' [H1 H2]]]; [discriminate | congruence].
  - split; [intros _; left; reflexivity | reflexivity].
Qed.

Lemma int64_to_bool_false (v : Z) : int64_to_bool v = false <-> v = 0%Z.
Proof.
  unfold int64_to_bool. rewrite negb_false_iff. apply Z.eqb_eq.
Qed.

Lemma S_at_app_old (S_array : list (Matrix bool)) (X : Matrix bool) d :
  d < length S_array -> S_at (S_array ++ [X]) d = S_at S_array d.
Proof. intros H. unfold S_at. apply app_nth1. exact H. Qed.

Lemma S_at_app_new (S_array : list (Matrix bool)) (X : Matrix bool) :
  S_at (S_array ++ [X]) (length S_array) = X.
Proof. unfold S_at. rewrite app_nth2, Nat.sub_diag by lia. reflexivity. Qed.

Lemma S_at_beyond (S_array : list (Matrix bool)) d i k :
  length S_array <= d -> get (S_at S_array d) i k = None.
Proof.
  intros H. unfold S_at. rewrite nth_overflow by exact H.
  apply get_tabulate_out. left. lia.
Qed.

(** One iteration keeps the invariant of the search. *)
Lemma search_inv_next (n : nat) (num_sources : Z) (A : Matrix Z) (st : BFS) :
  search_inv n (Z.to_nat num_sources) st ->
  search_inv n (Z.to_nat num_sources) (bfs_next n num_sources A desc_tsr_value st).
Proof.
  intros [[HPs HPo] [HFs HFo] HFr HFn HHc HHo HHl HHs].
  set (m := Z.to_nat num_sources) in *.
  assert (Hpaths : forall i k,
            mask_value (bfs_paths st) int64_to_bool i k = true ->
            mask_value (next_paths (bfs_paths st) (bfs_frontier st)) int64_to_bool i k
            = true).
  { intros i k H.
    destruct (Nat.lt_ge_cases i n) as [Hi | Hi], (Nat.lt_ge_cases k m) as [Hk | Hk];
      try (unfold mask_value in H; rewrite HPo in H by lia; discriminate).
    unfold mask_value. rewrite (@get_next_paths n m) by assumption.
    unfold eadd_result.
    destruct (get (bfs_frontier st) i k) as [f |] eqn:Ef.
    - rewrite HFn in H by congruence. discriminate.
    - unfold mask_value in H. destruct (get (bfs_paths st) i k); [exact H | discriminate]. }
  assert (Hnew : forall i k v,
            get (bfs_frontier st) i k = Some v -> int64_to_bool v = true ->
            mask_value (next_paths (bfs_paths st) (bfs_frontier st)) int64_to_bool i k
            = true).
  { intros i k v Ef Hv.
    destruct (Nat.lt_ge_cases i n) as [Hi | Hi], (Nat.lt_ge_cases k m) as [Hk | Hk];
      try (rewrite HFo in Ef by lia; discriminate).
    unfold mask_value. rewrite (@get_next_paths n m) by assumption.
    unfold eadd_result. rewrite Ef.
    assert (Hm : mask_value (bfs_paths st) int64_to_bool i k = false)
      by (apply HFn; congruence).
    apply mask_value_false_iff in Hm.
    destruct Hm as [Hm | [p [Hm Hp]]]; rewrite Hm; [exact Hv |].
    apply int64_to_bool_false in Hp. subst p.
    unfold plus_int64. rewrite Z.add_0_l, wrap64_id by (eapply HFr; eassumption).
    exact Hv. }
  constructor; cbn [bfs_next bfs_paths bfs_frontier bfs_S_array bfs_depth].
  - unfold next_paths. apply table_write_result. exact HPs.
  - unfold next_frontier. apply table_write_result. exact HFs.
  - intros i k v H.
    destruct (Nat.lt_ge_cases i n) as [Hi | Hi], (Nat.lt_ge_cases k m) as [Hk | Hk];
      try (rewrite (@get_next_frontier_out n m) in H by (assumption || lia); discriminate).
    rewrite (@get_next_frontier n m) in H by assumption.
    destruct (mask_value _ _ i k); [discriminate |].
    unfold mxm_result in H. eapply dot_int64_range. exact H.
  - intros i k H.
    destruct (Nat.lt_ge_cases i n) as [Hi | Hi], (Nat.lt_ge_cases k m) as [Hk | Hk];
      try (rewrite (@get_next_frontier_out n m) in H by (assumption || lia); congruence).
    rewrite (@get_next_frontier n m) in H by assumption.
    destruct (mask_value _ _ i k); [congruence | reflexivity].
  - intros d i k H.
    destruct (Nat.lt_ge_cases d (length (bfs_S_array st))) as [Hd | Hd].
    + rewrite S_at_app_old in H by exact Hd. apply Hpaths. eapply HHc. exact H.
    + destruct (Nat.eq_dec d (length (bfs_S_array st))) as [-> | Hne].
      * rewrite S_at_app_new in H.
        destruct (Nat.lt_ge_cases i n) as [Hi | Hi], (Nat.lt_ge_cases k m) as [Hk | Hk];
          try (rewrite get_next_S_out in H by lia; discriminate).
        rewrite get_next_S in H by assumption.
        destruct (get (bfs_frontier st) i k) as [v |] eqn:Ef; [| discriminate].
        cbn in H. inversion H as [Hv]. rewrite Hv. eapply Hnew; eassumption.
      * rewrite S_at_beyond in H; [discriminate |].
        rewrite length_app. cbn. lia.
  - assert (Hfresh : forall d i k,
              d < length (bfs_S_array st) ->
              get (S_at (bfs_S_array st) d) i k = Some true ->
              get (next_S n m (bfs_frontier st)) i k = Some true -> False).
    { intros d i k Hd H1 H2.
      destruct (Nat.lt_ge_cases i n) as [Hi | Hi], (Nat.lt_ge_cases k m) as [Hk | Hk];
        try (rewrite get_next_S_out in H2 by lia; discriminate).
      rewrite get_next_S in H2 by assumption.
      apply HHc in H1.
      destruct (get (bfs_frontier st) i k) as [v |] eqn:Ef; [| discriminate].
      rewrite HFn in H1 by congruence. discriminate. }
    intros i k d1 d2 H1 H2.
    assert (Hb : forall d, get (S_at (bfs_S_array st ++ [next_S n m (bfs_frontier st)]) d) i k
                           = Some true -> d <= length (bfs_S_array st)).
    { intros d H. destruct (Nat.lt_ge_cases (length (bfs_S_array st)) d) as [Hd | Hd]; [| lia].
      rewrite S_at_beyond in H; [discriminate |]. rewrite length_app. cbn. lia. }
    pose proof (Hb _ H1) as Hb1. pose proof (Hb _ H2) as Hb2.
    destruct (Nat.eq_dec d1 (length (bfs_S_array st))) as [E1 | E1],
             (Nat.eq_dec d2 (length (bfs_S_array st))) as [E2 | E2].
    + congruence.
    + subst d1. rewrite S_at_app_new in H1. rewrite S_at_app_old in H2 by lia.
      exfalso. eapply (Hfresh d2); try eassumption. lia.
    + subst d2. rewrite S_at_app_new in H2. rewrite S_at_app_old in H1 by lia.
      exfalso. eapply (Hfresh d1); try eassumption. lia.
    + rewrite S_at_app_old in H1, H2 by lia. eapply HHo; eassumption.
  - cbn [bfs_depth]. rewrite length_app, HHl. reflexivity.
  - cbn [bfs_depth]. intros d Hd.
    destruct (Nat.eq_dec d (length (bfs_S_array st))) as [-> | Hne].
    + rewrite S_at_app_new. unfold next_S. apply shaped_write_result.
      apply shaped_tabulate.
    + rewrite S_at_app_old by lia. apply HHs. lia.
Qed.

(* ================================================================== *)
(** ** The search loop *)
(* ================================================================== *)

Lemma S_at_nil d i k : get (S_at [] d) i k = None.
Proof. apply S_at_beyond. cbn. lia. Qed.

Lemma search_inv_init (A : Matrix Z) (sources : Indices) (num_sources : Z) :
  search_inv (nrows A) (Z.to_nat num_sources) (init_state A sources num_sources).
Proof.
  set (n := nrows A). set (m := Z.to_nat num_sources).
  assert (HF : forall i k,
            get (init_frontier A sources num_sources) i k =
            if (i <? n) && (k <? m)
            then if mask_value (init_paths n sources num_sources) int64_to_bool i k
                 then None
                 else option_map adj_to_int64
                        (transpose_get true A (nth i (seq 0 (ncols A)) 0)
                           (nth k (source_cols A sources num_sources) 0))
            else None).
  { intros i k. unfold init_frontier, write_result.
    cbn [nrows ncols empty_matrix tabulate]. fold n m.
    rewrite get_tabulate.
    destruct ((i <? n) && (k <? m)); [| reflexivity].
    cbn [mask_at option_map mask_scmp desc_tsr_value outp_replace xorb accumulate].
    destruct (mask_value _ _ i k); reflexivity. }
  constructor; cbn [init_state bfs_paths bfs_frontier bfs_S_array bfs_depth].
  - apply table_tabulate.
  - unfold init_frontier. apply table_write_result. apply shaped_tabulate.
  - intros i k v H. rewrite HF in H.
    destruct ((i <? n) && (k <? m)); [| discriminate].
    destruct (mask_value _ _ i k); [discriminate |].
    destruct (transpose_get _ _ _ _) as [a |]; [| discriminate].
    inversion H. apply wrap64_range.
  - intros i k H. rewrite HF in H.
    destruct ((i <? n) && (k <? m)); [| congruence].
    destruct (mask_value _ _ i k); [congruence | reflexivity].
  - intros d i k H. rewrite S_at_nil in H. discriminate.
  - intros i k d1 d2 H. rewrite S_at_nil in H. discriminate.
  - reflexivity.
  - cbn [bfs_depth]. intros d Hd. lia.
Qed.

Lemma bfs_next_shaped (n : nat) (num_sources : Z) (A : Matrix Z) (d : Descriptor) (st : BFS) :
  shaped (bfs_paths st) n (Z.to_nat num_sources) ->
  shaped (bfs_frontier st) n (Z.to_nat num_sources) ->
  shaped (bfs_paths (bfs_next n num_sources A d st)) n (Z.to_nat num_sources) /\
  shaped (bfs_frontier (bfs_next n num_sources A d st)) n (Z.to_nat num_sources).
Proof.
  intros HP HF. split; cbn [bfs_next bfs_paths bfs_frontier].
  - apply shaped_write_result. exact HP.
  - apply shaped_write_result. exact HF.
Qed.

(** A property of the search state that every iteration keeps holds when
    the loop returns. *)
Lemma bfs_loop_keeps (P : BFS -> Prop) (n : nat) (num_sources : Z) (A : Matrix Z) :
  shaped A n n -> 0 < n -> (0 < num_sources)%Z ->
  (forall st, P st ->
     shaped (bfs_paths st) n (Z.to_nat num_sources) /\
     shaped (bfs_frontier st) n (Z.to_nat num_sources)) ->
  (forall st, P st -> P (bfs_next n num_sources A desc_tsr_value st)) ->
  forall slots st w w' st',
    P st ->
    bfs_loop slots n num_sources (Some A) desc_tsr_value st w = (w', Ret st') ->
    P st' /\ bfs_depth st < bfs_depth st'.
Proof.
  intros HA Hn Hns Hsh Hstep.
  induction slots as [| slots IH]; intros st w w' st' HP Hrun.
  - discriminate.
  - cbn [bfs_loop] in Hrun. unfold bind in Hrun.
    destruct (Hsh st HP) as [HPs HFs].
    rewrite (@bfs_body_run n num_sources A st w HA Hn Hns HPs HFs) in Hrun.
    cbn [fst snd] in Hrun.
    destruct (count_entries _ =? 0).
    + inversion Hrun; subst. split; [apply Hstep; exact HP |].
      cbn [bfs_next bfs_depth]. lia.
    + destruct (IH _ _ _ _ (Hstep st HP) Hrun) as [H1 H2].
      split; [exact H1 |]. cbn [bfs_next bfs_depth] in H2. lia.
Qed.

Lemma bfs_step_next (n : nat) (num_sources : Z) (A : Matrix Z) (st st' : BFS) :
  shaped A n n -> 0 < n -> (0 < num_sources)%Z ->
  shaped (bfs_paths st) n (Z.to_nat num_sources) ->
  shaped (bfs_frontier st) n (Z.to_nat num_sources) ->
  bfs_step n num_sources (Some A) desc_tsr_value st st' <->
  st' = bfs_next n num_sources A desc_tsr_value st.
Proof.
  intros HA Hn Hns HPs HFs. split.
  - intros (w & w' & sum & H).
    rewrite (@bfs_body_run n num_sources A st w HA Hn Hns HPs HFs) in H. inversion H. reflexivity.
  - intros ->. exists world0. do 2 eexists.
    apply (@bfs_body_run n num_sources A st world0 HA Hn Hns HPs HFs).
Qed.

Lemma valid_input_shaped (A : Matrix Z) (sources : Indices) (num_sources : Z) :
  valid_input A sources num_sources = true ->
  shaped A (nrows A) (nrows A) /\ 0 < nrows A /\ (0 < num_sources)%Z.
Proof.
  intros H. apply valid_input_spec in H. destruct H as (Hn & Hsq & Hns & _).
  repeat split; assumption.
Qed.

Lemma bc_forward_run (A : Matrix Z) (sources : Indices) (num_sources : Z)
  (w w' : World) (r : nat * Vector FP64 * BFS) :
  valid_input A sources num_sources = true ->
  bc_forward Valid (Some A) sources num_sources w = (w', Ret r) ->
  fst (fst r) = nrows A /\
  snd (fst r) = vtabulate (nrows A) (fun _ => None) /\
  bfs_loop (nrows A) (nrows A) num_sources (Some A) desc_tsr_value
    (init_state A sources num_sources) (setup_world sources w) = (w', Ret (snd r)).
Proof.
  intros Hv Hrun. unfold bc_forward, bind in Hrun.
  rewrite (@bc_setup_run A sources num_sources w Hv) in Hrun.
  destruct (bfs_loop _ _ _ _ _ _ _) as [w1 [st | e |]] eqn:E; try discriminate.
  inversion Hrun; subst. cbn. repeat split; reflexivity.
Qed.

(** The state the search returns satisfies the invariant of the search,
    and at least one iteration was made. *)
Lemma forward_search_inv (A : Matrix Z) (sources : Indices) (num_sources : Z)
  (w w' : World) (st : BFS) :
  valid_input A sources num_sources = true ->
  bfs_loop (nrows A) (nrows A) num_sources (Some A) desc_tsr_value
    (init_state A sources num_sources) (setup_world sources w) = (w', Ret st) ->
  search_inv (nrows A) (Z.to_nat num_sources) st /\ 0 < bfs_depth st.
Proof.
  intros Hv Hloop.
  destruct (valid_input_shaped _ _ _ Hv) as (HA & Hn & Hns).
  destruct (bfs_loop_keeps (search_inv (nrows A) (Z.to_nat num_sources)) _ _ _ HA Hn Hns)
    with (slots := nrows A) (st := init_state A sources num_sources)
         (w := setup_world sources w) (w' := w') (st' := st) as [H1 H2].
  - intros st0 H. split; [apply (inv_paths_table H) | apply (inv_frontier_table H)].
  - intros st0 H. apply search_inv_next. exact H.
  - apply search_inv_init.
  - exact Hloop.
  - split; [exact H1 | lia].
Qed.

(** C2.  In the depth history that the forward phase produces, a pair
    (node, source column) is marked true at one depth at most. *)
Theorem depth_history_single_discovery (A : Matrix Z) (sources : Indices)
  (num_sources : Z) (w w' : World) (n : nat) (c : Vector FP64) (st : BFS) :
  valid_input A sources num_sources = true ->
  bc_forward Valid (Some A) sources num_sources w = (w', Ret (n, c, st)) ->
  forall i k d1 d2,
    get (S_at (bfs_S_array st) d1) i k = Some true ->
    get (S_at (bfs_S_array st) d2) i k = Some true ->
    d1 = d2.
Proof.
  intros Hv Hrun.
  destruct (bc_forward_run _ _ _ _ _ _ Hv Hrun) as (_ & _ & Hloop). cbn [snd] in Hloop.
  destruct (valid_input_shaped _ _ _ Hv) as (HA & Hn & Hns).
  exact (inv_history_once (proj1 (forward_search_inv A sources num_sources w w' st Hv Hloop))).
Qed.

(* ================================================================== *)
(** ** Sums and walks *)
(* ================================================================== *)

Lemma zsum_ext (f g : nat -> Z) (n : nat) :
  (forall i, i < n -> f i = g i) -> zsum f n = zsum g n.
Proof.
  induction n as [| n IH]; intros H; cbn; [reflexivity |].
  rewrite IH by (intros i Hi; apply H; lia). rewrite H by lia. reflexivity.
Qed.

Lemma zsum_nonneg (f : nat -> Z) (n : nat) :
  (forall i, i < n -> (0 <= f i)%Z) -> (0 <= zsum f n)%Z.
Proof.
  induction n as [| n IH]; intros H; cbn; [lia |].
  specialize (IH ltac:(intros i Hi; apply H; lia)).
  specialize (H n ltac:(lia)). lia.
Qed.

Lemma zsum_term_le (f : nat -> Z) (n i : nat) :
  (forall j, j < n -> (0 <= f j)%Z) -> i < n -> (f i <= zsum f n)%Z.
Proof.
  induction n as [| n IH]; intros H Hi; [lia |]. cbn.
  pose proof (zsum_nonneg f n ltac:(intros j Hj; apply H; lia)) as H0.
  pose proof (H n ltac:(lia)) as Hn.
  destruct (Nat.eq_dec i n) as [-> | Hne]; [lia |].
  specialize (IH ltac:(intros j Hj; apply H; lia) ltac:(lia)). lia.
Qed.

Lemma zsum_pos_term (f : nat -> Z) (n : nat) :
  (0 < zsum f n)%Z -> exists i, i < n /\ (f i <> 0)%Z.
Proof.
  induction n as [| n IH]; cbn; intros H; [lia |].
  destruct (Z.eq_dec (f n) 0) as [E | E].
  - rewrite E, Z.add_0_r in H. destruct (IH H) as [i [Hi Hf]].
    exists i. split; [lia | exact Hf].
  - exists n. split; [lia | exact E].
Qed.

Lemma zsum_zero (f : nat -> Z) (n : nat) :
  (forall i, i < n -> f i = 0%Z) -> zsum f n = 0%Z.
Proof.
  induction n as [| n IH]; intros H; cbn; [reflexivity |].
  rewrite IH by (intros i Hi; apply H; lia). rewrite H by lia. reflexivity.
Qed.

Lemma zsum_single (g : nat -> Z) (s n : nat) :
  zsum (fun u => if s =? u then g u else 0%Z) n = if s <? n then g s else 0%Z.
Proof.
  induction n as [| n IH]; cbn [zsum]; [reflexivity |].
  rewrite IH.
  destruct (Nat.eqb_spec s n) as [-> | Hne].
  - rewrite Nat.ltb_irrefl.
    assert (E : (n <? S n) = true) by (apply Nat.ltb_lt; lia). rewrite E. lia.
  - destruct (Nat.ltb_spec s n), (Nat.ltb_spec s (S n)); lia.
Qed.

Lemma length_walk_row (A : Matrix Z) (l s : nat) : length (walk_row A l s) = nrows A.
Proof. destruct l; cbn; rewrite length_map, length_seq; reflexivity. Qed.

Lemma walks_out (A : Matrix Z) (l s t : nat) : nrows A <= t -> walks A l s t = 0%Z.
Proof.
  intros H. unfold walks. apply nth_overflow. rewrite length_walk_row. exact H.
Qed.

Lemma walks_0 (A : Matrix Z) (s t : nat) :
  t < nrows A -> walks A 0 s t = if s =? t then 1%Z else 0%Z.
Proof. intros H. unfold walks. cbn. apply nth_map_seq. exact H. Qed.

Lemma walks_S (A : Matrix Z) (l s t : nat) :
  t < nrows A ->
  walks A (S l) s t =
  zsum (fun u => (walks A l s u * (if edge A u t then 1 else 0))%Z) (nrows A).
Proof.
  intros H. unfold walks at 1. cbn [walk_row].
  rewrite nth_map_seq by exact H. reflexivity.
Qed.

Lemma walks_nonneg (A : Matrix Z) (l s t : nat) : (0 <= walks A l s t)%Z.
Proof.
  revert t. induction l as [| l IH]; intros t.
  - destruct (Nat.lt_ge_cases t (nrows A)) as [Ht | Ht].
    + rewrite walks_0 by exact Ht. destruct (s =? t); lia.
    + rewrite walks_out by exact Ht. lia.
  - destruct (Nat.lt_ge_cases t (nrows A)) as [Ht | Ht].
    + rewrite walks_S by exact Ht. apply zsum_nonneg. intros u _.
      specialize (IH u). destruct (edge A u t); lia.
    + rewrite walks_out by exact Ht. lia.
Qed.

(** A walk that reaches [u] extends along an edge from [u] to [t]. *)
Lemma walks_extend (A : Matrix Z) (l s u t : nat) :
  u < nrows A -> t < nrows A -> edge A u t = true ->
  (walks A l s u <= walks A (S l) s t)%Z.
Proof.
  intros Hu Ht He. rewrite walks_S by exact Ht.
  pose proof (zsum_term_le
    (fun u => (walks A l s u * (if edge A u t then 1 else 0))%Z) (nrows A) u) as H.
  cbn beta in H. rewrite He in H. rewrite Z.mul_1_r in H. apply H; [| exact Hu].
  intros j _. pose proof (walks_nonneg A l s j). destruct (edge A j t); lia.
Qed.

(** A walk of positive length ends with an edge. *)
Lemma walks_last_edge (A : Matrix Z) (l s t : nat) :
  (0 < walks A (S l) s t)%Z ->
  exists u, u < nrows A /\ edge A u t = true /\ (0 < walks A l s u)%Z.
Proof.
  intros H.
  assert (Ht : t < nrows A).
  { destruct (Nat.lt_ge_cases t (nrows A)) as [Ht | Ht]; [exact Ht |].
    rewrite walks_out in H by exact Ht. lia. }
  rewrite walks_S in H by exact Ht.
  apply zsum_pos_term in H. destruct H as [u [Hu Hne]].
  exists u. split; [exact Hu |].
  pose proof (walks_nonneg A l s u).
  destruct (edge A u t); [split; [reflexivity | lia] | lia].
Qed.

Lemma find_snoc {V} (p : V -> bool) (l : list V) (x : V) :
  find p (l ++ [x]) =
  match find p l with
  | Some y => Some y
  | None => if p x then Some x else None
  end.
Proof.
  induction l as [| a l IH]; cbn; [reflexivity |].
  destruct (p a); [reflexivity | exact IH].
Qed.

Lemma find_seq_S (p : nat -> bool) (n : nat) :
  find p (seq 0 (S n)) =
  match find p (seq 0 n) with
  | Some y => Some y
  | None => if p n then Some n else None
  end.
Proof. rewrite seq_S. apply find_snoc. Qed.

Lemma find_seq_spec (p : nat -> bool) (n : nat) :
  match find p (seq 0 n) with
  | Some l => l < n /\ p l = true /\ forall l', l' < l -> p l' = false
  | None => forall l, l < n -> p l = false
  end.
Proof.
  induction n as [| n IH].
  - cbn. intros l Hl. lia.
  - rewrite find_seq_S. destruct (find p (seq 0 n)) as [l |].
    + destruct IH as (H1 & H2 & H3). repeat split; [lia | exact H2 | exact H3].
    + destruct (p n) eqn:E.
      * repeat split; [lia | exact E | exact IH].
      * intros l Hl. destruct (Nat.eq_dec l n) as [-> | Hne]; [exact E | apply IH; lia].
Qed.

Lemma find_seq_first (p : nat -> bool) (n l : nat) :
  l < n -> p l = true -> (forall l', l' < l -> p l' = false) ->
  find p (seq 0 n) = Some l.
Proof.
  intros Hl Hp Hfirst. pose proof (find_seq_spec p n) as H.
  destruct (find p (seq 0 n)) as [l0 |].
  - destruct H as (H1 & H2 & H3). f_equal.
    destruct (Nat.lt_trichotomy l0 l) as [Hlt | [-> | Hgt]]; [| reflexivity |].
    + rewrite Hfirst in H2 by exact Hlt. discriminate.
    + rewrite H3 in Hp by exact Hgt. discriminate.
  - rewrite H in Hp by exact Hl. discriminate.
Qed.

Lemma level_some (A : Matrix Z) (s t d l : nat) :
  level A s t d = Some l ->
  l <= d /\ (0 < walks A l s t)%Z /\ forall l', l' < l -> walks A l' s t = 0%Z.
Proof.
  unfold level. intros H.
  pose proof (find_seq_spec (fun l => (0 <? walks A l s t)%Z) (S d)) as Hs.
  rewrite H in Hs. destruct Hs as (H1 & H2 & H3).
  repeat split; [lia | apply Z.ltb_lt; exact H2 |].
  intros l' Hl'. specialize (H3 l' Hl'). apply Z.ltb_ge in H3.
  pose proof (walks_nonneg A l' s t). lia.
Qed.

Lemma level_none (A : Matrix Z) (s t d : nat) :
  level A s t d = None -> forall l, l <= d -> walks A l s t = 0%Z.
Proof.
  unfold level. intros H l Hl.
  pose proof (find_seq_spec (fun l => (0 <? walks A l s t)%Z) (S d)) as Hs.
  rewrite H in Hs. specialize (Hs l ltac:(lia)). apply Z.ltb_ge in Hs.
  pose proof (walks_nonneg A l s t). lia.
Qed.

Lemma level_first (A : Matrix Z) (s t d l : nat) :
  l <= d -> (0 < walks A l s t)%Z -> (forall l', l' < l -> walks A l' s t = 0%Z) ->
  level A s t d = Some l.
Proof.
  intros Hl Hw Hfirst. unfold level. apply find_seq_first.
  - lia.
  - apply Z.ltb_lt. exact Hw.
  - intros l' Hl'. apply Z.ltb_ge. rewrite Hfirst by exact Hl'. lia.
Qed.

Lemma level_S (A : Matrix Z) (s t d : nat) :
  level A s t (S d) =
  match level A s t d with
  | Some l => Some l
  | None => if (0 <? walks A (S d) s t)%Z then Some (S d) else None
  end.
Proof. unfold level. apply find_seq_S. Qed.

Lemma level_mono (A : Matrix Z) (s t d d' l : nat) :
  level A s t d = Some l -> d <= d' -> level A s t d' = Some l.
Proof.
  intros H Hd. apply level_some in H. destruct H as (H1 & H2 & H3).
  apply level_first; [lia | exact H2 | exact H3].
Qed.

Lemma level_0 (A : Matrix Z) (s t : nat) :
  t < nrows A -> level A s t 0 = if s =? t then Some 0 else None.
Proof.
  intros Ht. unfold level. cbn [seq find]. rewrite walks_0 by exact Ht.
  destruct (s =? t); reflexivity.
Qed.

Lemma level_lt_rows (A : Matrix Z) (s t d l : nat) :
  level A s t d = Some l -> t < nrows A.
Proof.
  intros H. apply level_some in H. destruct H as (_ & H & _).
  destruct (Nat.lt_ge_cases t (nrows A)) as [Ht | Ht]; [exact Ht |].
  rewrite walks_out in H by exact Ht. lia.
Qed.

(** A node first reached at length [S l] has a predecessor first reached
    at length [l]. *)
Lemma level_pred (A : Matrix Z) (s t l : nat) :
  level A s t (S l) = Some (S l) ->
  exists u, u < nrows A /\ edge A u t = true /\ level A s u l = Some l.
Proof.
  intros H. pose proof (level_lt_rows _ _ _ _ _ H) as Ht.
  apply level_some in H. destruct H as (_ & Hw & Hfirst).
  destruct (walks_last_edge _ _ _ _ Hw) as (u & Hu & He & Hwu).
  exists u. repeat split; [exact Hu | exact He |].
  apply level_first; [lia | exact Hwu |].
  intros l' Hl'.
  pose proof (walks_extend A l' s u t Hu Ht He) as Hext.
  rewrite (Hfirst (S l')) in Hext by lia.
  pose proof (walks_nonneg A l' s u). lia.
Qed.

(** The nodes on a shortest walk are distinct: a node first reached at
    length [l] comes with [l + 1] nodes, so [l] is below the number of
    nodes. *)
Lemma level_chain (A : Matrix Z) (s : nat) (l : nat) :
  forall t, level A s t l = Some l ->
  exists L : list nat,
    length L = S l /\ NoDup L /\
    forall x, In x L -> x < nrows A /\ exists j, j <= l /\ level A s x j = Some j.
Proof.
  induction l as [| l IH]; intros t H.
  - exists [t]. repeat split.
    + constructor; [intros [] | constructor].
    + destruct H0 as [<- | []]. eapply level_lt_rows. exact H.
    + destruct H0 as [<- | []]. exists 0. split; [lia | exact H].
  - destruct (level_pred _ _ _ _ H) as (u & Hu & He & Hlu).
    destruct (IH u Hlu) as (L & Hlen & Hnd & HL).
    exists (t :: L). repeat split.
    + cbn. rewrite Hlen. reflexivity.
    + constructor; [| exact Hnd].
      intros Hin. destruct (HL t Hin) as (_ & j & Hj & Hlj).
      apply (level_mono _ _ _ _ (S l)) in Hlj; [| lia].
      rewrite H in Hlj. inversion Hlj. lia.
    + destruct H0 as [<- | Hin]; [eapply level_lt_rows; exact H | apply HL; exact Hin].
    + destruct H0 as [<- | Hin].
      * exists (S l). split; [lia | exact H].
      * destruct (HL x Hin) as (_ & j & Hj & Hlj). exists j. split; [lia | exact Hlj].
Qed.

Lemma level_below_rows (A : Matrix Z) (s t l : nat) :
  level A s t l = Some l -> l < nrows A.
Proof.
  intros H. destruct (level_chain _ _ _ _ H) as (L & Hlen & Hnd & HL).
  assert (Hincl : incl L (seq 0 (nrows A))).
  { intros x Hx. apply in_seq. destruct (HL x Hx) as [Hlt _]. lia. }
  pose proof (NoDup_incl_length Hnd Hincl) as Hle.
  rewrite length_seq, Hlen in Hle. lia.
Qed.

Lemma level_self (A : Matrix Z) (s t d l : nat) :
  level A s t d = Some l -> level A s t l = Some l.
Proof.
  intros H. apply level_some in H. destruct H as (H1 & H2 & H3).
  apply level_first; [lia | exact H2 | exact H3].
Qed.

(** The level of a node, whatever the bound, is its distance. *)
Lemma level_dist (A : Matrix Z) (s t d l : nat) :
  level A s t d = Some l -> dist A s t = Some l.
Proof.
  intros H. apply level_self in H. pose proof (level_below_rows _ _ _ _ H) as Hl.
  apply level_some in H. destruct H as (_ & H2 & H3).
  unfold dist. apply find_seq_first.
  - exact Hl.
  - apply Z.ltb_lt. exact H2.
  - intros l' Hl'. apply Z.ltb_ge. rewrite H3 by exact Hl'. lia.
Qed.

Lemma level_sigma (A : Matrix Z) (s t d l : nat) :
  level A s t d = Some l -> sigma A s t = walks A l s t.
Proof. intros H. unfold sigma. rewrite (level_dist _ _ _ _ _ H). reflexivity. Qed.

(* ================================================================== *)
(** ** Arithmetic of 64 bit integers *)
(* ================================================================== *)

Lemma wrap64_add_l (a b : Z) : wrap64 (wrap64 a + b) = wrap64 (a + b).
Proof.
  unfold wrap64. f_equal.
  replace ((a + 2 ^ 63) mod 2 ^ 64 - 2 ^ 63 + b + 2 ^ 63)%Z
    with ((a + 2 ^ 63) mod 2 ^ 64 + b)%Z by lia.
  rewrite Zplus_mod_idemp_l. f_equal. lia.
Qed.

Lemma wrap64_add_r (a b : Z) : wrap64 (a + wrap64 b) = wrap64 (a + b).
Proof. rewrite Z.add_comm, wrap64_add_l, Z.add_comm. reflexivity. Qed.

Lemma wrap64_mul_l (a b : Z) : wrap64 (wrap64 a * b) = wrap64 (a * b).
Proof.
  unfold wrap64. f_equal.
  pose proof (Z.div_mod (a + 2 ^ 63) (2 ^ 64) ltac:(lia)) as H.
  replace (((a + 2 ^ 63) mod 2 ^ 64 - 2 ^ 63) * b + 2 ^ 63)%Z
    with (a * b + 2 ^ 63 + (- ((a + 2 ^ 63) / 2 ^ 64) * b) * 2 ^ 64)%Z by lia.
  apply Z_mod_plus_full.
Qed.

Lemma dot_int64_value a b (m : nat) v :
  dot plus_int64 (fun x f => times_int64 (adj_to_int64 x) f) a b m = Some v ->
  v = wrap64 (zsum (fun k => match a k, b k with
                             | Some x, Some y => (x * y)%Z
                             | _, _ => 0%Z
                             end) m).
Proof.
  revert v. induction m as [| m IH]; intros v; [discriminate |].
  rewrite dot_S. cbn [zsum].
  destruct (a m) as [x |], (b m) as [y |];
    try (rewrite Z.add_0_r; exact (IH v)).
  intros H. inversion H as [Hv]. clear H Hv.
  unfold plus_int64, times_int64, adj_to_int64.
  destruct (dot _ _ a b m) as [s |] eqn:E.
  - rewrite (IH s eq_refl). rewrite wrap64_add_l, wrap64_add_r.
    rewrite <- wrap64_add_r, wrap64_mul_l, wrap64_add_r. reflexivity.
  - assert (Hz : zsum (fun k => match a k, b k with
                               | Some x, Some y => (x * y)%Z
                               | _, _ => 0%Z
                               end) m = 0%Z).
    { apply zsum_zero. intros k Hk.
      destruct (proj1 (dot_none_iff _ _ a b m) E k Hk) as [-> | ->];
        [reflexivity | destruct (a k); reflexivity]. }
    rewrite Hz, Z.add_0_l, wrap64_mul_l. reflexivity.
Qed.

Lemma unit_valued_spec (A : Matrix Z) (i j : nat) (v : Z) :
  unit_valued A = true -> i < nrows A -> j < ncols A ->
  get A i j = Some v -> v = 1%Z.
Proof.
  unfold unit_valued. intros H Hi Hj Hg.
  rewrite forallb_forall in H. specialize (H i ltac:(apply in_seq; lia)).
  rewrite forallb_forall in H. specialize (H j ltac:(apply in_seq; lia)).
  rewrite Hg in H. apply Z.eqb_eq. exact H.
Qed.

Lemma no_overflow_spec (A : Matrix Z) (sources : Indices) (num_sources : Z) (k i : nat) :
  no_overflow A sources num_sources = true ->
  k < Z.to_nat num_sources -> i < nrows A ->
  (sigma A (source_of sources k) i < 2 ^ 63)%Z.
Proof.
  unfold no_overflow. intros H Hk Hi.
  rewrite forallb_forall in H. specialize (H k ltac:(apply in_seq; lia)).
  rewrite forallb_forall in H. specialize (H i ltac:(apply in_seq; lia)).
  apply Z.ltb_lt. exact H.
Qed.

(* ================================================================== *)
(** ** The search counts shortest walks *)
(* ================================================================== *)

Lemma build_entry_tuples (f : nat -> nat) (m i k : nat) :
  build_entry plus_int64 (map (fun j => (f j, j, 1%Z)) (seq 0 m)) i k =
  if (k <? m) && (f k =? i) then Some 1%Z else None.
Proof.
  induction m as [| m IH].
  - reflexivity.
  - rewrite seq_S, map_app. unfold build_entry in *. rewrite fold_left_app, IH.
    cbn [map fold_left Nat.add].
    destruct (Nat.eqb_spec m k) as [-> | Hne].
    + rewrite Nat.ltb_irrefl. cbn [andb].
      assert (E : (k <? S k) = true) by (apply Nat.ltb_lt; lia).
      rewrite E, andb_true_r. cbn [andb]. reflexivity.
    + rewrite andb_false_r.
      destruct (Nat.ltb_spec k m), (Nat.ltb_spec k (S m)); try lia; reflexivity.
Qed.

Lemma combine_tuples (rows : list nat) (m : nat) :
  m <= length rows ->
  combine (combine (firstn m rows) (firstn m (seq 0 m))) (firstn m (repeat 1%Z m)) =
  map (fun j => (nth j rows 0, j, 1%Z)) (seq 0 m).
Proof.
  intros Hm.
  rewrite (firstn_all2 (seq 0 m)) by (rewrite length_seq; lia).
  rewrite (firstn_all2 (repeat 1%Z m)) by (rewrite repeat_length; lia).
  apply nth_ext with (d := (0, 0, 0%Z)) (d' := (0, 0, 0%Z)).
  - rewrite !length_combine, length_map, length_firstn, length_seq, repeat_length. lia.
  - intros j Hj.
    rewrite !length_combine, length_firstn, length_seq, repeat_length in Hj.
    rewrite !combine_nth.
    + rewrite nth_firstn, seq_nth by lia.
      assert (E : (j <? m) = true) by (apply Nat.ltb_lt; lia). rewrite E.
      rewrite (nth_indep _ _ (nth 0 rows 0, 0, 1%Z))
        by (rewrite length_map, length_seq; lia).
      rewrite (map_nth (fun j => (nth j rows 0, j, 1%Z)) (seq 0 m) 0 j).
      rewrite seq_nth by lia. cbn [Nat.add].
      f_equal. apply nth_repeat_lt. lia.
    + rewrite length_firstn, length_seq. lia.
    + rewrite length_combine, length_firstn, length_seq, repeat_length. lia.
Qed.

Lemma source_rows_nth (A : Matrix Z) (sources : Indices) (num_sources : Z) (k : nat) :
  valid_input A sources num_sources = true -> k < Z.to_nat num_sources ->
  nth k (source_rows (nrows A) sources) 0 = source_of sources k.
Proof.
  intros Hv Hk. apply valid_input_spec in Hv. destruct Hv as (_ & _ & _ & Hs).
  destruct sources as [| l]; cbn; [| reflexivity].
  apply seq_nth. lia.
Qed.

Lemma source_cols_nth (A : Matrix Z) (sources : Indices) (num_sources : Z) (k : nat) :
  valid_input A sources num_sources = true -> k < Z.to_nat num_sources ->
  nth k (source_cols A sources num_sources) 0 = source_of sources k.
Proof.
  intros Hv Hk. apply valid_input_spec in Hv. destruct Hv as (_ & _ & _ & Hs).
  destruct sources as [| l]; cbn.
  - apply seq_nth. lia.
  - rewrite nth_firstn. apply Nat.ltb_lt in Hk. rewrite Hk. reflexivity.
Qed.

(** The path counts of the set-up: a one in the row of each source. *)
Lemma get_init_paths (A : Matrix Z) (sources : Indices) (num_sources : Z) (i k : nat) :
  valid_input A sources num_sources = true ->
  i < nrows A -> k < Z.to_nat num_sources ->
  get (init_paths (nrows A) sources num_sources) i k =
  if source_of sources k =? i then Some 1%Z else None.
Proof.
  intros Hv Hi Hk. unfold init_paths. cbn zeta.
  rewrite get_tabulate_in by assumption.
  rewrite combine_tuples.
  - rewrite build_entry_tuples.
    apply Nat.ltb_lt in Hk. rewrite Hk. cbn [andb].
    apply Nat.ltb_lt in Hk. rewrite (source_rows_nth _ _ _ _ Hv Hk). reflexivity.
  - apply valid_input_spec in Hv. destruct Hv as (_ & _ & _ & Hs).
    destruct sources as [| l]; cbn.
    + rewrite length_seq. lia.
    + apply Hs.
Qed.

(** The frontier of the set-up: the entries of the adjacency matrix on the
    rows of the sources, except on the sources themselves. *)
Lemma get_init_frontier (A : Matrix Z) (sources : Indices) (num_sources : Z) (i k : nat) :
  valid_input A sources num_sources = true ->
  i < nrows A -> k < Z.to_nat num_sources ->
  get (init_frontier A sources num_sources) i k =
  if source_of sources k =? i then None
  else option_map adj_to_int64 (get A (source_of sources k) i).
Proof.
  intros Hv Hi Hk. unfold init_frontier. cbn zeta.
  rewrite (@get_write_result _ _ _ _ _ _ (nrows A) (Z.to_nat num_sources))
    by (assumption || apply shaped_tabulate).
  cbn [mask_at option_map mask_scmp desc_tsr_value outp_replace xorb accumulate].
  unfold mask_value at 1. rewrite (get_init_paths _ _ _ _ _ Hv Hi Hk).
  pose proof (valid_input_spec _ _ _ Hv) as (_ & Hsq & _ & _).
  destruct (source_of sources k =? i); cbn [int64_to_bool Z.eqb negb xorb].
  - reflexivity.
  - unfold transpose_get. rewrite seq_nth by lia.
    rewrite (source_cols_nth _ _ _ _ Hv Hk). reflexivity.
Qed.

Section ForwardCounts.

Variables (A : Matrix Z) (sources : Indices) (num_sources : Z).
Hypothesis Hvalid : valid_input A sources num_sources = true.
Hypothesis Hunit : unit_valued A = true.
Hypothesis Hno : no_overflow A sources num_sources = true.

Local Abbreviation n := (nrows A).
Local Abbreviation m := (Z.to_nat num_sources).
Local Abbreviation src := (source_of sources).

Lemma walks_level_range (k i d l : nat) :
  k < m -> i < n -> level A (src k) i d = Some l ->
  in_int64 (walks A l (src k) i).
Proof.
  intros Hk Hi H. pose proof (level_sigma _ _ _ _ _ H) as Hs.
  pose proof (no_overflow_spec _ _ _ _ _ Hno Hk Hi) as Hb.
  rewrite Hs in Hb.
  pose proof (walks_nonneg A l (src k) i). unfold in_int64. lia.
Qed.

Lemma edge_unit (u i : nat) (x : Z) :
  u < n -> i < n -> get A u i = Some x -> x = 1%Z /\ edge A u i = true.
Proof.
  intros Hu Hi H. pose proof (valid_input_spec _ _ _ Hvalid) as (_ & Hsq & _ & _).
  split.
  - apply (unit_valued_spec A u i x Hunit Hu ltac:(lia) H).
  - unfold edge. rewrite H. reflexivity.
Qed.

Lemma counts_walks_init : counts_walks A sources m (init_state A sources num_sources).
Proof.
  pose proof (valid_input_spec _ _ _ Hvalid) as (Hn & Hsq & Hns & Hs).
  constructor; cbn [init_state bfs_paths bfs_frontier bfs_S_array bfs_depth].
  - apply table_tabulate.
  - unfold init_frontier. apply table_write_result. apply shaped_tabulate.
  - reflexivity.
  - intros i k Hi Hk. rewrite (get_init_paths _ _ _ _ _ Hvalid Hi Hk).
    rewrite level_0 by exact Hi.
    destruct (Nat.eqb_spec (src k) i) as [E | E]; [| reflexivity].
    cbn [option_map]. rewrite walks_0 by exact Hi.
    apply Nat.eqb_eq in E. rewrite E. reflexivity.
  - intros i k Hi Hk. rewrite (get_init_frontier _ _ _ _ _ Hvalid Hi Hk).
    rewrite level_S, level_0 by exact Hi.
    assert (Hsk : src k < n) by (apply (source_of_lt _ _ _ _ Hvalid Hk)).
    assert (Hw : walks A 1 (src k) i = if edge A (src k) i then 1%Z else 0%Z).
    { rewrite walks_S by exact Hi.
      rewrite (zsum_ext _
        (fun u => if src k =? u then (if edge A u i then 1%Z else 0%Z) else 0%Z)).
      - rewrite zsum_single. apply Nat.ltb_lt in Hsk. rewrite Hsk. reflexivity.
      - intros u Hu. rewrite walks_0 by exact Hu.
        destruct (src k =? u); lia. }
    destruct (Nat.eqb_spec (src k) i) as [E | E]; [reflexivity |].
    rewrite Hw. unfold edge.
    destruct (get A (src k) i) as [x |] eqn:Eg; cbn [is_some option_map].
    + destruct (edge_unit _ _ _ Hsk Hi Eg) as [-> _]. reflexivity.
    + reflexivity.
  - intros j i k Hj. lia.
Qed.

Lemma counts_walks_next (st : BFS) :
  counts_walks A sources m st ->
  counts_walks A sources m (bfs_next n num_sources A desc_tsr_value st).
Proof.
  intros [HPt HFt Hlen HP HF HS].
  pose proof (valid_input_spec _ _ _ Hvalid) as (Hn & Hsq & Hns & Hs).
  set (d := bfs_depth st) in *.
  assert (HP' : forall i k, i < n -> k < m ->
            get (next_paths (bfs_paths st) (bfs_frontier st)) i k =
            option_map (fun l => walks A l (src k) i) (level A (src k) i (S d))).
  { intros i k Hi Hk.
    rewrite (@get_next_paths n m) by (assumption || apply HPt).
    unfold eadd_result. rewrite (HP i k Hi Hk), (HF i k Hi Hk).
    rewrite level_S.
    destruct (level A (src k) i d) as [l |] eqn:El; cbn [option_map at_level].
    - apply level_some in El. destruct El as (Hl & _ & _).
      destruct (Nat.eqb_spec l (S d)); [lia | reflexivity].
    - destruct (0 <? walks A (S d) (src k) i)%Z; cbn [at_level option_map].
      + rewrite Nat.eqb_refl. reflexivity.
      + reflexivity. }
  constructor; cbn [bfs_next bfs_paths bfs_frontier bfs_S_array bfs_depth]; fold d.
  - unfold next_paths. apply table_write_result. apply HPt.
  - unfold next_frontier. apply table_write_result. apply HFt.
  - rewrite length_app, Hlen. reflexivity.
  - intros i k Hi Hk. rewrite Nat.add_1_r. apply HP'; assumption.
  - intros i k Hi Hk. rewrite Nat.add_1_r.
    rewrite (@get_next_frontier n m) by (assumption || apply HFt).
    unfold mask_value. rewrite (HP' i k Hi Hk).
    rewrite (level_S A (src k) i (S d)).
    destruct (level A (src k) i (S d)) as [l |] eqn:El; cbn [option_map at_level].
    + pose proof (level_some _ _ _ _ _ El) as (Hl & Hw & _).
      assert (Eb : int64_to_bool (walks A l (src k) i) = true).
      { unfold int64_to_bool. apply negb_true_iff. apply Z.eqb_neq. lia. }
      rewrite Eb. destruct (Nat.eqb_spec l (S (S d))); [lia | reflexivity].
    + (* the node is not within distance [S d] *)
      assert (Hterm : forall u, u < n ->
                match get A u i, get (bfs_frontier st) u k with
                | Some x, Some y => (x * y)%Z
                | _, _ => 0%Z
                end = (walks A (S d) (src k) u * (if edge A u i then 1 else 0))%Z).
      { intros u Hu. rewrite (HF u k Hu Hk). unfold edge.
        destruct (get A u i) as [x |] eqn:Ex; cbn [is_some]; [| lia].
        destruct (edge_unit _ _ _ Hu Hi Ex) as [-> Hedge].
        destruct (level A (src k) u (S d)) as [l |] eqn:Elu; cbn [at_level].
        - destruct (Nat.eqb_spec l (S d)) as [-> | Hne]; [lia |].
          exfalso. pose proof (level_some _ _ _ _ _ Elu) as (Hl & Hw & _).
          pose proof (walks_extend A l (src k) u i Hu Hi Hedge) as Hext.
          rewrite (level_none _ _ _ _ El (S l)) in Hext by lia. lia.
        - rewrite (level_none _ _ _ _ Elu (S d)) by lia. lia. }
      unfold mxm_result, transpose_get. cbn [in_cols].
      set (W := walks A (S (S d)) (src k) i).
      assert (HW : W = zsum (fun u => match get A u i, get (bfs_frontier st) u k with
                                      | Some x, Some y => (x * y)%Z
                                      | _, _ => 0%Z
                                      end) n).
      { unfold W. rewrite walks_S by exact Hi. symmetry.
        apply zsum_ext. exact Hterm. }
      destruct (dot _ _ _ _ n) as [v |] eqn:Edot.
      * pose proof (dot_int64_value _ _ _ _ Edot) as Hval.
        cbv beta in Hval. rewrite <- HW in Hval. subst v.
        destruct (Z.ltb_spec 0 W) as [Hpos | Hzero].
        -- cbn [at_level]. rewrite Nat.eqb_refl. f_equal.
           apply wrap64_id.
           apply (walks_level_range k i (S (S d)) (S (S d)) Hk Hi).
           rewrite level_S, El. fold W.
           apply Z.ltb_lt in Hpos. rewrite Hpos. reflexivity.
        -- exfalso.
           assert (Hnone : dot plus_int64 (fun x f => times_int64 (adj_to_int64 x) f)
                             (fun u => get A u i) (fun u => get (bfs_frontier st) u k) n
                           = None).
           { apply dot_none_iff. intros u Hu.
             destruct (get A u i) as [x |] eqn:Ex; [| left; reflexivity].
             right. rewrite (HF u k Hu Hk).
             destruct (edge_unit _ _ _ Hu Hi Ex) as [-> Hedge].
             destruct (level A (src k) u (S d)) as [l |] eqn:Elu; cbn [at_level];
               [| reflexivity].
             destruct (Nat.eqb_spec l (S d)) as [-> | Hne]; [| reflexivity].
             exfalso. pose proof (level_some _ _ _ _ _ Elu) as (_ & Hw & _).
             pose proof (walks_extend A (S d) (src k) u i Hu Hi Hedge) as Hext.
             fold W in Hext. lia. }
           pose proof (eq_trans (eq_sym Edot) Hnone) as Hc. discriminate Hc.
      * assert (HW0 : W = 0%Z).
        { rewrite HW. apply zsum_zero. intros u Hu.
          destruct (proj1 (dot_none_iff _ _ _ _ n) Edot u Hu) as [E | E];
            rewrite E; [reflexivity | destruct (get A u i); reflexivity]. }
        rewrite HW0. reflexivity.
  - intros j i k Hj Hi Hk.
    destruct (Nat.eq_dec j d) as [-> | Hne].
    + rewrite <- Hlen, S_at_app_new. rewrite Hlen.
      rewrite get_next_S by assumption.
      rewrite (HF i k Hi Hk).
      destruct (level A (src k) i (S d)) as [l |] eqn:El; cbn [at_level option_map];
        [| reflexivity].
      destruct (Nat.eqb_spec l (S d)) as [-> | Hne]; [| reflexivity].
      cbn [option_map]. f_equal.
      pose proof (level_some _ _ _ _ _ El) as (_ & Hw & _).
      unfold int64_to_bool. apply negb_true_iff. apply Z.eqb_neq. lia.
    + rewrite S_at_app_old by lia. apply HS; [lia | assumption | assumption].
Qed.

End ForwardCounts.

(* ================================================================== *)
(** ** Termination of the search *)
(* ================================================================== *)

Lemma count_entries_write_result_0 {V} (C : Matrix V) mask accum d T n m :
  shaped C n m ->
  count_entries (write_result C mask accum d T) = 0 <->
  forall i j, i < n -> j < m -> get (write_result C mask accum d T) i j = None.
Proof.
  intros [H1 H2]. unfold write_result. rewrite H1, H2.
  rewrite count_entries_tabulate_0. split; intros H i j Hi Hj.
  - rewrite get_tabulate_in by assumption. apply H; assumption.
  - specialize (H i j Hi Hj). rewrite get_tabulate_in in H by assumption. exact H.
Qed.

Section ForwardTermination.

Variables (A : Matrix Z) (sources : Indices) (num_sources : Z).
Hypothesis Hvalid : valid_input A sources num_sources = true.
Hypothesis Hunit : unit_valued A = true.
Hypothesis Hno : no_overflow A sources num_sources = true.

Local Abbreviation n := (nrows A).
Local Abbreviation m := (Z.to_nat num_sources).

Lemma frontier_present_depth (st : BFS) (i k : nat) :
  counts_walks A sources m st -> i < n -> k < m ->
  get (bfs_frontier st) i k <> None -> S (bfs_depth st) < n.
Proof.
  intros Hcw Hi Hk H. rewrite (cw_frontier Hcw Hi Hk) in H.
  destruct (level A (source_of sources k) i (S (bfs_depth st))) as [l |] eqn:El;
    cbn [at_level] in H; [| congruence].
  destruct (Nat.eqb_spec l (S (bfs_depth st))) as [-> | Hne]; [| congruence].
  eapply level_below_rows. exact El.
Qed.

Lemma bfs_loop_terminates (slots : nat) :
  forall (st : BFS) (w : World),
    counts_walks A sources m st ->
    1 <= slots -> n <= bfs_depth st + slots + 1 ->
    exists w' st',
      bfs_loop slots n num_sources (Some A) desc_tsr_value st w = (w', Ret st') /\
      counts_walks A sources m st' /\
      bfs_depth st < bfs_depth st' /\
      bfs_depth st' <= Nat.max (bfs_depth st + 1) (n - 1) /\
      count_entries (bfs_frontier st') = 0.
Proof.
  pose proof (valid_input_shaped _ _ _ Hvalid) as (HA & Hn & Hns).
  induction slots as [| slots IH]; intros st w Hcw Hslots Hbound; [lia |].
  cbn [bfs_loop]. unfold bind.
  rewrite (@bfs_body_run n num_sources A st w HA Hn Hns
             (proj1 (cw_paths_table Hcw)) (proj1 (cw_frontier_table Hcw))).
  cbn [fst snd].
  pose proof (counts_walks_next A sources num_sources Hvalid Hunit Hno st Hcw) as Hcw'.
  set (st1 := bfs_next n num_sources A desc_tsr_value st) in *.
  assert (Hd1 : bfs_depth st1 = bfs_depth st + 1) by reflexivity.
  destruct (Nat.eqb_spec (count_entries (bfs_frontier st1)) 0) as [E | E].
  - do 2 eexists. split; [reflexivity |].
    split; [exact Hcw' | split; [lia | split; [lia | exact E]]].
  - assert (Hlate : S (bfs_depth st1) < n).
    { destruct (Nat.lt_ge_cases (S (bfs_depth st1)) n) as [Hlt | Hge]; [exact Hlt |].
      exfalso. apply E. unfold st1 at 1. cbn [bfs_next bfs_frontier].
      unfold next_frontier.
      apply (count_entries_write_result_0 _ _ _ _ _ n m
               (proj1 (cw_frontier_table Hcw))).
      intros i k Hi Hk.
      destruct (get (write_result _ _ _ _ _) i k) eqn:Eg; [| reflexivity].
      exfalso.
      assert (Hp : get (bfs_frontier st1) i k <> None).
      { unfold st1. cbn [bfs_next bfs_frontier]. unfold next_frontier.
        rewrite Eg. discriminate. }
      pose proof (frontier_present_depth st1 i k Hcw' Hi Hk Hp). lia. }
    destruct (IH st1 (mkWorld (calls w ++ [Call_Matrix_new; Call_apply; Call_eWiseAdd;
                                           Call_mxm; Call_Matrix_nvals])
                              (live w ++ [R_S (bfs_depth st)]))
                 Hcw' ltac:(lia) ltac:(lia))
      as (w' & st' & Hrun & Hcw2 & Hlt & Hle & Hz).
    exists w', st'. split; [exact Hrun |].
    split; [exact Hcw2 | split; [lia | split; [lia | exact Hz]]].
Qed.

(** The forward phase returns, and its state counts shortest walks. *)
Lemma bc_forward_returns (w : World) :
  exists w' st,
    bc_forward Valid (Some A) sources num_sources w =
    (w', Ret (n, vtabulate n (fun _ => None), st)) /\
    counts_walks A sources m st /\
    1 <= bfs_depth st <= Nat.max 1 (n - 1) /\
    count_entries (bfs_frontier st) = 0.
Proof.
  pose proof (valid_input_shaped _ _ _ Hvalid) as (HA & Hn & Hns).
  destruct (bfs_loop_terminates n (init_state A sources num_sources)
              (setup_world sources w)
              (counts_walks_init A sources num_sources Hvalid Hunit)
              ltac:(lia) ltac:(cbn; lia))
    as (w' & st & Hrun & Hcw & Hlt & Hle & Hz).
  exists w', st. split.
  - unfold bc_forward, bind.
    rewrite (bc_setup_run A sources num_sources w Hvalid). rewrite Hrun. reflexivity.
  - cbn [init_state bfs_depth] in Hlt, Hle.
    split; [exact Hcw | split; [lia | exact Hz]].
Qed.

End ForwardTermination.

(* ================================================================== *)
(** ** Properties of the forward phase *)
(* ================================================================== *)

(** C4, as the code has it.  For a valid input whose adjacency matrix
    stores 1 at every edge and whose shortest-path counts stay below 2^63,
    the search loop terminates with an empty frontier, and the final value
    of the depth counter is at least 1 and at most max (1, n - 1). *)
Theorem search_terminates_within_nodes (A : Matrix Z) (sources : Indices)
  (num_sources : Z) :
  valid_input A sources num_sources = true ->
  unit_valued A = true ->
  no_overflow A sources num_sources = true ->
  forall w : World,
  exists w' c st,
    bc_forward Valid (Some A) sources num_sources w = (w', Ret (nrows A, c, st)) /\
    1 <= bfs_depth st /\
    bfs_depth st <= Nat.max 1 (nrows A - 1) /\
    count_entries (bfs_frontier st) = 0.
Proof.
  intros Hv Hu Hno w.
  destruct (bc_forward_returns A sources num_sources Hv Hu Hno w)
    as (w' & st & Hrun & _ & Hd & Hz).
  exists w', (vtabulate (nrows A) (fun _ => None)), st.
  split; [exact Hrun |]. split; [lia |]. split; [lia | exact Hz].
Qed.

(** C4 fails as stated: on the graph with one node the loop runs once, and
    the depth counter ends at 1, which is more than n - 1 = 0. *)
Lemma search_depth_single_node :
  exists w' c st,
    valid_input single_node (Index_list [0]) 1 = true /\
    bc_forward Valid (Some single_node) (Index_list [0]) 1 world0 =
      (w', Ret (nrows single_node, c, st)) /\
    ~ bfs_depth st <= nrows single_node - 1.
Proof.
  do 3 eexists. split; [reflexivity |]. split; [vm_compute; reflexivity |].
  vm_compute. lia.
Qed.

(** The entries have to be 1 for the search to stop.  When the edge into
    a node stores 0 the path count of the node stays 0, the complemented
    mask never hides it, and a loop at the node keeps it in the frontier:
    the search goes on after the n matrices the depth history has room
    for. *)
Lemma zero_entry_overruns_depth_history :
  valid_input zero_edge_graph (Index_list [0]) 1 = true /\
  snd (bc_forward Valid (Some zero_edge_graph) (Index_list [0]) 1 world0) = Fault.
Proof. split; vm_compute; reflexivity. Qed.

Lemma counts_walks_reaches (A : Matrix Z) (sources : Indices) (num_sources : Z)
  (st st' : BFS) :
  valid_input A sources num_sources = true ->
  unit_valued A = true ->
  no_overflow A sources num_sources = true ->
  counts_walks A sources (Z.to_nat num_sources) st ->
  bfs_reaches (nrows A) num_sources (Some A) desc_tsr_value st st' ->
  counts_walks A sources (Z.to_nat num_sources) st' /\ bfs_depth st <= bfs_depth st'.
Proof.
  intros Hv Hu Hno Hcw Hr.
  destruct (valid_input_shaped _ _ _ Hv) as (HA & Hn & Hns).
  induction Hr as [| st1 st2 Hr IH Hstep].
  - split; [exact Hcw | lia].
  - destruct IH as [Hcw1 Hle].
    apply (bfs_step_next (nrows A) num_sources A st1 st2 HA Hn Hns
             (proj1 (cw_paths_table Hcw1)) (proj1 (cw_frontier_table Hcw1))) in Hstep.
    subst st2. split.
    + apply counts_walks_next; assumption.
    + cbn [bfs_next bfs_depth]. lia.
Qed.

(** The state the search loop returns is one of the states it goes
    through. *)
Lemma bfs_loop_reaches (n : nat) (num_sources : Z) (A : Matrix Z) (slots : nat) :
  forall st w w' st',
    bfs_loop slots n num_sources (Some A) desc_tsr_value st w = (w', Ret st') ->
    bfs_reaches n num_sources (Some A) desc_tsr_value st st'.
Proof.
  induction slots as [| slots IH]; intros st w w' st' Hrun; [discriminate |].
  cbn [bfs_loop] in Hrun. unfold bind in Hrun.
  destruct (bfs_body n num_sources (Some A) desc_tsr_value st w)
    as [w1 [[st1 sum] | e |]] eqn:Ebody; try discriminate.
  cbn [fst snd] in Hrun.
  assert (Hstep : bfs_step n num_sources (Some A) desc_tsr_value st st1)
    by (exists w, w1, sum; exact Ebody).
  destruct (sum =? 0).
  - inversion Hrun; subst. eapply reaches_step; [apply reaches_start | exact Hstep].
  - specialize (IH st1 w1 w' st' Hrun).
    clear Hrun Ebody. induction IH as [| sta stb Hr IHr Hs].
    + eapply reaches_step; [apply reaches_start | exact Hstep].
    + eapply reaches_step; [exact IHr | exact Hs].
Qed.

(** C9, as the code has it.  For a valid input whose adjacency matrix
    stores 1 at every edge and whose shortest-path counts stay below 2^63:
    in every state of the search, every stored path count is strictly
    positive, and in every later state the entry is still stored with a
    value that is not smaller. *)
Theorem path_counts_positive_monotone (A : Matrix Z) (sources : Indices)
  (num_sources : Z) (st st' : BFS) :
  valid_input A sources num_sources = true ->
  unit_valued A = true ->
  no_overflow A sources num_sources = true ->
  bfs_reaches (nrows A) num_sources (Some A) desc_tsr_value
    (init_state A sources num_sources) st ->
  bfs_reaches (nrows A) num_sources (Some A) desc_tsr_value st st' ->
  forall i k v,
    get (bfs_paths st) i k = Some v ->
    (0 < v)%Z /\
    exists v', get (bfs_paths st') i k = Some v' /\ (v <= v')%Z.
Proof.
  intros Hv Hu Hno Hr1 Hr2 i k v Hg.
  destruct (counts_walks_reaches A sources num_sources _ st Hv Hu Hno
              (counts_walks_init A sources num_sources Hv Hu) Hr1) as [Hcw _].
  destruct (counts_walks_reaches A sources num_sources st st' Hv Hu Hno Hcw Hr2)
    as [Hcw' Hle].
  assert (Hi : i < nrows A /\ k < Z.to_nat num_sources).
  { destruct (Nat.lt_ge_cases i (nrows A)) as [Hi | Hi],
             (Nat.lt_ge_cases k (Z.to_nat num_sources)) as [Hk | Hk];
      try (rewrite (proj2 (cw_paths_table Hcw)) in Hg by lia; discriminate).
    split; assumption. }
  destruct Hi as [Hi Hk].
  rewrite (cw_paths Hcw Hi Hk) in Hg.
  destruct (level A (source_of sources k) i (bfs_depth st)) as [l |] eqn:El;
    [| discriminate].
  cbn [option_map] in Hg. inversion Hg as [Hval].
  pose proof (level_some _ _ _ _ _ El) as (_ & Hw & _).
  split; [exact Hw |].
  exists (walks A l (source_of sources k) i). split; [| lia].
  rewrite (cw_paths Hcw' Hi Hk).
  rewrite (level_mono _ _ _ _ (bfs_depth st') _ El Hle). reflexivity.
Qed.

(* ================================================================== *)
(** ** The backward phase *)
(* ================================================================== *)

Lemma backward_next_shaped (A : Matrix Z) S_array paths inv_paths i bt n m :
  shaped (fst bt) n m -> shaped (snd bt) n m ->
  shaped (fst (backward_next A S_array paths inv_paths i bt)) n m /\
  shaped (snd (backward_next A S_array paths inv_paths i bt)) n m.
Proof.
  intros H1 H2. unfold backward_next. cbn [fst snd]. split.
  - apply shaped_write_result. exact H1.
  - apply shaped_write_result. apply shaped_write_result. exact H2.
Qed.

Lemma backward_step_run (depth n m : nat) (A : Matrix Z) S_array paths inv_paths i bt w :
  shaped A n n -> shaped paths n m -> shaped inv_paths n m ->
  shaped (fst bt) n m -> shaped (snd bt) n m ->
  shaped (S_at S_array i) n m -> shaped (S_at S_array (i - 1)) n m ->
  backward_step depth (Some A) S_array paths inv_paths replace_value i bt w =
  (mkWorld (calls w ++ [Call_eWiseMult; Call_mxm; Call_eWiseMult]) (live w),
   Ret (backward_next A S_array paths inv_paths i bt)).
Proof.
  intros HA HP HI Hb Ht HS HS'.
  unfold backward_step. cbn zeta.
  unfold GrB_eWiseMult at 1.
  erewrite bind_OK_method.
  2:{ destruct Hb as [Hb1 Hb2]. rewrite Hb1, Hb2.
      rewrite shapes_ok_true; [| exact Ht | exact HS].
      rewrite (same_shape_true (fst bt) inv_paths n m)
        by (first [exact HI | split; assumption]).
      reflexivity. }
  set (temp1 := write_result (snd bt) _ _ _ _).
  assert (Ht1 : shaped temp1 n m) by (apply shaped_write_result; exact Ht).
  unfold GrB_mxm.
  erewrite bind_OK_method.
  2:{ cbn [with_handle in_rows in_cols inp0_tran replace_value].
      destruct HA as [HA1 HA2]. rewrite HA1, HA2.
      destruct Ht1 as [Ht11 Ht12]. rewrite Ht11, Ht12, Nat.eqb_refl.
      rewrite shapes_ok_true; [reflexivity | split; assumption | exact HS']. }
  set (temp2 := write_result temp1 _ _ _ _).
  assert (Ht2 : shaped temp2 n m) by (apply shaped_write_result; exact Ht1).
  unfold GrB_eWiseMult.
  erewrite bind_OK_method.
  2:{ destruct Ht2 as [Ht21 Ht22]. rewrite Ht21, Ht22.
      rewrite shapes_ok_true; [| exact Hb | exact I].
      rewrite (same_shape_true temp2 paths n m)
        by (first [exact HP | split; assumption]).
      reflexivity. }
  unfold ret, backward_next. cbn [calls live fst snd].
  rewrite <- !app_assoc. reflexivity.
Qed.

Lemma backward_loop_run (depth n m : nat) (A : Matrix Z) S_array paths inv_paths :
  shaped A n n -> shaped paths n m -> shaped inv_paths n m ->
  forall i bt w,
    (forall d, d <= i -> shaped (S_at S_array d) n m) ->
    shaped (fst bt) n m -> shaped (snd bt) n m ->
    backward_loop i depth (Some A) S_array paths inv_paths replace_value bt w =
    (mkWorld (calls w ++ concat (repeat [Call_eWiseMult; Call_mxm; Call_eWiseMult] i))
             (live w),
     Ret (backward_iter i A S_array paths inv_paths bt)).
Proof.
  intros HA HP HI. induction i as [| i IH]; intros bt w HS Hb Ht.
  - cbn. rewrite app_nil_r. destruct w; reflexivity.
  - cbn [backward_loop backward_iter]. unfold bind.
    rewrite (backward_step_run depth n m A S_array paths inv_paths (S i) bt w
               HA HP HI Hb Ht (HS (S i) ltac:(lia)) (HS (S i - 1) ltac:(lia))).
    destruct (backward_next_shaped A S_array paths inv_paths (S i) bt n m Hb Ht)
      as [Hb' Ht'].
    rewrite IH; [| intros d Hd; apply HS; lia | exact Hb' | exact Ht'].
    cbn [calls live repeat concat]. rewrite <- app_assoc. reflexivity.
Qed.

Lemma backward_iter_shaped_fst (n m : nat) (A : Matrix Z) S_array paths inv_paths i :
  forall bt,
    shaped (fst bt) n m -> shaped (snd bt) n m ->
    nrows (fst (backward_iter i A S_array paths inv_paths bt)) = n.
Proof.
  induction i as [| i IH]; intros bt Hb Ht.
  - apply Hb.
  - cbn [backward_iter].
    destruct (backward_next_shaped A S_array paths inv_paths (S i) bt n m Hb Ht)
      as [Hb' Ht'].
    apply IH; assumption.
Qed.

Lemma shaped_S_at_all (n m : nat) (st : BFS) :
  search_inv n m st -> 0 < bfs_depth st ->
  forall d, d <= bfs_depth st - 1 -> shaped (S_at (bfs_S_array st) d) n m.
Proof. intros Hinv Hpos d Hd. apply (inv_history_shaped Hinv). lia. Qed.

(** The backward phase returns, whatever the entries of the adjacency
    matrix are. *)
Lemma bc_backward_run (A : Matrix Z) (num_sources : Z) (st : BFS) (w : World) :
  shaped A (nrows A) (nrows A) -> 0 < nrows A -> (0 < num_sources)%Z ->
  search_inv (nrows A) (Z.to_nat num_sources) st -> 0 < bfs_depth st ->
  bc_backward (nrows A) num_sources (Some A) st w =
  (mkWorld (calls w ++ backward_calls (bfs_depth st - 1))
           (live w ++ [R_inv_paths; R_bc_update; R_replace; R_temp]),
   Ret (bc_update_of A num_sources st)).
Proof.
  intros HA Hn Hns Hinv Hpos.
  unfold bc_backward. cbn zeta.
  rewrite bind_OK_Matrix_new by lia. rewrite Nat2Z.id.
  unfold GrB_apply.
  erewrite bind_OK_method.
  2:{ cbn [in_rows in_cols inp0_tran desc_default].
      destruct (inv_paths_table Hinv) as [[H1 H2] _]. rewrite H1, H2.
      rewrite shapes_ok_true; [reflexivity | apply shaped_tabulate | exact I]. }
  rewrite bind_OK_Matrix_new by lia. rewrite Nat2Z.id.
  unfold GrB_Matrix_assign_scalar.
  erewrite bind_OK_method by reflexivity.
  rewrite bind_OK_Descriptor_new.
  unfold GrB_Descriptor_set.
  erewrite bind_OK_method by reflexivity.
  cbn [inp0_tran outp_replace mask_scmp desc_default]. fold replace_value.
  rewrite bind_OK_Matrix_new by lia. rewrite Nat2Z.id.
  unfold bind.
  rewrite (backward_loop_run (bfs_depth st) (nrows A) (Z.to_nat num_sources) A
             (bfs_S_array st) (bfs_paths st)); try assumption.
  - unfold ret, bc_update_of, backward_calls, inv_paths_of, ones_matrix.
    cbn [calls live fst snd]. rewrite <- !app_assoc. reflexivity.
  - apply (inv_paths_table Hinv).
  - apply shaped_write_result. apply shaped_tabulate.
  - apply shaped_S_at_all; assumption.
  - cbn [fst]. apply shaped_write_result. apply shaped_tabulate.
  - cbn [snd]. apply shaped_tabulate.
Qed.

Lemma sum_stored_S (f : nat -> option FP64) (n : nat) :
  sum_stored f (S n) =
  match f n with
  | Some x => Some (match sum_stored f n with Some s => plus_fp64 s x | None => x end)
  | None => sum_stored f n
  end.
Proof.
  unfold sum_stored. rewrite seq_S, fold_left_app. cbn [fold_left Nat.add].
  reflexivity.
Qed.

Lemma sum_stored_ext (f g : nat -> option FP64) (n : nat) :
  (forall w, w < n -> f w = g w) -> sum_stored f n = sum_stored g n.
Proof.
  induction n as [| n IH]; intros H; [reflexivity |].
  rewrite !sum_stored_S, IH by (intros w Hw; apply H; lia).
  rewrite (H n) by lia. reflexivity.
Qed.

Lemma dot_fp64_sum (a : nat -> option Z) (b : nat -> option FP64) (n : nat) :
  dot plus_fp64 (fun x t => times_fp64 (adj_to_fp64 x) t) a b n =
  sum_stored (fun w => match a w, b w with
                       | Some x, Some c => Some (times_fp64 (adj_to_fp64 x) c)
                       | _, _ => None
                       end) n.
Proof.
  induction n as [| n IH]; [reflexivity |].
  rewrite dot_S, sum_stored_S, IH.
  destruct (a n) as [x |], (b n) as [c |]; reflexivity.
Qed.

Lemma mask_value_recorded (S_d : Matrix bool) (v k : nat) :
  mask_value S_d (fun b => b) v k = recorded S_d v k.
Proof.
  unfold mask_value, recorded. destruct (get S_d v k) as [[|] |]; reflexivity.
Qed.

Lemma get_inv_paths_of (n m : nat) (paths : Matrix Z) (v k : nat) :
  v < n -> k < m -> get (inv_paths_of n m paths) v k = inverse_paths paths v k.
Proof.
  intros Hv Hk. unfold inv_paths_of.
  rewrite (get_write_result _ _ _ _ _ n m) by (assumption || apply shaped_tabulate).
  reflexivity.
Qed.

(** One pass of the loop does what the three steps of the description
    say. *)
Lemma get_backward_next (n m : nat) (A : Matrix Z) S_array paths i bt v k :
  shaped A n n -> shaped (fst bt) n m -> shaped (snd bt) n m ->
  v < n -> k < m ->
  get (fst (backward_next A S_array paths (inv_paths_of n m paths) i bt)) v k =
  backward_pass A S_array paths i (get (fst bt)) v k.
Proof.
  intros HA Hb Ht Hv Hk. unfold backward_next. cbn [fst snd].
  set (temp1 := write_result (snd bt) _ _ _ _).
  assert (H1 : forall w, w < n ->
            get temp1 w k =
            credit_share (S_at S_array i) (get (fst bt)) (inverse_paths paths) w k).
  { intros w Hw. unfold temp1.
    rewrite (get_write_result _ _ _ _ _ n m) by assumption.
    cbn [mask_at option_map mask_in value_mask mask_scmp replace_value xorb
         accumulate outp_replace].
    rewrite mask_value_recorded. unfold credit_share, emult_result.
    rewrite get_inv_paths_of by assumption.
    destruct (recorded _ w k); reflexivity. }
  set (temp2 := write_result temp1 _ _ _ _).
  assert (H2 : get temp2 v k =
               propagate A (S_at S_array (i - 1))
                 (credit_share (S_at S_array i) (get (fst bt)) (inverse_paths paths)) v k).
  { unfold temp2.
    rewrite (get_write_result _ _ _ _ _ n m)
      by (assumption || (apply shaped_write_result; exact Ht)).
    cbn [mask_at option_map mask_in value_mask mask_scmp replace_value xorb
         accumulate outp_replace].
    rewrite mask_value_recorded. unfold propagate.
    destruct (recorded _ v k); [| reflexivity].
    unfold mxm_result, transpose_get. cbn [in_cols].
    destruct HA as [HA1 HA2]. rewrite HA2, HA1.
    rewrite dot_fp64_sum. apply sum_stored_ext.
    intros w Hw. rewrite (H1 w Hw). reflexivity. }
  rewrite (get_write_result _ _ _ _ _ n m) by assumption.
  cbn [mask_at mask_scmp desc_default negb accumulate].
  unfold backward_pass, fold_credit, emult_result.
  rewrite H2.
  destruct (propagate _ _ _ v k) as [t |], (get paths v k) as [p |],
           (get (fst bt) v k) as [x |]; reflexivity.
Qed.

Lemma backward_pass_ext (n : nat) (A : Matrix Z) S_array paths i (dep dep' : Entries)
  (k : nat) :
  nrows A = n ->
  (forall v, v < n -> dep v k = dep' v k) ->
  forall v, v < n ->
    backward_pass A S_array paths i dep v k = backward_pass A S_array paths i dep' v k.
Proof.
  intros HA H v Hv. unfold backward_pass, fold_credit.
  rewrite (H v Hv).
  assert (E : propagate A (S_at S_array (i - 1))
                (credit_share (S_at S_array i) dep (inverse_paths paths)) v k =
              propagate A (S_at S_array (i - 1))
                (credit_share (S_at S_array i) dep' (inverse_paths paths)) v k).
  { unfold propagate. destruct (recorded _ v k); [| reflexivity].
    apply sum_stored_ext. intros w Hw. unfold credit_share.
    rewrite (H w) by lia. reflexivity. }
  rewrite E. reflexivity.
Qed.

Lemma fold_backward_pass_ext (n : nat) (A : Matrix Z) S_array paths (l : list nat)
  (k : nat) :
  nrows A = n ->
  forall dep dep' : Entries,
    (forall v, v < n -> dep v k = dep' v k) ->
    forall v, v < n ->
      fold_left (fun d i => backward_pass A S_array paths i d) l dep v k =
      fold_left (fun d i => backward_pass A S_array paths i d) l dep' v k.
Proof.
  intros HA. induction l as [| i l IH]; intros dep dep' H v Hv; cbn [fold_left].
  - apply H. exact Hv.
  - apply IH; [| exact Hv].
    intros v' Hv'. apply (backward_pass_ext n); assumption.
Qed.

Lemma backward_iter_spec (n m : nat) (A : Matrix Z) S_array paths :
  shaped A n n ->
  forall i bt,
    shaped (fst bt) n m -> shaped (snd bt) n m ->
    forall v k, v < n -> k < m ->
      get (fst (backward_iter i A S_array paths (inv_paths_of n m paths) bt)) v k =
      fold_left (fun d j => backward_pass A S_array paths j d) (rev (seq 1 i))
                (get (fst bt)) v k.
Proof.
  intros HA. induction i as [| i IH]; intros bt Hb Ht v k Hv Hk.
  - reflexivity.
  - cbn [backward_iter].
    destruct (backward_next_shaped A S_array paths (inv_paths_of n m paths) (S i) bt
                n m Hb Ht) as [Hb' Ht'].
    rewrite (IH _ Hb' Ht' v k Hv Hk).
    rewrite seq_S, rev_app_distr. cbn [rev app fold_left Nat.add].
    apply (fold_backward_pass_ext n); [apply HA | | exact Hv].
    intros v' Hv'. apply (get_backward_next n m); assumption.
Qed.

Lemma get_ones_matrix (n m v k : nat) :
  v < n -> k < m -> get (ones_matrix n m) v k = Some fp64_one.
Proof.
  intros Hv Hk. unfold ones_matrix.
  rewrite (get_write_result _ _ _ _ _ n m) by (assumption || apply shaped_tabulate).
  reflexivity.
Qed.

(** The update matrix is the one the description of the backward phase
    defines. *)
Lemma bc_update_of_spec (A : Matrix Z) (num_sources : Z) (st : BFS) (v k : nat) :
  shaped A (nrows A) (nrows A) ->
  v < nrows A -> k < Z.to_nat num_sources ->
  get (bc_update_of A num_sources st) v k =
  backward_spec A (bfs_S_array st) (bfs_paths st) (bfs_depth st) v k.
Proof.
  intros HA Hv Hk. unfold bc_update_of. cbn zeta.
  rewrite (backward_iter_spec (nrows A) (Z.to_nat num_sources)); try assumption.
  - unfold backward_spec, backward_indices.
    apply (fold_backward_pass_ext (nrows A)); [reflexivity | | exact Hv].
    intros v' Hv'. cbn [fst]. apply get_ones_matrix; assumption.
  - cbn [fst]. apply shaped_write_result. apply shaped_tabulate.
  - cbn [snd]. apply shaped_tabulate.
Qed.

Lemma backward_indices_nth (D j : nat) :
  j < D - 1 -> nth j (backward_indices D) 0 = D - 1 - j.
Proof.
  intros Hj. unfold backward_indices.
  rewrite rev_nth by (rewrite length_seq; exact Hj).
  rewrite length_seq, seq_nth by lia. lia.
Qed.

Lemma backward_indices_length (D : nat) : length (backward_indices D) = D - 1.
Proof. unfold backward_indices. rewrite length_rev, length_seq. reflexivity. Qed.

Lemma backward_indices_in (D i : nat) :
  In i (backward_indices D) <-> 1 <= i <= D - 1.
Proof.
  unfold backward_indices. rewrite <- in_rev, in_seq. lia.
Qed.

(** C3.  When the forward phase has recorded D depth levels, the backward
    phase returns after the seven calls that make its matrices and three
    calls (elementwise multiply, matrix multiply, elementwise multiply) for
    each depth index D - 1, D - 2, ..., 1 in this order, never for depth
    index 0; and its update matrix is the one obtained by the three steps of
    the description applied at these indices: the masked replace with
    dependency times inverse path count at the positions of depth i, the
    product with the adjacency matrix masked to the positions of depth
    i - 1, and the addition of that product times the path counts. *)
Theorem backward_phase_as_described (A : Matrix Z) (sources : Indices)
  (num_sources : Z) (w w1 : World) (n : nat) (c : Vector FP64) (st : BFS) :
  valid_input A sources num_sources = true ->
  bc_forward Valid (Some A) sources num_sources w = (w1, Ret (n, c, st)) ->
  exists w2 bc_update,
    bc_backward n num_sources (Some A) st w1 = (w2, Ret bc_update) /\
    calls w2 = calls w1 ++ backward_calls (length (backward_indices (bfs_depth st))) /\
    (forall j, j < bfs_depth st - 1 ->
       nth j (backward_indices (bfs_depth st)) 0 = bfs_depth st - 1 - j) /\
    length (backward_indices (bfs_depth st)) = bfs_depth st - 1 /\
    ~ In 0 (backward_indices (bfs_depth st)) /\
    forall v k, v < n -> k < Z.to_nat num_sources ->
      get bc_update v k =
      fold_left
        (fun dependency i =>
           fold_credit (bfs_paths st) dependency
             (propagate A (S_at (bfs_S_array st) (i - 1))
                (credit_share (S_at (bfs_S_array st) i) dependency
                   (inverse_paths (bfs_paths st)))))
        (backward_indices (bfs_depth st)) (fun _ _ => Some fp64_one) v k.
Proof.
  intros Hv Hrun.
  destruct (bc_forward_run _ _ _ _ _ _ Hv Hrun) as (Hn & _ & Hloop).
  cbn [fst snd] in Hn, Hloop. subst n.
  destruct (forward_search_inv A sources num_sources w w1 st Hv Hloop) as [Hinv Hpos].
  destruct (valid_input_shaped _ _ _ Hv) as (HA & Hn & Hns).
  exists (mkWorld (calls w1 ++ backward_calls (bfs_depth st - 1))
                  (live w1 ++ [R_inv_paths; R_bc_update; R_replace; R_temp])),
         (bc_update_of A num_sources st).
  split; [apply bc_backward_run; assumption |].
  split; [cbn [calls]; rewrite backward_indices_length; reflexivity |].
  split; [apply backward_indices_nth |].
  split; [apply backward_indices_length |].
  split; [rewrite backward_indices_in; lia |].
  intros v k Hvn Hk. apply bc_update_of_spec; assumption.
Qed.

(* ================================================================== *)
(** ** The reduction and the whole function *)
(* ================================================================== *)

(** A run of the search loop that returns: the state returned comes from
    one more iteration on a state that is the initial one or has a frontier
    with entries; its own frontier has none.  Each iteration issues five
    calls and allocates one matrix of the depth history. *)
Lemma bfs_loop_trace (P : BFS -> Prop) (n : nat) (num_sources : Z) (A : Matrix Z) :
  shaped A n n -> 0 < n -> (0 < num_sources)%Z ->
  (forall st, P st ->
     shaped (bfs_paths st) n (Z.to_nat num_sources) /\
     shaped (bfs_frontier st) n (Z.to_nat num_sources)) ->
  (forall st, P st -> P (bfs_next n num_sources A desc_tsr_value st)) ->
  forall slots st w w' st',
    P st ->
    bfs_loop slots n num_sources (Some A) desc_tsr_value st w = (w', Ret st') ->
    count_entries (bfs_frontier st') = 0 /\
    (exists st1, P st1 /\ st' = bfs_next n num_sources A desc_tsr_value st1 /\
                 (st1 = st \/
                  count_entries (bfs_frontier st1) <> 0 /\ bfs_depth st < bfs_depth st1)) /\
    live w' = live w ++ map R_S (seq (bfs_depth st) (bfs_depth st' - bfs_depth st)) /\
    calls w' = calls w ++
               concat (repeat [Call_Matrix_new; Call_apply; Call_eWiseAdd; Call_mxm;
                               Call_Matrix_nvals] (bfs_depth st' - bfs_depth st)).
Proof.
  intros HA Hn Hns Hsh Hstep.
  induction slots as [| slots IH]; intros st w w' st' HP Hrun.
  - discriminate.
  - cbn [bfs_loop] in Hrun. unfold bind in Hrun.
    destruct (Hsh st HP) as [HPs HFs].
    rewrite (bfs_body_run n num_sources A st w HA Hn Hns HPs HFs) in Hrun.
    cbn [fst snd] in Hrun.
    set (st1 := bfs_next n num_sources A desc_tsr_value st) in *.
    assert (Hd1 : bfs_depth st1 = bfs_depth st + 1) by reflexivity.
    destruct (Nat.eqb_spec (count_entries (bfs_frontier st1)) 0) as [E | E].
    + inversion Hrun; subst w' st'. clear Hrun.
      split; [exact E |]. split.
      * exists st. split; [exact HP |]. split; [reflexivity | left; reflexivity].
      * rewrite Hd1. replace (bfs_depth st + 1 - bfs_depth st) with 1 by lia.
        cbn [live calls seq map repeat concat]. rewrite app_nil_r. split; reflexivity.
    + destruct (IH _ _ _ _ (Hstep st HP) Hrun) as (Hz & (st2 & HP2 & E2 & Hor) & Hl & Hc).
      fold st1 in Hor, Hl, Hc.
      assert (Hlt : bfs_depth st1 < bfs_depth st').
      { rewrite E2. cbn [bfs_next bfs_depth]. destruct Hor as [-> | [_ Hlt]]; lia. }
      split; [exact Hz |]. split.
      * exists st2. split; [exact HP2 |]. split; [exact E2 |]. right.
        destruct Hor as [-> | [Hne Hlt2]]; [split; [exact E | lia] | split; [exact Hne | lia]].
      * cbn [live calls] in Hl, Hc. rewrite Hl, Hc, Hd1.
        replace (bfs_depth st' - bfs_depth st)
          with (S (bfs_depth st' - (bfs_depth st + 1))) by lia.
        cbn [seq map repeat concat]. rewrite <- !app_assoc.
        replace (S (bfs_depth st)) with (bfs_depth st + 1) by lia.
        split; reflexivity.
Qed.

(** The objects and the calls of the forward phase. *)
Lemma bc_forward_world (A : Matrix Z) (sources : Indices) (num_sources : Z)
  (w w1 : World) (n : nat) (c0 : Vector FP64) (st : BFS) :
  valid_input A sources num_sources = true ->
  bc_forward Valid (Some A) sources num_sources w = (w1, Ret (n, c0, st)) ->
  live w1 = live (setup_world sources w) ++ map R_S (seq 0 (bfs_depth st)) /\
  calls w1 = calls (setup_world sources w) ++
             concat (repeat [Call_Matrix_new; Call_apply; Call_eWiseAdd; Call_mxm;
                             Call_Matrix_nvals] (bfs_depth st)).
Proof.
  intros Hv Hrun.
  destruct (bc_forward_run _ _ _ _ _ _ Hv Hrun) as (Hn & Hc & Hloop).
  cbn [fst snd] in Hn, Hc, Hloop. subst n c0.
  destruct (valid_input_shaped _ _ _ Hv) as (HA & Hn & Hns).
  destruct (bfs_loop_trace (search_inv (nrows A) (Z.to_nat num_sources))
              (nrows A) num_sources A HA Hn Hns)
    with (slots := nrows A) (st := init_state A sources num_sources)
         (w := setup_world sources w) (w' := w1) (st' := st)
    as (_ & _ & Hl & Hcalls).
  - intros st0 H. split; [apply (inv_paths_table H) | apply (inv_frontier_table H)].
  - intros st0 H. apply search_inv_next. exact H.
  - apply search_inv_init.
  - exact Hloop.
  - cbn [init_state bfs_depth] in Hl, Hcalls. rewrite Nat.sub_0_r in Hl, Hcalls.
    split; [exact Hl | exact Hcalls].
Qed.

(** Freeing handles that have all been assigned. *)
Lemma release_cons (r : Res) (rs : list Res) (w : World) :
  release rs (release [r] w) = release (r :: rs) w.
Proof.
  unfold release. cbn [calls live]. f_equal.
  induction (live w) as [| x l IH]; [reflexivity |].
  cbn [filter existsb]. destruct (Res_eq_dec r x) as [E | E]; cbn [orb negb].
  - exact IH.
  - cbn [filter]. destruct (negb (existsb _ rs)); [f_equal |]; exact IH.
Qed.

Lemma assigned_live (r : Res) (w : World) : In r (live w) -> assigned r w = true.
Proof.
  intros H. apply existsb_exists. exists r. split; [exact H |].
  destruct (Res_eq_dec r r); [reflexivity | contradiction].
Qed.

Lemma live_release_other (r r' : Res) (w : World) :
  r' <> r -> In r' (live w) -> In r' (live (release [r] w)).
Proof.
  intros Hne Hin. unfold release. cbn [live]. apply filter_In. split; [exact Hin |].
  cbn [existsb]. destruct (Res_eq_dec r r'); [congruence | reflexivity].
Qed.

Lemma free_handles_run (rs : list Res) :
  NoDup rs ->
  forall w, (forall r, In r rs -> In r (live w)) ->
    free_handles rs w = (release rs w, Ret tt).
Proof.
  induction 1 as [| r rs Hnotin Hnd IH]; intros w Hlive.
  - unfold release. cbn [free_handles existsb negb]. rewrite filter_true.
    destruct w; reflexivity.
  - cbn [free_handles]. rewrite assigned_live by (apply Hlive; left; reflexivity).
    rewrite IH.
    + rewrite release_cons. reflexivity.
    + intros r' Hr'. apply live_release_other.
      * intros ->. contradiction.
      * apply Hlive. right. exact Hr'.
Qed.

Lemma NoDup_FREE_ALL (depth : nat) :
  NoDup ([R_frontier; R_paths; R_inv_paths; R_bc_update; R_desc_tsr; R_replace;
          R_temp] ++ map R_S (seq 0 depth) ++ [R_S_array]).
Proof.
  apply NoDup_app.
  - repeat (constructor; [cbn; intuition discriminate |]). constructor.
  - apply NoDup_app.
    + apply NoDup_map_NoDup_ForallPairs; [| apply seq_NoDup].
      intros x y _ _ E. inversion E. reflexivity.
    + constructor; [intros [] | constructor].
    + intros a Ha [<- | []]. apply in_map_iff in Ha. destruct Ha as (d & E & _).
      discriminate.
  - intros a Ha Hb. apply in_app_or in Hb.
    destruct Hb as [Hb | [<- | []]].
    + apply in_map_iff in Hb. destruct Hb as (d & <- & _).
      cbn in Ha. intuition discriminate.
    + cbn in Ha. intuition discriminate.
Qed.

Lemma LAGRAPH_FREE_ALL_run (depth : nat) (w : World) :
  (forall r, In r ([R_frontier; R_paths; R_inv_paths; R_bc_update; R_desc_tsr;
                    R_replace; R_temp] ++ map R_S (seq 0 depth) ++ [R_S_array]) ->
             In r (live w)) ->
  LAGRAPH_FREE_ALL depth w =
  (release ([R_frontier; R_paths; R_inv_paths; R_bc_update; R_desc_tsr; R_replace;
             R_temp] ++ map R_S (seq 0 depth) ++ [R_S_array]) w, Ret tt).
Proof. intros H. apply free_handles_run; [apply NoDup_FREE_ALL | exact H]. Qed.

(** The handles the set-up assigns. *)
Lemma live_setup_handles (sources : Indices) (w : World) (r : Res) :
  In r [R_desc_tsr; R_paths; R_frontier; R_S_array] ->
  In r (live (setup_world sources w)).
Proof.
  intros Hr. unfold setup_world, release. cbn [live calls].
  apply in_or_app. cbn [In] in Hr.
  destruct Hr as [<- | [<- | [<- | [<- | []]]]];
    try (right; cbn [In]; tauto);
    left; destruct sources; cbn [live];
    repeat (apply filter_In; split; [| reflexivity]);
    rewrite !in_app_iff; cbn [In]; tauto.
Qed.

(** Every handle [LAGRAPH_FREE_ALL] frees has been assigned at the end of
    a run. *)
Lemma handles_assigned_at_end (sources : Indices) (w w1 : World) (depth : nat)
  (cs : list Call) (r : Res) :
  live w1 = live (setup_world sources w) ++ map R_S (seq 0 depth) ->
  In r ([R_frontier; R_paths; R_inv_paths; R_bc_update; R_desc_tsr; R_replace;
         R_temp] ++ map R_S (seq 0 depth) ++ [R_S_array]) ->
  In r (live (mkWorld cs (live w1 ++ [R_inv_paths; R_bc_update; R_replace; R_temp]))).
Proof.
  intros Hl Hr. cbn [live]. rewrite Hl, !in_app_iff.
  apply in_app_or in Hr. destruct Hr as [Hr | Hr].
  - cbn [In] in Hr.
    destruct Hr as [<- | [<- | [<- | [<- | [<- | [<- | [<- | []]]]]]]];
      try (right; cbn; tauto);
      left; left; apply live_setup_handles; cbn; tauto.
  - apply in_app_or in Hr. destruct Hr as [Hr | [<- | []]].
    + left. right. exact Hr.
    + left. left. apply live_setup_handles. cbn; tauto.
Qed.

Lemma bc_reduce_run (depth : nat) (num_sources : Z) (c : Vector FP64)
  (bc_update : Matrix FP64) (w : World) :
  vsize c = nrows bc_update ->
  bc_reduce depth num_sources c bc_update w =
  (mkWorld (calls w ++ [Call_assign; Call_reduce]) (live w),
   Ret (centrality_of (vsize c) num_sources bc_update)).
Proof.
  intros Hsize. unfold bc_reduce, GrB_Vector_assign_scalar.
  erewrite bind_OK_method by reflexivity.
  unfold GrB_reduce, LAGRAPH_OK, method, bind, log, check, ret.
  cbn [vsize vtabulate calls live]. apply Nat.eqb_eq in Hsize. rewrite Hsize.
  cbn [calls live]. rewrite <- app_assoc. reflexivity.
Qed.

(** A run of the whole function that follows a forward phase. *)
Lemma LAGraph_bc_batch_run (A : Matrix Z) (sources : Indices) (num_sources : Z)
  (w w1 : World) (n : nat) (c0 : Vector FP64) (st : BFS) :
  valid_input A sources num_sources = true ->
  bc_forward Valid (Some A) sources num_sources w = (w1, Ret (n, c0, st)) ->
  LAGraph_bc_batch Valid (Some A) sources num_sources w =
  (final_world (bfs_depth st) w1,
   Ret (centrality_of (nrows A) num_sources (bc_update_of A num_sources st))).
Proof.
  intros Hv Hrun.
  destruct (@bc_forward_world A sources num_sources w w1 n c0 st Hv Hrun) as [Hlive _].
  destruct (bc_forward_run _ _ _ _ _ _ Hv Hrun) as (Hn & Hc & Hloop).
  cbn [fst snd] in Hn, Hc, Hloop. subst n c0.
  destruct (forward_search_inv A sources num_sources w w1 st Hv Hloop) as [Hinv Hpos].
  destruct (valid_input_shaped _ _ _ Hv) as (HA & Hn & Hns).
  unfold LAGraph_bc_batch. unfold bind at 1. rewrite Hrun.
  unfold bind at 1. rewrite (bc_backward_run A num_sources st w1 HA Hn Hns Hinv Hpos).
  unfold bind at 1. rewrite bc_reduce_run.
  - unfold bind, ret, final_world. cbn [calls live vsize vtabulate fst].
    rewrite <- !app_assoc.
    rewrite LAGRAPH_FREE_ALL_run
      by (intros r Hr;
          apply (@handles_assigned_at_end sources w w1 (bfs_depth st)); assumption).
    reflexivity.
  - cbn [vsize vtabulate]. unfold bc_update_of. cbn zeta.
    symmetry.
    apply (backward_iter_shaped_fst (nrows A) (Z.to_nat num_sources)).
    + apply shaped_write_result. apply shaped_tabulate.
    + apply shaped_tabulate.
Qed.

Lemma reduce_row_sum_stored (bc : Matrix FP64) (i : nat) :
  reduce_row plus_fp64 bc i = sum_stored (fun j => get bc i j) (ncols bc).
Proof. reflexivity. Qed.

Lemma vget_centrality_of (n : nat) (num_sources : Z) (bc : Matrix FP64) (i : nat) :
  i < n ->
  vget (centrality_of n num_sources bc) i =
  match row_total bc i (ncols bc) with
  | Some s => Some (plus_fp64 (fp32_to_fp64 (SFopp (int32_to_fp32 num_sources))) s)
  | None => Some (fp32_to_fp64 (SFopp (int32_to_fp32 num_sources)))
  end.
Proof.
  intros Hi. unfold centrality_of.
  rewrite !vget_vtabulate by exact Hi.
  rewrite reduce_row_sum_stored. reflexivity.
Qed.

Lemma ncols_bc_update_of (A : Matrix Z) (num_sources : Z) (st : BFS) :
  ncols (bc_update_of A num_sources st) = Z.to_nat num_sources.
Proof.
  unfold bc_update_of. cbn zeta.
  generalize (bfs_depth st - 1) as i.
  assert (H : forall i bt,
            shaped (fst bt) (nrows A) (Z.to_nat num_sources) ->
            shaped (snd bt) (nrows A) (Z.to_nat num_sources) ->
            ncols (fst (backward_iter i A (bfs_S_array st) (bfs_paths st)
                          (inv_paths_of (nrows A) (Z.to_nat num_sources) (bfs_paths st))
                          bt)) = Z.to_nat num_sources).
  { induction i as [| i IH]; intros bt Hb Ht.
    - apply Hb.
    - cbn [backward_iter].
      destruct (backward_next_shaped A (bfs_S_array st) (bfs_paths st)
                  (inv_paths_of (nrows A) (Z.to_nat num_sources) (bfs_paths st))
                  (S i) bt _ _ Hb Ht) as [Hb' Ht'].
      apply IH; assumption. }
  intros i. apply H.
  - cbn [fst]. apply shaped_write_result. apply shaped_tabulate.
  - cbn [snd]. apply shaped_tabulate.
Qed.





Lemma sum_stored_none (f : nat -> option FP64) (n : nat) :
  (forall w, w < n -> f w = None) -> sum_stored f n = None.
Proof.
  induction n as [| n IH]; intros H; [reflexivity |].
  rewrite sum_stored_S, (H n) by lia. apply IH. intros w Hw. apply H. lia.
Qed.

(** A node without outgoing edges keeps its initial dependency 1 in every
    pass of the backward phase. *)
Lemma backward_no_out_edges (A : Matrix Z) S_array paths (i k : nat) :
  (forall j, get A i j = None) ->
  forall (l : list nat) (dep : Entries),
    dep i k = Some fp64_one ->
    fold_left (fun d j => backward_pass A S_array paths j d) l dep i k = Some fp64_one.
Proof.
  intros Hout. induction l as [| j l IH]; intros dep Hdep; cbn [fold_left].
  - exact Hdep.
  - apply IH. unfold backward_pass, fold_credit, propagate.
    rewrite sum_stored_none.
    + destruct (recorded _ i k); exact Hdep.
    + intros w _. rewrite Hout. reflexivity.
Qed.

(** The sum of [m] ones is [m], as long as a double holds it. *)
Lemma sum_stored_ones (f : nat -> option FP64) (m : nat) :
  (forall j, j < m -> f j = Some fp64_one) ->
  0 < m -> (Z.of_nat m < 2 ^ 53)%Z ->
  sum_stored f m = Some (fp64_of_Z (Z.of_nat m)).
Proof.
  induction m as [| m IH]; intros Hf Hm Hlt; [lia |].
  rewrite sum_stored_S, (Hf m) by lia.
  destruct m as [| m]; [reflexivity |].
  rewrite IH by (try lia; intros j Hj; apply Hf; lia).
  rewrite fp64_one_value, plus_fp64_integers by lia.
  f_equal. f_equal. lia.
Qed.

(** The entry of the result for a node whose row of the update matrix
    holds the initial ones. *)
Lemma ones_row_entry (A : Matrix Z) (sources : Indices) (num_sources : Z)
  (st : BFS) (i : nat) :
  valid_input A sources num_sources = true ->
  i < nrows A ->
  (forall k, k < Z.to_nat num_sources ->
     get (bc_update_of A num_sources st) i k = Some fp64_one) ->
  (num_sources < 2 ^ 53)%Z ->
  row_total (bc_update_of A num_sources st) i (Z.to_nat num_sources) =
  Some (fp64_of_Z num_sources) /\
  vget (centrality_of (nrows A) num_sources (bc_update_of A num_sources st)) i =
  Some (plus_fp64 (fp32_to_fp64 (SFopp (int32_to_fp32 num_sources)))
                  (fp64_of_Z num_sources)).
Proof.
  intros Hv Hi Hrow Hlt.
  destruct (valid_input_shaped _ _ _ Hv) as (HA & Hn & Hns).
  assert (Hsum : row_total (bc_update_of A num_sources st) i (Z.to_nat num_sources) =
                 Some (fp64_of_Z num_sources)).
  { unfold row_total.
    replace (fp64_of_Z num_sources)
      with (fp64_of_Z (Z.of_nat (Z.to_nat num_sources)))
      by (rewrite Z2Nat.id by lia; reflexivity).
    apply sum_stored_ones; [exact Hrow | lia | lia]. }
  split; [exact Hsum |].
  rewrite vget_centrality_of by exact Hi.
  rewrite ncols_bc_update_of, Hsum. reflexivity.
Qed.

(** A node without outgoing edges keeps the initial ones. *)
Lemma no_out_edges_row (A : Matrix Z) (sources : Indices) (num_sources : Z)
  (st : BFS) (i : nat) :
  valid_input A sources num_sources = true ->
  i < nrows A ->
  (forall j, get A i j = None) ->
  forall k, k < Z.to_nat num_sources ->
    get (bc_update_of A num_sources st) i k = Some fp64_one.
Proof.
  intros Hv Hi Hout k Hk.
  destruct (valid_input_shaped _ _ _ Hv) as (HA & Hn & Hns).
  rewrite bc_update_of_spec by assumption.
  unfold backward_spec. apply backward_no_out_edges; [exact Hout | reflexivity].
Qed.

(** The constant and the row sum of such a node cancel when the conversion
    to float is exact. *)
Lemma offset_cancels (num_sources : Z) :
  (0 < num_sources <= 2 ^ 24)%Z ->
  plus_fp64 (fp32_to_fp64 (SFopp (int32_to_fp32 num_sources))) (fp64_of_Z num_sources) =
  S754_zero false.
Proof.
  intros H. rewrite offset_exact, plus_fp64_integers by lia.
  rewrite Z.add_opp_diag_l. reflexivity.
Qed.

(** Isolated nodes.  A node without incident edges keeps the initial
    value 1 in every source column of the update matrix.  Its entry of
    the result is the constant - (float) num_sources, to which the sum of
    these ones has been added: the sum is num_sources, and the entry is 0
    when there are at most 2^24 sources. *)
Theorem isolated_node_centrality_zero (A : Matrix Z) (sources : Indices)
  (num_sources : Z) (w w' : World) (c : Vector FP64) (i : nat) :
  valid_input A sources num_sources = true ->
  i < nrows A ->
  (forall j, get A i j = None /\ get A j i = None) ->
  (num_sources < 2 ^ 31)%Z ->
  LAGraph_bc_batch Valid (Some A) sources num_sources w = (w', Ret c) ->
  exists w1 w2 c0 st bc_update,
    bc_forward Valid (Some A) sources num_sources w = (w1, Ret (nrows A, c0, st)) /\
    bc_backward (nrows A) num_sources (Some A) st w1 = (w2, Ret bc_update) /\
    (forall k, k < Z.to_nat num_sources -> get bc_update i k = Some fp64_one) /\
    row_total bc_update i (Z.to_nat num_sources) = Some (fp64_of_Z num_sources) /\
    vget c i =
    Some (plus_fp64 (fp32_to_fp64 (SFopp (int32_to_fp32 num_sources)))
                    (fp64_of_Z num_sources)) /\
    ((num_sources <= 2 ^ 24)%Z -> vget c i = Some (S754_zero false)).
Proof.
  intros Hv Hi Hiso Hint Hrun.
  destruct (bc_forward Valid (Some A) sources num_sources w)
    as [w1 [[[n c0] st] | e |]] eqn:Efwd;
    try (unfold LAGraph_bc_batch, bind in Hrun; rewrite Efwd in Hrun; discriminate).
  pose proof (bc_forward_run _ _ _ _ _ _ Hv Efwd) as (Hn & Hc & Hloop).
  cbn [fst snd] in Hn, Hc, Hloop. subst n.
  rewrite (LAGraph_bc_batch_run A sources num_sources w w1 (nrows A) c0 st Hv Efwd) in Hrun.
  inversion Hrun as [[Hw Hcent]]. clear Hrun.
  destruct (forward_search_inv A sources num_sources w w1 st Hv Hloop) as [Hinv Hpos].
  destruct (valid_input_shaped _ _ _ Hv) as (HA & Hn & Hns).
  pose proof (no_out_edges_row A sources num_sources st i Hv Hi
                (fun j => proj1 (Hiso j))) as Hrow.
  destruct (ones_row_entry A sources num_sources st i Hv Hi Hrow ltac:(lia))
    as [Hsum Hval].
  exists w1. eexists. exists c0, st, (bc_update_of A num_sources st).
  split; [reflexivity |].
  split; [apply bc_backward_run; assumption |].
  split; [exact Hrow |]. split; [exact Hsum |]. split; [exact Hval |].
  intros Hle. rewrite Hval, offset_cancels by lia. reflexivity.
Qed.

(* ================================================================== *)
(** ** Sources without outgoing edges *)
(* ================================================================== *)

Section NoOutgoingEdges.

Variables (A : Matrix Z) (sources : Indices) (num_sources : Z).
Hypothesis Hvalid : valid_input A sources num_sources = true.
Hypothesis Hsink : forall k i, k < Z.to_nat num_sources -> i < nrows A ->
                               get A (source_of sources k) i = None.

Local Abbreviation n := (nrows A).
Local Abbreviation m := (Z.to_nat num_sources).
Local Abbreviation st0 := (init_state A sources num_sources).
Local Abbreviation st1 := (bfs_next n num_sources A desc_tsr_value st0).

Lemma init_frontier_empty (i k : nat) :
  i < n -> k < m -> get (init_frontier A sources num_sources) i k = None.
Proof.
  intros Hi Hk. rewrite (get_init_frontier _ _ _ _ _ Hvalid Hi Hk).
  rewrite (Hsink k i Hk Hi). destruct (_ =? _); reflexivity.
Qed.

Lemma first_frontier_empty : count_entries (bfs_frontier st1) = 0.
Proof.
  cbn [bfs_next bfs_frontier]. unfold next_frontier.
  apply (count_entries_write_result_0 _ _ _ _ _ n m).
  - cbn [init_state bfs_frontier]. unfold init_frontier.
    apply shaped_write_result. apply shaped_tabulate.
  - intros i k Hi Hk.
    rewrite (get_write_result _ _ _ _ _ n m)
      by (assumption || (cbn [init_state bfs_frontier]; unfold init_frontier;
                         apply shaped_write_result; apply shaped_tabulate)).
    cbn [mask_at option_map mask_scmp desc_tsr_value outp_replace xorb accumulate
         inp0_tran].
    destruct (mask_value _ _ i k); [reflexivity |].
    unfold mxm_result. apply dot_none_iff. intros u Hu. right.
    cbn [in_cols] in Hu. cbn [init_state bfs_frontier].
    apply init_frontier_empty; assumption.
Qed.

Lemma first_history_empty :
  count_entries (next_S n m (bfs_frontier st0)) = 0.
Proof.
  unfold next_S.
  apply (count_entries_write_result_0 _ _ _ _ _ n m); [apply shaped_tabulate |].
  intros i k Hi Hk.
  rewrite (get_write_result _ _ _ _ _ n m) by (assumption || apply shaped_tabulate).
  cbn [mask_at mask_scmp desc_default negb accumulate transpose_get].
  cbn [init_state bfs_frontier]. rewrite init_frontier_empty by assumption.
  reflexivity.
Qed.

Lemma forward_one_iteration (w : World) :
  exists w',
    bc_forward Valid (Some A) sources num_sources w =
    (w', Ret (n, vtabulate n (fun _ => None), st1)).
Proof.
  pose proof (valid_input_shaped _ _ _ Hvalid) as (HA & Hn & Hns).
  unfold bc_forward, bind.
  rewrite (bc_setup_run A sources num_sources w Hvalid).
  assert (Hl : forall slots, 0 < slots ->
            exists w',
              bfs_loop slots n num_sources (Some A) desc_tsr_value st0
                (setup_world sources w) = (w', Ret st1)).
  { intros [| slots] Hs; [lia |].
    cbn [bfs_loop]. unfold bind.
    rewrite (@bfs_body_run n num_sources A st0 (setup_world sources w) HA Hn Hns).
    - cbn [fst snd]. rewrite first_frontier_empty. cbn [Nat.eqb].
      eexists. reflexivity.
    - cbn [init_state bfs_paths]. apply shaped_tabulate.
    - cbn [init_state bfs_frontier]. unfold init_frontier.
      apply shaped_write_result. apply shaped_tabulate. }
  destruct (Hl n Hn) as [w' Hrun]. rewrite Hrun. exists w'. reflexivity.
Qed.

End NoOutgoingEdges.

(** C6, as the code has it.  When no selected source has an outgoing edge,
    the search loop still runs once: the depth counter ends at 1 and one
    depth matrix is recorded, which has no entry.  The backward loop then
    makes no pass: the backward phase issues only the seven calls that make
    its matrices and returns the update matrix filled with 1. *)
Theorem sources_without_out_edges (A : Matrix Z) (sources : Indices)
  (num_sources : Z) :
  valid_input A sources num_sources = true ->
  (forall k i, k < Z.to_nat num_sources -> i < nrows A ->
               get A (source_of sources k) i = None) ->
  forall w : World,
  exists w1 c st,
    bc_forward Valid (Some A) sources num_sources w = (w1, Ret (nrows A, c, st)) /\
    bfs_depth st = 1 /\
    (exists S0, bfs_S_array st = [S0] /\ count_entries S0 = 0) /\
    backward_indices (bfs_depth st) = [] /\
    exists w2,
      bc_backward (nrows A) num_sources (Some A) st w1 =
        (w2, Ret (ones_matrix (nrows A) (Z.to_nat num_sources))) /\
      calls w2 = calls w1 ++ backward_calls 0.
Proof.
  intros Hv Hsink w.
  destruct (forward_one_iteration A sources num_sources Hv Hsink w) as [w1 Hrun].
  pose proof (bc_forward_run _ _ _ _ _ _ Hv Hrun) as (_ & _ & Hloop).
  cbn [snd] in Hloop.
  destruct (forward_search_inv A sources num_sources w w1 _ Hv Hloop) as [Hinv Hpos].
  destruct (valid_input_shaped _ _ _ Hv) as (HA & Hn & Hns).
  exists w1. do 2 eexists. split; [exact Hrun |].
  split; [reflexivity |].
  split.
  - eexists. split; [reflexivity |].
    apply first_history_empty; assumption.
  - split; [reflexivity |].
    eexists. split.
    + rewrite (bc_backward_run A num_sources _ w1 HA Hn Hns Hinv Hpos). reflexivity.
    + reflexivity.
Qed.

(** C6 fails as stated: node 0 of [sink_graph] has no outgoing edge, and
    with node 0 as the only source the depth counter ends at 1, not 0, and a
    depth matrix is recorded. *)
Lemma sink_source_depth_one :
  exists w' c st,
    (forall i, i < nrows sink_graph -> get sink_graph 0 i = None) /\
    bc_forward Valid (Some sink_graph) (Index_list [0]) 1 world0 =
      (w', Ret (nrows sink_graph, c, st)) /\
    bfs_depth st <> 0 /\ bfs_S_array st <> [].
Proof.
  do 3 eexists. split.
  - intros i Hi. destruct i as [| [| i]]; [reflexivity | reflexivity |].
    cbn in Hi. lia.
  - split; [vm_compute; reflexivity |].
    split; [vm_compute; discriminate | vm_compute; discriminate].
Qed.

(** C9 fails as stated: every entry of [doubling_graph] is 1, there are
    2^63 shortest paths from node 0 to node 127, and the path count the
    search stores for this pair is - 2^63. *)
Lemma path_count_wraps_negative :
  unit_valued doubling_graph = true /\
  valid_input doubling_graph (Index_list [0]) 1 = true /\
  match snd (bc_forward Valid (Some doubling_graph) (Index_list [0]) 1 world0) with
  | Ret (_, _, st) => get (bfs_paths st) 127 0
  | _ => None
  end = Some (- 2 ^ 63)%Z.
Proof.
  split; [vm_compute; reflexivity |].
  split; [vm_compute; reflexivity |].
  vm_compute. reflexivity.
Qed.

(* ================================================================== *)
(** ** Invalid inputs *)
(* ================================================================== *)




(** The clean-up frees the handle [frontier] first.  On an exit before
    [frontier] was assigned the handle holds an indeterminate value. *)
Lemma error_exit_frees_unassigned_handle {X} (d : nat) (e : GrB_Info) (w : World) :
  assigned R_frontier w = false ->
  bind (LAGRAPH_FREE_ALL d) (fun _ => @raise X e) w = (w, Fault).
Proof.
  intros H. unfold bind, LAGRAPH_FREE_ALL. cbn [app free_handles]. rewrite H.
  reflexivity.
Qed.








(* ================================================================== *)
(** ** Properties of LAGraph_Vector_print *)
(* ================================================================== *)

(** C10, as the code has it.  A null vector or a null file gives
    [GrB_NULL_POINTER].  With both present and a negative print level
    nothing is written, and the status is [GrB_SUCCESS] when the type the
    printer uses is one of the eleven it has a function for: that is always
    so in a build without SuiteSparse, where the vector is printed as
    [GrB_FP64]; with SuiteSparse a vector of another type gives
    [GrB_NOT_IMPLEMENTED]. *)
Theorem vector_print_null_and_silent (LG_SUITESPARSE : bool)
  (v : option VectorPrint.GrB_Vector) (pr : Z) (f : Ptr) :
  (v = None \/ f = NULL ->
   VectorPrint.LAGraph_Vector_print LG_SUITESPARSE v pr f = (GrB_NULL_POINTER, [])) /\
  (forall vec, v = Some vec -> f = Valid -> (pr < 0)%Z ->
   VectorPrint.LAGraph_Vector_print LG_SUITESPARSE v pr f =
   (if LG_SUITESPARSE && negb (VectorPrint.is_printable (VectorPrint.v_type vec))
    then GrB_NOT_IMPLEMENTED else GrB_SUCCESS, [])).
Proof.
  split.
  - intros [-> | ->]; [reflexivity |]. destruct v; reflexivity.
  - intros vec -> -> Hpr. apply Z.ltb_lt in Hpr.
    unfold VectorPrint.LAGraph_Vector_print, VectorPrint.LG_ASSERT.
    destruct LG_SUITESPARSE; cbn [andb].
    + destruct (VectorPrint.v_type vec); cbn;
        unfold VectorPrint.LG_VECTOR_PRINT, VectorPrint.LG_ASSERT;
        try rewrite Hpr; reflexivity.
    + cbn. unfold VectorPrint.LG_VECTOR_PRINT, VectorPrint.LG_ASSERT.
      rewrite Hpr. reflexivity.
Qed.

(** C10 fails as stated: in a build with SuiteSparse, a vector of complex
    numbers, an open file and print level -1 give [GrB_NOT_IMPLEMENTED]. *)
Lemma vector_print_complex_not_implemented :
  VectorPrint.LAGraph_Vector_print true (Some VectorPrint.complex_vector) (-1) Valid
  = (GrB_NOT_IMPLEMENTED, []).
Proof. reflexivity. Qed.

(* ================================================================== *)
(** ** Walks, distances and shortest paths *)
(* ================================================================== *)

Lemma dist_some_iff (A : Matrix Z) (s t l : nat) :
  dist A s t = Some l <->
  l < nrows A /\ (0 < walks A l s t)%Z /\ forall l', l' < l -> walks A l' s t = 0%Z.
Proof.
  unfold dist. split.
  - intros H.
    pose proof (find_seq_spec (fun l => (0 <? walks A l s t)%Z) (nrows A)) as Hs.
    rewrite H in Hs. destruct Hs as (H1 & H2 & H3).
    repeat split; [exact H1 | apply Z.ltb_lt; exact H2 |].
    intros l' Hl'. specialize (H3 l' Hl'). apply Z.ltb_ge in H3.
    pose proof (walks_nonneg A l' s t). lia.
  - intros (H1 & H2 & H3). apply find_seq_first.
    + exact H1.
    + apply Z.ltb_lt. exact H2.
    + intros l' Hl'. apply Z.ltb_ge. rewrite H3 by exact Hl'. lia.
Qed.

Lemma level_iff_dist (A : Matrix Z) (s t d l : nat) :
  level A s t d = Some l <-> dist A s t = Some l /\ l <= d.
Proof.
  split.
  - intros H. split; [eapply level_dist; exact H |].
    apply level_some in H. apply H.
  - intros [H Hl]. apply dist_some_iff in H. destruct H as (_ & H2 & H3).
    apply level_first; assumption.
Qed.

Lemma dist_lt_rows (A : Matrix Z) (s t l : nat) :
  dist A s t = Some l -> t < nrows A.
Proof.
  intros H. apply dist_some_iff in H. destruct H as (_ & H & _).
  destruct (Nat.lt_ge_cases t (nrows A)) as [Ht | Ht]; [exact Ht |].
  rewrite walks_out in H by exact Ht. lia.
Qed.

(* ================================================================== *)
(** ** The state the search returns *)
(* ================================================================== *)

Lemma count_entries_0_get {V} (M : Matrix V) (i j : nat) :
  count_entries M = 0 -> get M i j = None.
Proof.
  unfold count_entries, get. rewrite length_zero_iff_nil, filter_nil_iff. intros H.
  destruct (nth_in_or_default j (nth i (cells M) []) None) as [Hin | Hd]; [| exact Hd].
  destruct (nth_in_or_default i (cells M) []) as [Hrow | Hd].
  - assert (Hc : In (nth j (nth i (cells M) []) None) (concat (cells M))).
    { apply in_concat. exists (nth i (cells M) []). split; assumption. }
    apply H in Hc. destruct (nth j (nth i (cells M) []) None); [discriminate | reflexivity].
  - rewrite Hd in Hin. destruct Hin.
Qed.

(** Below a node at distance [l] there is a node at every smaller distance. *)
Lemma dist_levels_below (A : Matrix Z) (s : nat) (l : nat) :
  forall t, dist A s t = Some l ->
  forall j, j <= l -> exists u, u < nrows A /\ dist A s u = Some j.
Proof.
  induction l as [| l IH]; intros t Ht j Hj.
  - exists t. split; [eapply dist_lt_rows; exact Ht |].
    replace j with 0 by lia. exact Ht.
  - destruct (Nat.eq_dec j (S l)) as [-> | Hne].
    + exists t. split; [eapply dist_lt_rows; exact Ht | exact Ht].
    + assert (Hlev : level A s t (S l) = Some (S l)).
      { apply level_iff_dist. split; [exact Ht | lia]. }
      destruct (level_pred _ _ _ _ Hlev) as (u & Hu & _ & Hlu).
      apply level_dist in Hlu. apply (IH u Hlu j). lia.
Qed.

Section FinalState.

Variables (A : Matrix Z) (sources : Indices) (num_sources : Z).
Hypothesis Hvalid : valid_input A sources num_sources = true.
Hypothesis Hunit : unit_valued A = true.

Local Abbreviation n := (nrows A).
Local Abbreviation m := (Z.to_nat num_sources).
Local Abbreviation src := (source_of sources).

Variable st : BFS.
Hypothesis Hcw : counts_walks A sources m st.
Hypothesis Hempty : count_entries (bfs_frontier st) = 0.
Hypothesis Hdepth : 1 <= bfs_depth st.

Local Abbreviation D := (bfs_depth st).

(** When the search stops, every reachable node is within the depth. *)
Lemma dist_within_depth (i k l : nat) :
  k < m -> dist A (src k) i = Some l -> l <= D.
Proof.
  intros Hk Hl. destruct (Nat.le_gt_cases l D) as [Hle | Hgt]; [exact Hle | exfalso].
  destruct (dist_levels_below A (src k) l i Hl (S D) ltac:(lia)) as (u & Hu & Hdu).
  pose proof (cw_frontier Hcw Hu Hk) as Hf.
  rewrite (count_entries_0_get _ u k Hempty) in Hf.
  assert (Hlev : level A (src k) u (S D) = Some (S D)).
  { apply level_iff_dist. split; [exact Hdu | lia]. }
  rewrite Hlev in Hf. cbn [at_level] in Hf. rewrite Nat.eqb_refl in Hf. discriminate.
Qed.

Lemma final_paths (i k : nat) :
  i < n -> k < m ->
  get (bfs_paths st) i k =
  option_map (fun _ => sigma A (src k) i) (dist A (src k) i).
Proof.
  intros Hi Hk. rewrite (cw_paths Hcw Hi Hk).
  destruct (level A (src k) i D) as [l |] eqn:El.
  - rewrite (level_dist _ _ _ _ _ El). cbn [option_map].
    rewrite (level_sigma _ _ _ _ _ El). reflexivity.
  - destruct (dist A (src k) i) as [l |] eqn:Ed; [| reflexivity].
    pose proof (dist_within_depth i k l Hk Ed) as Hle.
    rewrite (proj2 (level_iff_dist A (src k) i D l) (conj Ed Hle)) in El. discriminate.
Qed.

End FinalState.

(* ================================================================== *)
(** ** The stored values of the adjacency matrix *)
(* ================================================================== *)

(** C1.  The parameter [A_matrix] is commented "treated as if boolean in
    semiring", and the two matrix products multiply by its stored values.
    On the diamond 0 -> 1 -> 3, 0 -> 2 -> 3 with all the nodes as sources
    the function returns 0.5 for the nodes 1 and 2, which is their
    betweenness centrality, when every edge stores 1; when edge 0 -> 1
    stores 2 it returns 0.6666666666666666 for node 1 and
    0.3333333333333333 for node 2, for the same graph. *)
Theorem weighted_edge_changes_centrality :
  centrality_values (LAGraph_bc_batch Valid (Some (diamond 1)) GrB_ALL 4 world0)
    = Some [Some (S754_zero false);
            Some (S754_finite false 4503599627370496 (-53));
            Some (S754_finite false 4503599627370496 (-53));
            Some (S754_zero false)] /\
  centrality_values (LAGraph_bc_batch Valid (Some (diamond 2)) GrB_ALL 4 world0)
    = Some [Some (S754_zero false);
            Some (S754_finite false 6004799503160656 (-53));
            Some (S754_finite false 6004799503160656 (-54));
            Some (S754_zero false)] /\
  option_map Qred (fp64_value (S754_finite false 4503599627370496 (-53)))
    = Some (1 # 2)%Q /\
  map (fun v => this (betweenness (diamond 1) v)) [0; 1; 2; 3]
    = [0%Q; (1 # 2)%Q; (1 # 2)%Q; 0%Q] /\
  map (fun v => this (betweenness (diamond 2) v)) [0; 1; 2; 3]
    = [0%Q; (1 # 2)%Q; (1 # 2)%Q; 0%Q] /\
  map (fun v => map (edge (diamond 2) v) [0; 1; 2; 3]) [0; 1; 2; 3]
    = map (fun v => map (edge (diamond 1) v) [0; 1; 2; 3]) [0; 1; 2; 3].
Proof. repeat split; vm_compute; reflexivity. Qed.

(* ================================================================== *)
(** ** The functions that print with a given type *)
(* ================================================================== *)

Lemma print_type_printable (type : VectorPrint.GrB_Type)
  (v : option VectorPrint.GrB_Vector) (pr : Z) (f : Ptr) :
  VectorPrint.is_printable type = true ->
  VectorPrint.LAGraph_Vector_print_type v type pr f =
  VectorPrint.LG_VECTOR_PRINT type (fst (VectorText.formats_of type)) (snd (VectorText.formats_of type)) v pr f.
Proof. destruct type; intros H; try discriminate; reflexivity. Qed.

Lemma print_tuples_all (format : String.string) (ctype : VectorPrint.GrB_Type)
  (tuples : list (nat * Q)) :
  forall k, VectorPrint.print_tuples format ctype false k tuples =
            VectorText.tuple_lines format ctype tuples.
Proof.
  induction tuples as [| [i x] rest IH]; intros k; [reflexivity |].
  cbn [VectorPrint.print_tuples andb VectorText.tuple_lines flat_map fst snd].
  rewrite IH. reflexivity.
Qed.

Lemma print_tuples_summary (format : String.string) (ctype : VectorPrint.GrB_Type)
  (tuples : list (nat * Q)) :
  forall k, k <= 29 -> 29 - k < length tuples ->
    VectorPrint.print_tuples format ctype true k tuples =
    VectorText.tuple_lines format ctype (firstn (30 - k) tuples) ++ [VectorPrint.Out_ellipsis].
Proof.
  induction tuples as [| [i x] rest IH]; intros k Hk Hlen; cbn [length] in Hlen; [lia |].
  cbn [VectorPrint.print_tuples andb].
  replace (30 - k) with (S (29 - k)) by lia.
  cbn [firstn VectorText.tuple_lines flat_map fst snd].
  destruct (Nat.leb_spec 29 k) as [Hge | Hlt].
  - replace (29 - k) with 0 by lia. reflexivity.
  - rewrite (IH (S k)) by lia.
    replace (30 - S k) with (29 - k) by lia. reflexivity.
Qed.

(** At the print levels 0 and 1 only the header line is written: the name
    of the type the vector is printed with, the size and the number of
    entries.  No tuple is extracted, so this succeeds for a vector of any
    type. *)
Theorem print_type_header_only (type : VectorPrint.GrB_Type)
  (vec : VectorPrint.GrB_Vector) (pr : Z) :
  VectorPrint.is_printable type = true ->
  (0 <= pr <= 1)%Z ->
  VectorPrint.LAGraph_Vector_print_type (Some vec) type pr Valid =
  (GrB_SUCCESS,
   [VectorPrint.Out_header type (VectorPrint.v_size vec)
      (length (VectorPrint.v_tuples vec))]).
Proof.
  intros Ht Hpr. rewrite (print_type_printable type _ _ _ Ht).
  unfold VectorPrint.LG_VECTOR_PRINT, VectorPrint.LG_ASSERT.
  rewrite (proj2 (Z.ltb_ge pr 0)) by lia.
  rewrite (proj2 (Z.leb_le pr 1)) by lia. reflexivity.
Qed.

(** From level 2 on, when no summary is asked for (the level is not 2 or
    4, or the vector has at most 30 entries), the header is followed by one
    line per entry, in the order of the entries and all with one format:
    the first format of the type up to level 3, the second one above. *)
Theorem print_type_lists_all_entries (type : VectorPrint.GrB_Type)
  (vec : VectorPrint.GrB_Vector) (pr : Z) :
  VectorPrint.is_printable type = true ->
  VectorPrint.v_type vec <> VectorPrint.User_defined ->
  (2 <= pr)%Z ->
  (pr <> 2 /\ pr <> 4)%Z \/ length (VectorPrint.v_tuples vec) <= 30 ->
  let format := if (pr <=? 3)%Z then fst (VectorText.formats_of type) else snd (VectorText.formats_of type) in
  VectorPrint.LAGraph_Vector_print_type (Some vec) type pr Valid =
  (GrB_SUCCESS,
   VectorPrint.Out_header type (VectorPrint.v_size vec)
      (length (VectorPrint.v_tuples vec))
   :: VectorText.tuple_lines format type (VectorPrint.v_tuples vec)).
Proof.
  intros Ht Hu Hpr Hsum format.
  rewrite (print_type_printable type _ _ _ Ht).
  unfold VectorPrint.LG_VECTOR_PRINT, VectorPrint.LG_ASSERT.
  rewrite (proj2 (Z.ltb_ge pr 0)) by lia.
  rewrite (proj2 (Z.leb_gt pr 1)) by lia.
  replace (VectorPrint.is_user_defined (VectorPrint.v_type vec)) with false
    by (destruct (VectorPrint.v_type vec); try reflexivity; contradiction).
  cbn [negb].
  replace (((pr =? 2)%Z || (pr =? 4)%Z) && (30 <? length (VectorPrint.v_tuples vec)))
    with false.
  - rewrite print_tuples_all. reflexivity.
  - symmetry. destruct Hsum as [[H2 H4] | Hlen].
    + apply Z.eqb_neq in H2, H4. rewrite H2, H4. reflexivity.
    + apply Nat.ltb_ge in Hlen. rewrite Hlen. apply andb_false_r.
Qed.

(** At the levels 2 and 4 a vector with more than 30 entries is
    summarised: the header, the lines of the first 30 entries and a line
    with an ellipsis. *)
Theorem print_type_summary (type : VectorPrint.GrB_Type)
  (vec : VectorPrint.GrB_Vector) (pr : Z) :
  VectorPrint.is_printable type = true ->
  VectorPrint.v_type vec <> VectorPrint.User_defined ->
  (pr = 2 \/ pr = 4)%Z ->
  30 < length (VectorPrint.v_tuples vec) ->
  let format := if (pr <=? 3)%Z then fst (VectorText.formats_of type) else snd (VectorText.formats_of type) in
  let out := snd (VectorPrint.LAGraph_Vector_print_type (Some vec) type pr Valid) in
  VectorPrint.LAGraph_Vector_print_type (Some vec) type pr Valid =
  (GrB_SUCCESS,
   VectorPrint.Out_header type (VectorPrint.v_size vec)
      (length (VectorPrint.v_tuples vec))
   :: VectorText.tuple_lines format type (firstn 30 (VectorPrint.v_tuples vec))
   ++ [VectorPrint.Out_ellipsis]) /\
  length out = 92.
Proof.
  intros Ht Hu Hpr Hlen format out.
  assert (E : VectorPrint.LAGraph_Vector_print_type (Some vec) type pr Valid =
              (GrB_SUCCESS,
               VectorPrint.Out_header type (VectorPrint.v_size vec)
                 (length (VectorPrint.v_tuples vec))
               :: VectorText.tuple_lines format type (firstn 30 (VectorPrint.v_tuples vec))
               ++ [VectorPrint.Out_ellipsis])).
  { rewrite (print_type_printable type _ _ _ Ht).
    unfold VectorPrint.LG_VECTOR_PRINT, VectorPrint.LG_ASSERT.
    rewrite (proj2 (Z.ltb_ge pr 0)) by lia.
    rewrite (proj2 (Z.leb_gt pr 1)) by lia.
    replace (VectorPrint.is_user_defined (VectorPrint.v_type vec)) with false
      by (destruct (VectorPrint.v_type vec); try reflexivity; contradiction).
    cbn [negb].
    replace (((pr =? 2)%Z || (pr =? 4)%Z) && (30 <? length (VectorPrint.v_tuples vec)))
      with true.
    - rewrite print_tuples_summary by lia. reflexivity.
    - symmetry. apply Nat.ltb_lt in Hlen. rewrite Hlen.
      destruct Hpr as [-> | ->]; reflexivity. }
  split; [exact E |]. unfold out. rewrite E. cbn [snd].
  cbn [length]. rewrite length_app. cbn [length]. unfold VectorText.tuple_lines.
  rewrite (flat_map_constant_length (c := 3)) by reflexivity.
  rewrite length_firstn. lia.
Qed.

(** The levels 4 and 5 differ from the levels 2 and 3 for the two
    floating point types only: printing with any other type (the nine
    integer types have one format) gives the same status and the same text
    at level 4 as at level 2, and at level 5 as at level 3. *)
Theorem print_type_integer_levels (type : VectorPrint.GrB_Type)
  (v : option VectorPrint.GrB_Vector) (f : Ptr) :
  type <> VectorPrint.GrB_FP32 -> type <> VectorPrint.GrB_FP64 ->
  VectorPrint.LAGraph_Vector_print_type v type 4 f =
  VectorPrint.LAGraph_Vector_print_type v type 2 f /\
  VectorPrint.LAGraph_Vector_print_type v type 5 f =
  VectorPrint.LAGraph_Vector_print_type v type 3 f.
Proof.
  intros H32 H64. destruct type; try contradiction; split; reflexivity.
Qed.

(** A vector of a user-defined type cannot be listed: from level 2 on the
    header line is written, then the extraction of the tuples fails and
    the function returns [GrB_NOT_IMPLEMENTED] with the header already in
    the file. *)
Theorem print_type_user_defined_vector (type : VectorPrint.GrB_Type)
  (vec : VectorPrint.GrB_Vector) (pr : Z) :
  VectorPrint.is_printable type = true ->
  VectorPrint.v_type vec = VectorPrint.User_defined ->
  (2 <= pr)%Z ->
  VectorPrint.LAGraph_Vector_print_type (Some vec) type pr Valid =
  (GrB_NOT_IMPLEMENTED,
   [VectorPrint.Out_header type (VectorPrint.v_size vec)
      (length (VectorPrint.v_tuples vec))]).
Proof.
  intros Ht Hu Hpr. rewrite (print_type_printable type _ _ _ Ht).
  unfold VectorPrint.LG_VECTOR_PRINT, VectorPrint.LG_ASSERT.
  rewrite (proj2 (Z.ltb_ge pr 0)) by lia.
  rewrite (proj2 (Z.leb_gt pr 1)) by lia.
  rewrite Hu. reflexivity.
Qed.

(** The type is looked at before the arguments: with a type that is not
    one of the eleven built-in real types the function returns
    [GrB_NOT_IMPLEMENTED], also for a null vector or a null file; with one
    of the eleven a null vector or file gives [GrB_NULL_POINTER].  Nothing
    is written in both cases. *)
Theorem print_type_checks_type_first (type : VectorPrint.GrB_Type)
  (v : option VectorPrint.GrB_Vector) (pr : Z) (f : Ptr) :
  (VectorPrint.is_printable type = false ->
   VectorPrint.LAGraph_Vector_print_type v type pr f = (GrB_NOT_IMPLEMENTED, [])) /\
  (VectorPrint.is_printable type = true -> v = None \/ f = NULL ->
   VectorPrint.LAGraph_Vector_print_type v type pr f = (GrB_NULL_POINTER, [])).
Proof.
  split.
  - destruct type; intros H; try discriminate; reflexivity.
  - intros Ht Hnull. rewrite (print_type_printable type _ _ _ Ht).
    unfold VectorPrint.LG_VECTOR_PRINT, VectorPrint.LG_ASSERT.
    destruct Hnull as [-> | ->]; [reflexivity | destruct v; reflexivity].
Qed.

(* ================================================================== *)
(** ** Nodes no path passes through *)
(* ================================================================== *)

(** A node that is not recorded in the depth history keeps its initial
    dependency 1 in every pass of the backward phase. *)
Lemma backward_not_recorded (A : Matrix Z) S_array paths (i k : nat) :
  (forall d, recorded (S_at S_array d) i k = false) ->
  forall (l : list nat) (dep : Entries),
    dep i k = Some fp64_one ->
    fold_left (fun d j => backward_pass A S_array paths j d) l dep i k = Some fp64_one.
Proof.
  intros Hrec. induction l as [| j l IH]; intros dep Hdep; cbn [fold_left].
  - exact Hdep.
  - apply IH. unfold backward_pass, fold_credit, propagate.
    rewrite Hrec. exact Hdep.
Qed.

(** A node without incoming edges never enters the frontier, and so it is
    never recorded in the depth history. *)
Lemma no_in_edges_next (n : nat) (num_sources : Z) (A : Matrix Z) (st : BFS) (i : nat) :
  shaped A n n ->
  (forall j, get A j i = None) ->
  shaped (bfs_frontier st) n (Z.to_nat num_sources) ->
  (forall k, get (bfs_frontier st) i k = None) ->
  (forall d k, get (S_at (bfs_S_array st) d) i k = None) ->
  let st' := bfs_next n num_sources A desc_tsr_value st in
  (forall k, get (bfs_frontier st') i k = None) /\
  (forall d k, get (S_at (bfs_S_array st') d) i k = None).
Proof.
  intros HA Hin HF Hfr Hhist st'. unfold st'. cbn [bfs_next bfs_frontier bfs_S_array].
  split.
  - intros k.
    destruct (Nat.lt_ge_cases i n) as [Hi | Hi];
      [destruct (Nat.lt_ge_cases k (Z.to_nat num_sources)) as [Hk | Hk] |].
    + rewrite (get_next_frontier n (Z.to_nat num_sources)) by assumption.
      destruct (mask_value _ _ i k); [reflexivity |].
      unfold mxm_result. apply dot_none_iff. intros u _. left.
      unfold transpose_get. apply Hin.
    + apply (get_next_frontier_out n (Z.to_nat num_sources)); [exact HF | right; exact Hk].
    + apply (get_next_frontier_out n (Z.to_nat num_sources)); [exact HF | left; exact Hi].
  - intros d k.
    destruct (Nat.lt_trichotomy d (length (bfs_S_array st))) as [Hd | [Hd | Hd]].
    + rewrite S_at_app_old by exact Hd. apply Hhist.
    + subst d. rewrite S_at_app_new.
      destruct (Nat.lt_ge_cases i n) as [Hi | Hi];
        [destruct (Nat.lt_ge_cases k (Z.to_nat num_sources)) as [Hk | Hk] |].
      * rewrite get_next_S by assumption. rewrite Hfr. reflexivity.
      * apply get_next_S_out. right; exact Hk.
      * apply get_next_S_out. left; exact Hi.
    + apply S_at_beyond. rewrite length_app. cbn [length]. lia.
Qed.

Lemma no_in_edges_never_recorded (A : Matrix Z) (sources : Indices) (num_sources : Z)
  (w w' : World) (st : BFS) (i : nat) :
  valid_input A sources num_sources = true ->
  i < nrows A ->
  (forall j, get A j i = None) ->
  bfs_loop (nrows A) (nrows A) num_sources (Some A) desc_tsr_value
    (init_state A sources num_sources) (setup_world sources w) = (w', Ret st) ->
  forall d k, get (S_at (bfs_S_array st) d) i k = None.
Proof.
  intros Hv Hi Hin Hloop.
  destruct (valid_input_shaped _ _ _ Hv) as (HA & Hn & Hns).
  set (P := fun st : BFS =>
              search_inv (nrows A) (Z.to_nat num_sources) st /\
              (forall k, get (bfs_frontier st) i k = None) /\
              (forall d k, get (S_at (bfs_S_array st) d) i k = None)).
  destruct (bfs_loop_keeps P _ _ _ HA Hn Hns)
    with (slots := nrows A) (st := init_state A sources num_sources)
         (w := setup_world sources w) (w' := w') (st' := st) as [H1 _].
  - intros st0 [H _]. split; [apply (inv_paths_table H) | apply (inv_frontier_table H)].
  - intros st0 (H & Hf & Hh). split; [apply search_inv_next; exact H |].
    apply (no_in_edges_next (nrows A) num_sources A st0 i HA Hin
             (proj1 (inv_frontier_table H)) Hf Hh).
  - split; [apply search_inv_init |]. split.
    + intros k. cbn [init_state bfs_frontier].
      destruct (Nat.lt_ge_cases k (Z.to_nat num_sources)) as [Hk | Hk].
      * rewrite (get_init_frontier A sources num_sources i k Hv Hi Hk).
        rewrite Hin. destruct (source_of sources k =? i); reflexivity.
      * apply (proj2 (inv_frontier_table (search_inv_init A sources num_sources))).
        right. exact Hk.
    + intros d k. apply S_at_nil.
  - exact Hloop.
  - apply H1.
Qed.

(** No shortest path passes through a node without outgoing edges or
    without incoming edges.  Whatever the stored values of the adjacency
    matrix and the sources, a successful run with at most 2^24 sources
    gives such a node the centrality 0. *)
Theorem end_node_centrality_zero (A : Matrix Z) (sources : Indices)
  (num_sources : Z) (w w' : World) (c : Vector FP64) (i : nat) :
  valid_input A sources num_sources = true ->
  (num_sources <= 2 ^ 24)%Z ->
  i < nrows A ->
  (forall j, get A i j = None) \/ (forall j, get A j i = None) ->
  LAGraph_bc_batch Valid (Some A) sources num_sources w = (w', Ret c) ->
  vget c i = Some (S754_zero false).
Proof.
  intros Hv Hle Hi Hend Hrun.
  destruct (bc_forward Valid (Some A) sources num_sources w)
    as [w1 [[[n c0] st] | e |]] eqn:Efwd;
    try (unfold LAGraph_bc_batch, bind in Hrun; rewrite Efwd in Hrun; discriminate).
  pose proof (bc_forward_run _ _ _ _ _ _ Hv Efwd) as (Hn & Hc & Hloop).
  cbn [fst snd] in Hn, Hc, Hloop. subst n.
  rewrite (LAGraph_bc_batch_run A sources num_sources w w1 (nrows A) c0 st Hv Efwd) in Hrun.
  inversion Hrun as [[Hw Hcent]]. clear Hrun.
  destruct (valid_input_shaped _ _ _ Hv) as (HA & Hn & Hns).
  assert (Hrow : forall k, k < Z.to_nat num_sources ->
                           get (bc_update_of A num_sources st) i k = Some fp64_one).
  { intros k Hk. rewrite bc_update_of_spec by assumption.
    unfold backward_spec. destruct Hend as [Hout | Hin].
    - apply backward_no_out_edges; [exact Hout | reflexivity].
    - apply backward_not_recorded; [| reflexivity].
      intros d. unfold recorded.
      rewrite (no_in_edges_never_recorded A sources num_sources w w1 st i Hv Hi Hin Hloop).
      reflexivity. }
  destruct (ones_row_entry A sources num_sources st i Hv Hi Hrow ltac:(lia))
    as [_ Hval].
  rewrite Hval, offset_cancels by lia. reflexivity.
Qed.

(* ================================================================== *)
(** ** What the search returns *)
(* ================================================================== *)

Lemma count_entries_pos_get {V} (M : Matrix V) :
  count_entries M <> 0 -> exists i j, get M i j <> None.
Proof.
  unfold count_entries, get. intros H.
  destruct (filter is_some (concat (cells M))) as [| x l] eqn:E; [contradiction |].
  assert (Hx : In x (filter is_some (concat (cells M)))) by (rewrite E; left; reflexivity).
  apply filter_In in Hx. destruct Hx as [Hin Hsome].
  apply in_concat in Hin. destruct Hin as (row & Hrow & Hxrow).
  destruct (In_nth _ _ [] Hrow) as (i & _ & Hi).
  destruct (In_nth _ _ None Hxrow) as (j & _ & Hj).
  exists i, j. rewrite Hi, Hj. destruct x; [discriminate | discriminate].
Qed.

Section ForwardResult.

Variables (A : Matrix Z) (sources : Indices) (num_sources : Z).
Hypothesis Hvalid : valid_input A sources num_sources = true.
Hypothesis Hunit : unit_valued A = true.
Hypothesis Hno : no_overflow A sources num_sources = true.

Local Abbreviation n := (nrows A).
Local Abbreviation m := (Z.to_nat num_sources).
Local Abbreviation src := (source_of sources).

(** The forward phase returns a state that counts shortest walks, with an
    empty frontier, and whose depth is 1 or the distance of some node. *)
Lemma bc_forward_result (w : World) :
  exists w' st,
    bc_forward Valid (Some A) sources num_sources w =
    (w', Ret (n, vtabulate n (fun _ => None), st)) /\
    counts_walks A sources m st /\
    1 <= bfs_depth st /\
    count_entries (bfs_frontier st) = 0 /\
    (bfs_depth st = 1 \/
     exists i k, i < n /\ k < m /\ dist A (src k) i = Some (bfs_depth st)).
Proof.
  destruct (bc_forward_returns A sources num_sources Hvalid Hunit Hno w)
    as (w' & st & Hrun & Hcw & Hd & Hz).
  exists w', st. split; [exact Hrun |]. split; [exact Hcw |].
  split; [lia |]. split; [exact Hz |].
  destruct (bc_forward_run _ _ _ _ _ _ Hvalid Hrun) as (_ & _ & Hloop).
  cbn [snd] in Hloop.
  destruct (valid_input_shaped _ _ _ Hvalid) as (HA & Hn & Hns).
  destruct (bfs_loop_trace (counts_walks A sources m) n num_sources A HA Hn Hns)
    with (slots := n) (st := init_state A sources num_sources)
         (w := setup_world sources w) (w' := w') (st' := st)
    as (_ & (st1 & Hcw1 & E1 & Hor) & _).
  - intros st0 H. split; [apply (cw_paths_table H) | apply (cw_frontier_table H)].
  - intros st0 H. apply (counts_walks_next A sources num_sources Hvalid Hunit Hno st0 H).
  - apply (counts_walks_init A sources num_sources Hvalid Hunit).
  - exact Hloop.
  - destruct Hor as [-> | [Hne Hlt]]; [left; rewrite E1; reflexivity | right].
    destruct (count_entries_pos_get _ Hne) as (i & k & Hik).
    destruct (cw_frontier_table Hcw1) as [_ Hout].
    assert (Hi : i < n).
    { destruct (Nat.lt_ge_cases i n) as [H | H]; [exact H |].
      exfalso. apply Hik. apply Hout. left; exact H. }
    assert (Hk : k < m).
    { destruct (Nat.lt_ge_cases k m) as [H | H]; [exact H |].
      exfalso. apply Hik. apply Hout. right; exact H. }
    exists i, k. split; [exact Hi |]. split; [exact Hk |].
    rewrite (cw_frontier Hcw1 Hi Hk) in Hik.
    destruct (level A (src k) i (S (bfs_depth st1))) as [l |] eqn:El;
      cbn [at_level] in Hik; [| contradiction].
    destruct (Nat.eqb_spec l (S (bfs_depth st1))) as [-> | Hl]; [| contradiction].
    rewrite E1. cbn [bfs_next bfs_depth].
    replace (bfs_depth st1 + 1) with (S (bfs_depth st1)) by lia.
    eapply level_dist. exact El.
Qed.

End ForwardResult.

(** The search counts the shortest paths.  For a graph whose edges store 1
    and whose counts stay below 2^63, the path-count matrix the forward
    phase returns has an entry for node i in column k exactly when i can be
    reached from the source of column k, and the entry is the number of
    shortest paths from that source to i. *)
Theorem forward_path_counts (A : Matrix Z) (sources : Indices) (num_sources : Z)
  (w : World) :
  valid_input A sources num_sources = true ->
  unit_valued A = true ->
  no_overflow A sources num_sources = true ->
  exists w' c st,
    bc_forward Valid (Some A) sources num_sources w = (w', Ret (nrows A, c, st)) /\
    forall i k, i < nrows A -> k < Z.to_nat num_sources ->
      get (bfs_paths st) i k =
      match dist A (source_of sources k) i with
      | Some _ => Some (sigma A (source_of sources k) i)
      | None => None
      end.
Proof.
  intros Hv Hu Hno.
  destruct (bc_forward_result A sources num_sources Hv Hu Hno w)
    as (w' & st & Hrun & Hcw & Hd & Hz & _).
  exists w', (vtabulate (nrows A) (fun _ => None)), st. split; [exact Hrun |].
  intros i k Hi Hk.
  rewrite (final_paths A sources num_sources st Hcw Hz Hd i k Hi Hk).
  destruct (dist A (source_of sources k) i); reflexivity.
Qed.

(** The depth history records the levels of the search.  Matrix j of the
    history stores true for node i in column k when the distance from the
    source of column k to i is j + 1, and has no entry there otherwise: the
    sources themselves are in no matrix of the history. *)
Theorem depth_history_levels (A : Matrix Z) (sources : Indices) (num_sources : Z)
  (w : World) :
  valid_input A sources num_sources = true ->
  unit_valued A = true ->
  no_overflow A sources num_sources = true ->
  exists w' c st,
    bc_forward Valid (Some A) sources num_sources w = (w', Ret (nrows A, c, st)) /\
    length (bfs_S_array st) = bfs_depth st /\
    forall j i k, j < bfs_depth st -> i < nrows A -> k < Z.to_nat num_sources ->
      get (S_at (bfs_S_array st) j) i k =
      if dist_is A (source_of sources k) i (S j) then Some true else None.
Proof.
  intros Hv Hu Hno.
  destruct (bc_forward_result A sources num_sources Hv Hu Hno w)
    as (w' & st & Hrun & Hcw & Hd & Hz & _).
  exists w', (vtabulate (nrows A) (fun _ => None)), st. split; [exact Hrun |].
  split; [apply (cw_history_length Hcw) |].
  intros j i k Hj Hi Hk. rewrite (cw_history Hcw Hj Hi Hk).
  unfold dist_is.
  destruct (level A (source_of sources k) i (S j)) as [l |] eqn:El; cbn [at_level].
  - rewrite (level_dist _ _ _ _ _ El). reflexivity.
  - destruct (dist A (source_of sources k) i) as [l |] eqn:Ed; [| reflexivity].
    destruct (Nat.eqb_spec l (S j)) as [-> | Hne]; [| reflexivity].
    rewrite (proj2 (level_iff_dist A _ i (S j) (S j)) (conj Ed (Nat.le_refl _))) in El.
    discriminate.
Qed.

(** The depth counter ends at the largest distance from a source to a node
    it reaches, or at 1 when that distance is 0: no reachable node is
    further from its source than the final depth, and a final depth above 1
    is the distance of some node from a source. *)
Theorem final_depth_is_largest_distance (A : Matrix Z) (sources : Indices)
  (num_sources : Z) (w : World) :
  valid_input A sources num_sources = true ->
  unit_valued A = true ->
  no_overflow A sources num_sources = true ->
  exists w' c st,
    bc_forward Valid (Some A) sources num_sources w = (w', Ret (nrows A, c, st)) /\
    1 <= bfs_depth st /\
    (forall i k l, k < Z.to_nat num_sources ->
       dist A (source_of sources k) i = Some l -> l <= bfs_depth st) /\
    (1 < bfs_depth st ->
     exists i k, i < nrows A /\ k < Z.to_nat num_sources /\
                 dist A (source_of sources k) i = Some (bfs_depth st)).
Proof.
  intros Hv Hu Hno.
  destruct (bc_forward_result A sources num_sources Hv Hu Hno w)
    as (w' & st & Hrun & Hcw & Hd & Hz & Hlast).
  exists w', (vtabulate (nrows A) (fun _ => None)), st. split; [exact Hrun |].
  split; [exact Hd |]. split.
  - intros i k l Hk Hl.
    exact (dist_within_depth A sources num_sources st Hcw Hz Hd i k l Hk Hl).
  - intros H1. destruct Hlast as [E | H]; [lia | exact H].
Qed.

(* ================================================================== *)
(** ** Objects and calls of a run *)
(* ================================================================== *)

Lemma existsb_depth_history (r : Res) (depth : nat) :
  existsb (fun x => if Res_eq_dec x r then true else false) (map R_S (seq 0 depth)) =
  match r with R_S d => d <? depth | _ => false end.
Proof.
  destruct (existsb _ _) eqn:E.
  - apply existsb_exists in E. destruct E as (x & Hx & Ex).
    apply in_map_iff in Hx. destruct Hx as (d & <- & Hd). apply in_seq in Hd.
    destruct (Res_eq_dec (R_S d) r) as [<- | Hne]; [| discriminate].
    symmetry. apply Nat.ltb_lt. lia.
  - destruct r as [| | | | | | | | d | | | |]; try reflexivity.
    symmetry. apply Nat.ltb_ge.
    destruct (Nat.le_gt_cases depth d) as [H | H]; [exact H | exfalso].
    assert (Ht : existsb (fun x => if Res_eq_dec x (R_S d) then true else false)
                   (map R_S (seq 0 depth)) = true).
    { apply existsb_exists. exists (R_S d). split.
      - apply in_map. apply in_seq. lia.
      - destruct (Res_eq_dec (R_S d) (R_S d)); [reflexivity | contradiction]. }
    rewrite Ht in E. discriminate.
Qed.

(** What [LAGRAPH_FREE_ALL] leaves of a list of objects. *)
Lemma release_FREE_ALL (depth : nat) (l : list Res) :
  filter (fun r => negb (existsb (fun x => if Res_eq_dec x r then true else false)
                           ([R_frontier; R_paths; R_inv_paths; R_bc_update; R_desc_tsr;
                             R_replace; R_temp] ++ map R_S (seq 0 depth) ++ [R_S_array])))
         l =
  filter (fun r => match r with
                   | R_frontier | R_paths | R_inv_paths | R_bc_update | R_desc_tsr
                   | R_replace | R_temp | R_S_array => false
                   | R_S d => negb (d <? depth)
                   | _ => true
                   end) l.
Proof.
  apply filter_ext. intros r.
  rewrite !existsb_app, existsb_depth_history.
  destruct r; cbn; try reflexivity.
  rewrite orb_false_r. reflexivity.
Qed.

Lemma live_setup_world (sources : Indices) (w : World) :
  live w = [] ->
  live (setup_world sources w) =
  [R_centrality; R_desc_tsr; R_paths; R_frontier; R_S_array].
Proof.
  intros Hw. unfold setup_world, release. cbn [live calls]. rewrite Hw.
  destruct sources; reflexivity.
Qed.

(** The world a successful run on a valid input leaves. *)
Lemma LAGraph_bc_batch_world (A : Matrix Z) (sources : Indices) (num_sources : Z)
  (w w' : World) (c : Vector FP64) :
  valid_input A sources num_sources = true ->
  LAGraph_bc_batch Valid (Some A) sources num_sources w = (w', Ret c) ->
  exists w1 c0 st,
    bc_forward Valid (Some A) sources num_sources w = (w1, Ret (nrows A, c0, st)) /\
    1 <= bfs_depth st /\
    live w1 = live (setup_world sources w) ++ map R_S (seq 0 (bfs_depth st)) /\
    calls w1 = calls (setup_world sources w) ++
               concat (repeat [Call_Matrix_new; Call_apply; Call_eWiseAdd; Call_mxm;
                               Call_Matrix_nvals] (bfs_depth st)) /\
    w' = release ([R_frontier; R_paths; R_inv_paths; R_bc_update; R_desc_tsr;
                   R_replace; R_temp] ++ map R_S (seq 0 (bfs_depth st)) ++ [R_S_array])
           (mkWorld (calls w1 ++ backward_calls (bfs_depth st - 1) ++
                     [Call_assign; Call_reduce])
                    (live w1 ++ [R_inv_paths; R_bc_update; R_replace; R_temp])).
Proof.
  intros Hv Hrun.
  destruct (bc_forward Valid (Some A) sources num_sources w)
    as [w1 [[[n c0] st] | e |]] eqn:Efwd;
    try (unfold LAGraph_bc_batch, bind in Hrun; rewrite Efwd in Hrun; discriminate).
  pose proof (bc_forward_run _ _ _ _ _ _ Hv Efwd) as (Hn & Hc & Hloop).
  cbn [fst snd] in Hn, Hc, Hloop. subst n.
  rewrite (LAGraph_bc_batch_run A sources num_sources w w1 (nrows A) c0 st Hv Efwd) in Hrun.
  inversion Hrun as [[Hw Hcent]]. clear Hrun.
  destruct (forward_search_inv A sources num_sources w w1 st Hv Hloop) as [_ Hpos].
  destruct (@bc_forward_world A sources num_sources w w1 (nrows A) c0 st Hv Efwd)
    as [Hl Hcalls].
  exists w1, c0, st. split; [reflexivity |]. split; [lia |].
  split; [exact Hl |]. split; [exact Hcalls |].
  unfold final_world. rewrite LAGRAPH_FREE_ALL_run; [reflexivity |].
  intros r Hr. apply (@handles_assigned_at_end sources w w1 (bfs_depth st)); assumption.
Qed.

(** A successful run frees what it allocated.  Started with no live
    object, it ends with the result vector as the only one: the two
    descriptors, the work matrices, every matrix of the depth history and
    the array that holds them have been freed. *)
Theorem successful_run_frees_work_objects (A : Matrix Z) (sources : Indices)
  (num_sources : Z) (w w' : World) (c : Vector FP64) :
  valid_input A sources num_sources = true ->
  live w = [] ->
  LAGraph_bc_batch Valid (Some A) sources num_sources w = (w', Ret c) ->
  live w' = [R_centrality].
Proof.
  intros Hv Hw Hrun.
  destruct (LAGraph_bc_batch_world A sources num_sources w w' c Hv Hrun)
    as (w1 & c0 & st & _ & _ & Hl & _ & ->).
  unfold release. cbn [fst live calls].
  rewrite release_FREE_ALL, Hl, (live_setup_world sources w Hw).
  rewrite !filter_app. cbn [filter app].
  replace (filter _ (map R_S (seq 0 (bfs_depth st)))) with (@nil Res); [reflexivity |].
  symmetry. apply filter_nil_iff. intros r Hr.
  apply in_map_iff in Hr. destruct Hr as (d & <- & Hd). apply in_seq in Hd.
  apply negb_false_iff. apply Nat.ltb_lt. lia.
Qed.

(** The number of GraphBLAS operations of a successful run (the calls to
    GrB_free apart) depends on the depth of the search only: ten calls of
    the set-up, five per iteration of the search, seven before the backward
    loop, three per pass of it and two for the reduction, that is
    8 * depth + 16 calls. *)
Theorem successful_run_number_of_calls (A : Matrix Z) (sources : Indices)
  (num_sources : Z) (w w' : World) (c : Vector FP64) :
  valid_input A sources num_sources = true ->
  LAGraph_bc_batch Valid (Some A) sources num_sources w = (w', Ret c) ->
  exists w1 c0 st,
    bc_forward Valid (Some A) sources num_sources w = (w1, Ret (nrows A, c0, st)) /\
    length (calls w') = length (calls w) + 8 * bfs_depth st + 16.
Proof.
  intros Hv Hrun.
  destruct (LAGraph_bc_batch_world A sources num_sources w w' c Hv Hrun)
    as (w1 & c0 & st & Hfwd & Hd & _ & Hc & ->).
  exists w1, c0, st. split; [exact Hfwd |].
  unfold release. cbn [fst live calls].
  rewrite Hc. unfold setup_world, backward_calls. cbn [calls].
  rewrite !length_app.
  rewrite !(length_concat), !map_repeat. cbn [length].
  assert (Hsum : forall x k, list_sum (repeat x k) = x * k).
  { intros x k. induction k as [| k IH]; [cbn; lia |].
    change (list_sum (repeat x (S k))) with (x + list_sum (repeat x k)).
    rewrite IH, Nat.mul_succ_r. lia. }
  rewrite !Hsum. lia.
Qed.

(* ================================================================== *)
(** ** The set-up *)
(* ================================================================== *)

Lemma bind_fault {X Y} (mx : M X) (f : X -> M Y) (w w' : World) :
  mx w = (w', Fault) -> bind mx f w = (w', Fault).
Proof. intros H. unfold bind. rewrite H. reflexivity. Qed.

(** The state the set-up hands to the search.  Column k of the path
    counts holds the single entry 1, in the row of source k; column k of
    the frontier holds the entries of row source k of the adjacency matrix,
    converted to 64 bit integers, except the entry of a loop at the
    source. *)
Theorem setup_paths_and_frontier (A : Matrix Z) (sources : Indices)
  (num_sources : Z) (w : World) :
  valid_input A sources num_sources = true ->
  exists w' c d st0,
    bc_setup Valid (Some A) sources num_sources w = (w', Ret (nrows A, c, d, st0)) /\
    bfs_depth st0 = 0 /\ bfs_S_array st0 = [] /\
    forall i k, i < nrows A -> k < Z.to_nat num_sources ->
      get (bfs_paths st0) i k =
        (if source_of sources k =? i then Some 1%Z else None) /\
      get (bfs_frontier st0) i k =
        (if source_of sources k =? i then None
         else option_map wrap64 (get A (source_of sources k) i)).
Proof.
  intros Hv. do 4 eexists. split; [apply (bc_setup_run A sources num_sources w Hv) |].
  split; [reflexivity |]. split; [reflexivity |].
  intros i k Hi Hk. cbn [init_state bfs_paths bfs_frontier]. split.
  - apply get_init_paths; assumption.
  - apply get_init_frontier; assumption.
Qed.

(** With [GrB_ALL] the array s_all has one element per node.  When the
    number of sources is larger than the number of nodes,
    [GrB_Matrix_build] is told to take more tuples than s_all holds: the
    run reads past the end of the array. *)
Theorem all_sources_count_above_nodes (A : Matrix Z) (num_sources : Z) (w : World) :
  0 < nrows A ->
  (Z.of_nat (nrows A) < num_sources)%Z ->
  snd (LAGraph_bc_batch Valid (Some A) GrB_ALL num_sources w) = Fault /\
  calls (fst (LAGraph_bc_batch Valid (Some A) GrB_ALL num_sources w)) =
  calls w ++ [Call_Matrix_nrows; Call_Vector_new; Call_Descriptor_new;
              Call_Descriptor_set; Call_Descriptor_set; Call_Descriptor_set;
              Call_Matrix_new; Call_Matrix_build].
Proof.
  intros Hn Hns.
  assert (E : exists w', LAGraph_bc_batch Valid (Some A) GrB_ALL num_sources w = (w', Fault) /\
                         calls w' =
                         calls w ++ [Call_Matrix_nrows; Call_Vector_new; Call_Descriptor_new;
                                     Call_Descriptor_set; Call_Descriptor_set;
                                     Call_Descriptor_set; Call_Matrix_new;
                                     Call_Matrix_build]).
  { eexists. split.
    - unfold LAGraph_bc_batch. apply bind_fault.
      unfold bc_forward. apply bind_fault.
      unfold bc_setup.
      unfold GrB_Matrix_nrows. erewrite bind_OK_method by reflexivity.
      rewrite bind_OK_Vector_new by lia. rewrite Nat2Z.id.
      rewrite bind_OK_Descriptor_new.
      unfold GrB_Descriptor_set.
      do 3 (erewrite bind_OK_method by reflexivity).
      unfold malloc. rewrite !bind_alloc.
      rewrite bind_OK_Matrix_new by lia. rewrite Nat2Z.id.
      apply bind_fault. rewrite bind_alloc. apply bind_fault.
      unfold GrB_Matrix_build, read_array. rewrite length_seq.
      rewrite (proj2 (Nat.leb_gt (Z.to_nat num_sources) (nrows A))) by lia.
      unfold LAGRAPH_OK, bind, log, fault. cbn [calls live]. reflexivity.
    - cbn [calls]. rewrite <- !app_assoc. reflexivity. }
  destruct E as (w' & -> & Hc). split; [reflexivity | exact Hc].
Qed.

(* ================================================================== *)
(** ** The inverse of the path counts *)
(* ================================================================== *)


(* ================================================================== *)
(** ** The constant of the reduction *)
(* ================================================================== *)

(** A list that names one source [N] times. *)
Lemma valid_input_repeat (A : Matrix Z) (s : nat) (N : Z) :
  0 < nrows A -> ncols A = nrows A -> s < nrows A -> (0 < N)%Z ->
  valid_input A (Index_list (repeat s (Z.to_nat N))) N = true.
Proof.
  intros Hn Hsq Hs HN. unfold valid_input.
  rewrite (proj2 (Nat.ltb_lt 0 (nrows A)) Hn).
  rewrite (proj2 (Nat.eqb_eq _ _) Hsq).
  rewrite (proj2 (Z.ltb_lt 0 N) HN).
  rewrite repeat_length, Nat.leb_refl.
  rewrite firstn_all2 by (rewrite repeat_length; apply Nat.le_refl).
  cbn [andb]. apply forallb_forall. intros x Hx.
  apply repeat_spec in Hx. subst x. apply Nat.ltb_lt. exact Hs.
Qed.

Lemma no_overflow_repeat (A : Matrix Z) (s : nat) (N : Z) :
  (forall i, i < nrows A -> (sigma A s i < 2 ^ 63)%Z) ->
  no_overflow A (Index_list (repeat s (Z.to_nat N))) N = true.
Proof.
  intros H. unfold no_overflow.
  apply forallb_forall. intros k Hk. apply in_seq in Hk.
  apply forallb_forall. intros i Hi. apply in_seq in Hi.
  apply Z.ltb_lt. cbn [source_of].
  assert (E : nth k (repeat s (Z.to_nat N)) 0 = s).
  { apply (repeat_spec (Z.to_nat N)). apply nth_In. rewrite repeat_length. lia. }
  rewrite E. apply H. lia.
Qed.

(** A run with one source named [N] times, at a node without outgoing
    edges. *)
Lemma repeated_source_run (A : Matrix Z) (s i : nat) (N : Z) (w : World) :
  0 < nrows A -> ncols A = nrows A -> s < nrows A ->
  unit_valued A = true ->
  (forall t, t < nrows A -> (sigma A s t < 2 ^ 63)%Z) ->
  (0 < N < 2 ^ 53)%Z ->
  i < nrows A ->
  (forall j, get A i j = None) ->
  exists w' c w1 w2 c0 st bc_update,
    valid_input A (Index_list (repeat s (Z.to_nat N))) N = true /\
    LAGraph_bc_batch Valid (Some A) (Index_list (repeat s (Z.to_nat N))) N w =
      (w', Ret c) /\
    bc_forward Valid (Some A) (Index_list (repeat s (Z.to_nat N))) N w =
      (w1, Ret (nrows A, c0, st)) /\
    bc_backward (nrows A) N (Some A) st w1 = (w2, Ret bc_update) /\
    (forall k, k < Z.to_nat N -> get bc_update i k = Some fp64_one) /\
    row_total bc_update i (Z.to_nat N) = Some (fp64_of_Z N) /\
    vget c i =
    Some (plus_fp64 (fp32_to_fp64 (SFopp (int32_to_fp32 N))) (fp64_of_Z N)).
Proof.
  intros Hn Hsq Hs Hu Hsig HN Hi Hout.
  set (sources := Index_list (repeat s (Z.to_nat N))).
  assert (Hv : valid_input A sources N = true)
    by (apply valid_input_repeat; [exact Hn | exact Hsq | exact Hs | lia]).
  assert (Hno : no_overflow A sources N = true)
    by (apply no_overflow_repeat; exact Hsig).
  destruct (bc_forward_returns A sources N Hv Hu Hno w)
    as (w1 & st & Hfwd & Hcw & Hd & Hz).
  pose proof (bc_forward_run _ _ _ _ _ _ Hv Hfwd) as (_ & _ & Hloop).
  cbn [fst snd] in Hloop.
  destruct (forward_search_inv A sources N w w1 st Hv Hloop) as [Hinv Hpos].
  destruct (valid_input_shaped _ _ _ Hv) as (HA & _ & Hns).
  pose proof (no_out_edges_row A sources N st i Hv Hi Hout) as Hrow.
  destruct (ones_row_entry A sources N st i Hv Hi Hrow ltac:(lia)) as [Hsum Hval].
  eexists. eexists. exists w1. eexists. eexists. exists st, (bc_update_of A N st).
  split; [exact Hv |].
  split; [exact (LAGraph_bc_batch_run A sources N w w1 _ _ st Hv Hfwd) |].
  split; [exact Hfwd |].
  split; [apply bc_backward_run; assumption |].
  split; [exact Hrow |]. split; [exact Hsum | exact Hval].
Qed.

(** C8.  The comment of the reduction says that the result vector is
    initialised with - (num_sources), and the code stores
    - (float) num_sources.  With 2^24 + 1 sources the float is 2^24: on
    the graph with the edge 1 -> 0 and node 0 named 16777217 times as the
    source, every entry of row 0 of the update matrix is 1, the sum of the
    row is 16777217, the constant stored is - 16777216 and entry 0 of
    the result is 1, where - num_sources plus the sum of the row is 0. *)
Theorem float_constant_misses_num_sources :
  exists w' c w1 w2 c0 st bc_update,
    valid_input sink_graph (Index_list (repeat 0 (Z.to_nat 16777217))) 16777217 = true /\
    LAGraph_bc_batch Valid (Some sink_graph)
      (Index_list (repeat 0 (Z.to_nat 16777217))) 16777217 world0 = (w', Ret c) /\
    bc_forward Valid (Some sink_graph)
      (Index_list (repeat 0 (Z.to_nat 16777217))) 16777217 world0 =
      (w1, Ret (nrows sink_graph, c0, st)) /\
    bc_backward (nrows sink_graph) 16777217 (Some sink_graph) st w1 =
      (w2, Ret bc_update) /\
    (forall k, k < Z.to_nat 16777217 -> get bc_update 0 k = Some (fp64_of_Z 1)) /\
    row_total bc_update 0 (Z.to_nat 16777217) = Some (fp64_of_Z 16777217) /\
    fp32_to_fp64 (SFopp (int32_to_fp32 16777217)) = fp64_of_Z (- 16777216) /\
    vget c 0 = Some (fp64_of_Z 1).
Proof.
  assert (Hout : forall j, get sink_graph 0 j = None).
  { intros j. destruct j as [| [| j]]; try reflexivity. destruct j; reflexivity. }
  assert (Hsig : forall t, t < nrows sink_graph -> (sigma sink_graph 0 t < 2 ^ 63)%Z).
  { intros t Ht. destruct t as [| [| t]]; [reflexivity | reflexivity |].
    exfalso. revert Ht. apply Nat.le_ngt. cbn [sink_graph graph_of_edges tabulate nrows].
    apply le_n_S, le_n_S, Nat.le_0_l. }
  assert (Hn : 0 < nrows sink_graph) by apply Nat.lt_0_succ.
  assert (HN : (0 < 16777217 < 2 ^ 53)%Z) by (split; reflexivity).
  destruct (repeated_source_run sink_graph 0 0 16777217 world0
              Hn eq_refl Hn eq_refl Hsig HN Hn Hout)
    as (w' & c & w1 & w2 & c0 & st & bc_update & Hv & Hrun & Hfwd & Hbwd & Hrow &
        Hsum & Hval).
  exists w', c, w1, w2, c0, st, bc_update.
  split; [exact Hv |]. split; [exact Hrun |]. split; [exact Hfwd |].
  split; [exact Hbwd |]. split; [exact Hrow |]. split; [exact Hsum |].
  split; [reflexivity |]. rewrite Hval. reflexivity.
Qed.

(** C7.  The same constant decides the entry of an isolated node: with
    node 0 named 16777217 times as the source on the graph of three nodes
    with the edge 0 -> 1, node 2 has no incident edge, row 2 of the update
    matrix holds 16777217 ones, and entry 2 of the result is
    - 16777216 + 16777217 = 1, not 0. *)
Theorem isolated_node_with_many_sources :
  exists w' c w1 w2 c0 st bc_update,
    valid_input isolated_graph
      (Index_list (repeat 0 (Z.to_nat 16777217))) 16777217 = true /\
    (forall j, get isolated_graph 2 j = None /\ get isolated_graph j 2 = None) /\
    LAGraph_bc_batch Valid (Some isolated_graph)
      (Index_list (repeat 0 (Z.to_nat 16777217))) 16777217 world0 = (w', Ret c) /\
    bc_forward Valid (Some isolated_graph)
      (Index_list (repeat 0 (Z.to_nat 16777217))) 16777217 world0 =
      (w1, Ret (nrows isolated_graph, c0, st)) /\
    bc_backward (nrows isolated_graph) 16777217 (Some isolated_graph) st w1 =
      (w2, Ret bc_update) /\
    (forall k, k < Z.to_nat 16777217 -> get bc_update 2 k = Some (fp64_of_Z 1)) /\
    row_total bc_update 2 (Z.to_nat 16777217) = Some (fp64_of_Z 16777217) /\
    vget c 2 =
    Some (plus_fp64 (fp32_to_fp64 (SFopp (int32_to_fp32 16777217)))
                    (fp64_of_Z 16777217)) /\
    vget c 2 = Some (fp64_of_Z 1).
Proof.
  assert (H : forall j, get isolated_graph 2 j = None /\ get isolated_graph j 2 = None).
  { intros j. destruct j as [| [| [| j]]]; split; try reflexivity.
    - destruct j; reflexivity.
    - destruct j; reflexivity. }
  assert (Hsig : forall t, t < nrows isolated_graph ->
                           (sigma isolated_graph 0 t < 2 ^ 63)%Z).
  { intros t Ht. destruct t as [| [| [| t]]]; [reflexivity | reflexivity | reflexivity |].
    exfalso. revert Ht. apply Nat.le_ngt.
    cbn [isolated_graph graph_of_edges tabulate nrows].
    apply le_n_S, le_n_S, le_n_S, Nat.le_0_l. }
  assert (Hn : 0 < nrows isolated_graph) by apply Nat.lt_0_succ.
  assert (Hi : 2 < nrows isolated_graph) by apply Nat.lt_succ_diag_r.
  assert (HN : (0 < 16777217 < 2 ^ 53)%Z) by (split; reflexivity).
  destruct (repeated_source_run isolated_graph 0 2 16777217 world0
              Hn eq_refl Hn eq_refl Hsig HN Hi (fun j => proj1 (H j)))
    as (w' & c & w1 & w2 & c0 & st & bc_update & Hv & Hrun & Hfwd & Hbwd & Hrow &
        Hsum & Hval).
  exists w', c, w1, w2, c0, st, bc_update.
  split; [exact Hv |]. split; [exact H |]. split; [exact Hrun |].
  split; [exact Hfwd |]. split; [exact Hbwd |]. split; [exact Hrow |].
  split; [exact Hsum |]. split; [exact Hval |]. rewrite Hval. reflexivity.
Qed.

(* ================================================================== *)
(** ** The theorems at concrete inputs *)
(* ================================================================== *)

Lemma depth_history_single_discovery_witness :
  exists w' n c st,
    valid_input path_graph (Index_list [0]) 1 = true /\
    bc_forward Valid (Some path_graph) (Index_list [0]) 1 world0 = (w', Ret (n, c, st)) /\
    forall i k d1 d2,
      get (S_at (bfs_S_array st) d1) i k = Some true ->
      get (S_at (bfs_S_array st) d2) i k = Some true ->
      d1 = d2.
Proof.
  do 4 eexists. split; [reflexivity |]. split; [vm_compute; reflexivity |].
  eapply (depth_history_single_discovery path_graph (Index_list [0]) 1 world0);
    [reflexivity | vm_compute; reflexivity].
Defined.

Lemma backward_phase_as_described_witness :
  exists w1 n c st,
    valid_input path_graph (Index_list [0]) 1 = true /\
    bc_forward Valid (Some path_graph) (Index_list [0]) 1 world0 = (w1, Ret (n, c, st)) /\
    exists w2 bc_update,
      bc_backward n 1 (Some path_graph) st w1 = (w2, Ret bc_update) /\
      calls w2 = calls w1 ++ backward_calls (length (backward_indices (bfs_depth st))) /\
      (forall j, j < bfs_depth st - 1 ->
         nth j (backward_indices (bfs_depth st)) 0 = bfs_depth st - 1 - j) /\
      length (backward_indices (bfs_depth st)) = bfs_depth st - 1 /\
      ~ In 0 (backward_indices (bfs_depth st)) /\
      forall v k, v < n -> k < Z.to_nat 1 ->
        get bc_update v k =
        fold_left
          (fun dependency i =>
             fold_credit (bfs_paths st) dependency
               (propagate path_graph (S_at (bfs_S_array st) (i - 1))
                  (credit_share (S_at (bfs_S_array st) i) dependency
                     (inverse_paths (bfs_paths st)))))
          (backward_indices (bfs_depth st)) (fun _ _ => Some fp64_one) v k.
Proof.
  do 4 eexists. split; [reflexivity |]. split; [vm_compute; reflexivity |].
  eapply (backward_phase_as_described path_graph (Index_list [0]) 1 world0);
    [reflexivity | vm_compute; reflexivity].
Defined.

Lemma search_terminates_within_nodes_witness :
  valid_input path_graph (Index_list [0]) 1 = true /\
  unit_valued path_graph = true /\
  no_overflow path_graph (Index_list [0]) 1 = true /\
  forall w : World,
  exists w' c st,
    bc_forward Valid (Some path_graph) (Index_list [0]) 1 w =
      (w', Ret (nrows path_graph, c, st)) /\
    1 <= bfs_depth st /\
    bfs_depth st <= Nat.max 1 (nrows path_graph - 1) /\
    count_entries (bfs_frontier st) = 0.
Proof.
  split; [reflexivity |]. split; [reflexivity |]. split; [vm_compute; reflexivity |].
  apply search_terminates_within_nodes;
    [reflexivity | reflexivity | vm_compute; reflexivity].
Defined.


Lemma sources_without_out_edges_witness :
  valid_input sink_graph (Index_list [0]) 1 = true /\
  (forall k i, k < Z.to_nat 1 -> i < nrows sink_graph ->
               get sink_graph (source_of (Index_list [0]) k) i = None) /\
  forall w : World,
  exists w1 c st,
    bc_forward Valid (Some sink_graph) (Index_list [0]) 1 w =
      (w1, Ret (nrows sink_graph, c, st)) /\
    bfs_depth st = 1 /\
    (exists S0, bfs_S_array st = [S0] /\ count_entries S0 = 0) /\
    backward_indices (bfs_depth st) = [] /\
    exists w2,
      bc_backward (nrows sink_graph) 1 (Some sink_graph) st w1 =
        (w2, Ret (ones_matrix (nrows sink_graph) (Z.to_nat 1))) /\
      calls w2 = calls w1 ++ backward_calls 0.
Proof.
  assert (H : forall k i, k < Z.to_nat 1 -> i < nrows sink_graph ->
                          get sink_graph (source_of (Index_list [0]) k) i = None).
  { intros k i Hk Hi. cbn in Hk, Hi.
    destruct k as [| k]; [| lia]. destruct i as [| [| i]]; [reflexivity | reflexivity | lia]. }
  split; [reflexivity |]. split; [exact H |].
  apply sources_without_out_edges; [reflexivity | exact H].
Defined.

Lemma isolated_node_centrality_zero_witness :
  exists w' c,
    valid_input isolated_graph GrB_ALL 3 = true /\
    2 < nrows isolated_graph /\
    (forall j, get isolated_graph 2 j = None /\ get isolated_graph j 2 = None) /\
    (3 < 2 ^ 31)%Z /\
    LAGraph_bc_batch Valid (Some isolated_graph) GrB_ALL 3 world0 = (w', Ret c) /\
    exists w1 w2 c0 st bc_update,
      bc_forward Valid (Some isolated_graph) GrB_ALL 3 world0 =
        (w1, Ret (nrows isolated_graph, c0, st)) /\
      bc_backward (nrows isolated_graph) 3 (Some isolated_graph) st w1 =
        (w2, Ret bc_update) /\
      (forall k, k < Z.to_nat 3 -> get bc_update 2 k = Some fp64_one) /\
      row_total bc_update 2 (Z.to_nat 3) = Some (fp64_of_Z 3) /\
      vget c 2 =
      Some (plus_fp64 (fp32_to_fp64 (SFopp (int32_to_fp32 3))) (fp64_of_Z 3)) /\
      ((3 <= 2 ^ 24)%Z -> vget c 2 = Some (S754_zero false)).
Proof.
  assert (H : forall j, get isolated_graph 2 j = None /\ get isolated_graph j 2 = None).
  { intros j. destruct j as [| [| [| j]]]; split; try reflexivity.
    - destruct j; reflexivity.
    - destruct j; reflexivity. }
  do 2 eexists. split; [reflexivity |]. split; [vm_compute; lia |].
  split; [exact H |]. split; [lia |].
  split; [vm_compute; reflexivity |].
  eapply (isolated_node_centrality_zero isolated_graph GrB_ALL 3 world0);
    [reflexivity | vm_compute; lia | exact H | lia | vm_compute; reflexivity].
Defined.


Lemma path_counts_positive_monotone_witness :
  valid_input path_graph (Index_list [0]) 1 = true /\
  unit_valued path_graph = true /\
  no_overflow path_graph (Index_list [0]) 1 = true /\
  bfs_reaches (nrows path_graph) 1 (Some path_graph) desc_tsr_value
    (init_state path_graph (Index_list [0]) 1)
    (init_state path_graph (Index_list [0]) 1) /\
  bfs_reaches (nrows path_graph) 1 (Some path_graph) desc_tsr_value
    (init_state path_graph (Index_list [0]) 1)
    (bfs_next (nrows path_graph) 1 path_graph desc_tsr_value
       (init_state path_graph (Index_list [0]) 1)) /\
  forall i k v,
    get (bfs_paths (init_state path_graph (Index_list [0]) 1)) i k = Some v ->
    (0 < v)%Z /\
    exists v',
      get (bfs_paths (bfs_next (nrows path_graph) 1 path_graph desc_tsr_value
                        (init_state path_graph (Index_list [0]) 1))) i k = Some v' /\
      (v <= v')%Z.
Proof.
  assert (H1 : bfs_reaches (nrows path_graph) 1 (Some path_graph) desc_tsr_value
                 (init_state path_graph (Index_list [0]) 1)
                 (init_state path_graph (Index_list [0]) 1))
    by apply reaches_start.
  assert (H2 : bfs_reaches (nrows path_graph) 1 (Some path_graph) desc_tsr_value
                 (init_state path_graph (Index_list [0]) 1)
                 (bfs_next (nrows path_graph) 1 path_graph desc_tsr_value
                    (init_state path_graph (Index_list [0]) 1))).
  { eapply reaches_step; [apply reaches_start |].
    exists world0. do 2 eexists. vm_compute. reflexivity. }
  split; [reflexivity |]. split; [reflexivity |]. split; [vm_compute; reflexivity |].
  split; [exact H1 |]. split; [exact H2 |].
  apply (path_counts_positive_monotone path_graph (Index_list [0]) 1);
    [reflexivity | reflexivity | vm_compute; reflexivity | exact H1 | exact H2].
Defined.

Lemma vector_print_null_and_silent_witness :
  VectorPrint.LAGraph_Vector_print false None 3 Valid = (GrB_NULL_POINTER, []) /\
  (-1 < 0)%Z /\
  VectorPrint.LAGraph_Vector_print false (Some VectorPrint.real_vector) (-1) Valid =
  (GrB_SUCCESS, []).
Proof.
  split.
  - apply (proj1 (vector_print_null_and_silent false None 3 Valid)).
    left. reflexivity.
  - split; [lia |].
    apply (proj2 (vector_print_null_and_silent false
                    (Some VectorPrint.real_vector) (-1) Valid)
                 VectorPrint.real_vector eq_refl eq_refl).
    lia.
Defined.

Lemma print_type_header_only_witness :
  VectorPrint.LAGraph_Vector_print_type (Some user_vector) VectorPrint.GrB_INT32 1 Valid =
  (GrB_SUCCESS, [VectorPrint.Out_header VectorPrint.GrB_INT32 2 1]).
Proof.
  apply (print_type_header_only VectorPrint.GrB_INT32 user_vector 1); [reflexivity | lia].
Defined.

Lemma print_type_lists_all_entries_witness :
  VectorPrint.LAGraph_Vector_print_type (Some VectorPrint.real_vector)
    VectorPrint.GrB_FP64 5 Valid =
  (GrB_SUCCESS,
   VectorPrint.Out_header VectorPrint.GrB_FP64 3 3
   :: VectorText.tuple_lines (snd (VectorText.formats_of VectorPrint.GrB_FP64)) VectorPrint.GrB_FP64 [(0, 1%Q); (1, 2%Q); (2, 3%Q)]).
Proof.
  apply (print_type_lists_all_entries VectorPrint.GrB_FP64 VectorPrint.real_vector 5);
    [reflexivity | discriminate | lia | left; lia].
Defined.

Lemma print_type_summary_witness :
  VectorPrint.LAGraph_Vector_print_type (Some long_vector) VectorPrint.GrB_FP64 2 Valid =
  (GrB_SUCCESS,
   VectorPrint.Out_header VectorPrint.GrB_FP64 40 31
   :: VectorText.tuple_lines (fst (VectorText.formats_of VectorPrint.GrB_FP64)) VectorPrint.GrB_FP64
        (firstn 30 (VectorPrint.v_tuples long_vector))
   ++ [VectorPrint.Out_ellipsis]) /\
  length (snd (VectorPrint.LAGraph_Vector_print_type (Some long_vector)
                 VectorPrint.GrB_FP64 2 Valid)) = 92.
Proof.
  apply (print_type_summary VectorPrint.GrB_FP64 long_vector 2);
    [reflexivity | discriminate | left; reflexivity | cbn; lia].
Defined.

Lemma print_type_integer_levels_witness :
  VectorPrint.LAGraph_Vector_print_type (Some VectorPrint.real_vector)
    VectorPrint.GrB_INT64 4 Valid =
  VectorPrint.LAGraph_Vector_print_type (Some VectorPrint.real_vector)
    VectorPrint.GrB_INT64 2 Valid /\
  VectorPrint.LAGraph_Vector_print_type (Some VectorPrint.real_vector)
    VectorPrint.GrB_INT64 5 Valid =
  VectorPrint.LAGraph_Vector_print_type (Some VectorPrint.real_vector)
    VectorPrint.GrB_INT64 3 Valid.
Proof.
  apply (print_type_integer_levels VectorPrint.GrB_INT64); discriminate.
Defined.

Lemma print_type_user_defined_vector_witness :
  VectorPrint.LAGraph_Vector_print_type (Some user_vector) VectorPrint.GrB_FP64 3 Valid =
  (GrB_NOT_IMPLEMENTED, [VectorPrint.Out_header VectorPrint.GrB_FP64 2 1]).
Proof.
  apply (print_type_user_defined_vector VectorPrint.GrB_FP64 user_vector 3);
    [reflexivity | reflexivity | lia].
Defined.

Lemma print_type_checks_type_first_witness :
  VectorPrint.LAGraph_Vector_print_type None VectorPrint.GxB_FC64 3 NULL =
    (GrB_NOT_IMPLEMENTED, []) /\
  VectorPrint.LAGraph_Vector_print_type None VectorPrint.GrB_FP64 3 Valid =
    (GrB_NULL_POINTER, []).
Proof.
  split.
  - apply (proj1 (print_type_checks_type_first VectorPrint.GxB_FC64 None 3 NULL)).
    reflexivity.
  - apply (proj2 (print_type_checks_type_first VectorPrint.GrB_FP64 None 3 Valid));
      [reflexivity | left; reflexivity].
Defined.

Lemma end_node_centrality_zero_witness :
  exists w' c,
    valid_input sink_graph GrB_ALL 2 = true /\
    (2 <= 2 ^ 24)%Z /\
    0 < nrows sink_graph /\
    (forall j, get sink_graph 0 j = None) /\
    LAGraph_bc_batch Valid (Some sink_graph) GrB_ALL 2 world0 = (w', Ret c) /\
    vget c 0 = Some (S754_zero false).
Proof.
  assert (H : forall j, get sink_graph 0 j = None).
  { intros j. destruct j as [| [| j]]; try reflexivity. destruct j; reflexivity. }
  do 2 eexists. split; [reflexivity |]. split; [lia |]. split; [vm_compute; lia |].
  split; [exact H |]. split; [vm_compute; reflexivity |].
  eapply (end_node_centrality_zero sink_graph GrB_ALL 2 world0);
    [reflexivity | lia | vm_compute; lia | left; exact H | vm_compute; reflexivity].
Defined.

Lemma forward_path_counts_witness :
  exists w' c st,
    bc_forward Valid (Some (diamond 1)) GrB_ALL 4 world0 =
      (w', Ret (nrows (diamond 1), c, st)) /\
    forall i k, i < nrows (diamond 1) -> k < Z.to_nat 4 ->
      get (bfs_paths st) i k =
      match dist (diamond 1) (source_of GrB_ALL k) i with
      | Some _ => Some (sigma (diamond 1) (source_of GrB_ALL k) i)
      | None => None
      end.
Proof.
  apply (forward_path_counts (diamond 1) GrB_ALL 4 world0); reflexivity.
Defined.

Lemma depth_history_levels_witness :
  exists w' c st,
    bc_forward Valid (Some (diamond 1)) GrB_ALL 4 world0 =
      (w', Ret (nrows (diamond 1), c, st)) /\
    length (bfs_S_array st) = bfs_depth st /\
    forall j i k, j < bfs_depth st -> i < nrows (diamond 1) -> k < Z.to_nat 4 ->
      get (S_at (bfs_S_array st) j) i k =
      if dist_is (diamond 1) (source_of GrB_ALL k) i (S j) then Some true else None.
Proof.
  apply (depth_history_levels (diamond 1) GrB_ALL 4 world0); reflexivity.
Defined.

Lemma final_depth_is_largest_distance_witness :
  exists w' c st,
    bc_forward Valid (Some (diamond 1)) GrB_ALL 4 world0 =
      (w', Ret (nrows (diamond 1), c, st)) /\
    1 <= bfs_depth st /\
    (forall i k l, k < Z.to_nat 4 ->
       dist (diamond 1) (source_of GrB_ALL k) i = Some l -> l <= bfs_depth st) /\
    (1 < bfs_depth st ->
     exists i k, i < nrows (diamond 1) /\ k < Z.to_nat 4 /\
                 dist (diamond 1) (source_of GrB_ALL k) i = Some (bfs_depth st)).
Proof.
  apply (final_depth_is_largest_distance (diamond 1) GrB_ALL 4 world0); reflexivity.
Defined.

Lemma successful_run_frees_work_objects_witness :
  exists w' c,
    valid_input sink_graph GrB_ALL 2 = true /\
    live world0 = [] /\
    LAGraph_bc_batch Valid (Some sink_graph) GrB_ALL 2 world0 = (w', Ret c) /\
    live w' = [R_centrality].
Proof.
  do 2 eexists. split; [reflexivity |]. split; [reflexivity |].
  split; [vm_compute; reflexivity |].
  eapply (successful_run_frees_work_objects sink_graph GrB_ALL 2 world0);
    [reflexivity | reflexivity | vm_compute; reflexivity].
Defined.

Lemma successful_run_number_of_calls_witness :
  exists w' c,
    valid_input sink_graph GrB_ALL 2 = true /\
    LAGraph_bc_batch Valid (Some sink_graph) GrB_ALL 2 world0 = (w', Ret c) /\
    exists w1 c0 st,
      bc_forward Valid (Some sink_graph) GrB_ALL 2 world0 =
        (w1, Ret (nrows sink_graph, c0, st)) /\
      length (calls w') = length (calls world0) + 8 * bfs_depth st + 16.
Proof.
  do 2 eexists. split; [reflexivity |]. split; [vm_compute; reflexivity |].
  eapply (successful_run_number_of_calls sink_graph GrB_ALL 2 world0);
    [reflexivity | vm_compute; reflexivity].
Defined.

Lemma setup_paths_and_frontier_witness :
  exists w' c d st0,
    bc_setup Valid (Some sink_graph) GrB_ALL 2 world0 =
      (w', Ret (nrows sink_graph, c, d, st0)) /\
    bfs_depth st0 = 0 /\ bfs_S_array st0 = [] /\
    forall i k, i < nrows sink_graph -> k < Z.to_nat 2 ->
      get (bfs_paths st0) i k =
        (if source_of GrB_ALL k =? i then Some 1%Z else None) /\
      get (bfs_frontier st0) i k =
        (if source_of GrB_ALL k =? i then None
         else option_map wrap64 (get sink_graph (source_of GrB_ALL k) i)).
Proof.
  apply (setup_paths_and_frontier sink_graph GrB_ALL 2 world0). reflexivity.
Defined.

Lemma all_sources_count_above_nodes_witness :
  snd (LAGraph_bc_batch Valid (Some single_node) GrB_ALL 2 world0) = Fault /\
  calls (fst (LAGraph_bc_batch Valid (Some single_node) GrB_ALL 2 world0)) =
  calls world0 ++ [Call_Matrix_nrows; Call_Vector_new; Call_Descriptor_new;
                   Call_Descriptor_set; Call_Descriptor_set; Call_Descriptor_set;
                   Call_Matrix_new; Call_Matrix_build].
Proof.
  apply (all_sources_count_above_nodes single_node 2 world0); [vm_compute; lia | cbn; lia].
Defined.

